(** * Zenvexa API platform: the page script [static/js/main.js]

    A shallow embedding of the client-side script of the platform (form
    validation, password strength, clipboard copy, alert toasts) together
    with the properties stated about it.

    JavaScript strings are sequences of UTF-16 code units; they are
    modelled as [list N].  DOM tokens that only ever appear as literals
    in the script (ids, class names, tag names, alert kinds) are [string]s. *)

From Stdlib Require Import NArith Ascii String List Lia Bool.
From stdpp Require Import base tactics option list strings numbers.
Import ListNotations.

Local Open Scope N_scope.
Local Open Scope nat_scope.
Local Open Scope list_scope.

(** ** JavaScript strings *)

Abbreviation jsstring := (list N).

(** The code units of an ASCII literal of the script. *)
Definition js (s : string) : jsstring :=
  map N_of_ascii (list_ascii_of_string s).

(** ECMAScript [WhiteSpace] and [LineTerminator] code points: the set
    that both [String.prototype.trim] and the regular-expression class
    [\s] use. *)
Definition is_space (c : N) : bool :=
  ((9 <=? c) && (c <=? 13) ||
   (c =? 32) || (c =? 160) || (c =? 5760) ||
   ((8192 <=? c) && (c <=? 8202)) ||
   (c =? 8232) || (c =? 8233) || (c =? 8239) || (c =? 8287) ||
   (c =? 12288) || (c =? 65279))%N.

Fixpoint trimStart (s : jsstring) : jsstring :=
  match s with
  | c :: s' => if is_space c then trimStart s' else s
  | [] => []
  end.

Definition trimEnd (s : jsstring) : jsstring :=
  rev (trimStart (rev s)).

(** [String.prototype.trim] *)
Definition trim (s : jsstring) : jsstring := trimEnd (trimStart s).

(** [s === ''] *)
Definition is_empty (s : jsstring) : bool :=
  match s with [] => true | _ => false end.

(** ** Regular expressions

    The script only uses regular expressions built from character
    classes, concatenation and [+], with or without the anchors [^] and
    [$], and only asks whether a match exists ([re.test(s)], or
    [s.match(re)] in a boolean position).  They are run by Brzozowski
    derivatives. *)

Inductive regex : Type :=
| Never
| Eps
| Class (p : N -> bool)
| Seq (r1 r2 : regex)
| Alt (r1 r2 : regex)
| Star (r : regex).

Definition Plus (r : regex) : regex := Seq r (Star r).

Fixpoint nullable (r : regex) : bool :=
  match r with
  | Never => false
  | Eps => true
  | Class _ => false
  | Seq r1 r2 => nullable r1 && nullable r2
  | Alt r1 r2 => nullable r1 || nullable r2
  | Star _ => true
  end.

Fixpoint deriv (c : N) (r : regex) : regex :=
  match r with
  | Never => Never
  | Eps => Never
  | Class p => if p c then Eps else Never
  | Seq r1 r2 =>
      if nullable r1 then Alt (Seq (deriv c r1) r2) (deriv c r2)
      else Seq (deriv c r1) r2
  | Alt r1 r2 => Alt (deriv c r1) (deriv c r2)
  | Star r1 => Seq (deriv c r1) (Star r1)
  end.

Fixpoint matchb (r : regex) (s : jsstring) : bool :=
  match s with
  | [] => nullable r
  | c :: s' => matchb (deriv c r) s'
  end.

(** A pattern literal: its body and whether it carries [^] and [$].
    None of the script's patterns has a flag. *)
Record RegExp : Type := mkRegExp {
  re_bol : bool;
  re_body : regex;
  re_eol : bool;
}.

Definition any_prefix : regex := Star (Class (fun _ => true)).

(** [re.test(s)]: is there a match of the body somewhere in [s], at the
    start and the end of [s] where the pattern is anchored. *)
Definition test (re : RegExp) (s : jsstring) : bool :=
  matchb (Seq (if re_bol re then Eps else any_prefix)
              (Seq (re_body re) (if re_eol re then Eps else any_prefix))) s.

(** [s.match(re)] in a boolean position: the result is an array when a
    match exists and [null] otherwise. *)
Definition match_truthy (s : jsstring) (re : RegExp) : bool := test re s.

(** The declarative reading of a regular expression. *)
Inductive matches : regex -> jsstring -> Prop :=
| MEps : matches Eps []
| MClass p c : p c = true -> matches (Class p) [c]
| MSeq r1 r2 s1 s2 :
    matches r1 s1 -> matches r2 s2 -> matches (Seq r1 r2) (s1 ++ s2)
| MAltL r1 r2 s : matches r1 s -> matches (Alt r1 r2) s
| MAltR r1 r2 s : matches r2 s -> matches (Alt r1 r2) s
| MStarNil r : matches (Star r) []
| MStarApp r s1 s2 :
    matches r s1 -> matches (Star r) s2 -> matches (Star r) (s1 ++ s2).

(** ** Form validation (main.js, lines 75-82) *)

Definition AT : N := 64.
Definition DOT : N := 46.

(** [[^\s@]] *)
Definition not_space_at (c : N) : bool := negb (is_space c || (c =? AT)%N).

(** [/^[^\s@]+@[^\s@]+\.[^\s@]+$/] *)
Definition email_re : RegExp :=
  mkRegExp true
    (Seq (Plus (Class not_space_at))
      (Seq (Class (N.eqb AT))
        (Seq (Plus (Class not_space_at))
          (Seq (Class (N.eqb DOT))
            (Plus (Class not_space_at))))))
    true.

Definition validateEmail (email : jsstring) : bool := test email_re email.

Definition validatePassword (password : jsstring) : bool :=
  8 <=? length password.


(** ** Password strength (main.js, lines 316-320)

    The local variable [strength] of [updatePasswordStrength]. *)

Definition in_range (lo hi c : N) : bool := ((lo <=? c) && (c <=? hi))%N.

(** [/[a-z]/], [/[A-Z]/], [/[0-9]/] and [/[^a-zA-Z0-9]/] *)
Definition is_lower (c : N) : bool := in_range 97 122 c.
Definition is_upper (c : N) : bool := in_range 65 90 c.
Definition is_digit (c : N) : bool := in_range 48 57 c.
Definition is_other (c : N) : bool :=
  negb (is_lower c || is_upper c || is_digit c).

Definition re_lower : RegExp := mkRegExp false (Class is_lower) false.
Definition re_upper : RegExp := mkRegExp false (Class is_upper) false.
Definition re_digit : RegExp := mkRegExp false (Class is_digit) false.
Definition re_other : RegExp := mkRegExp false (Class is_other) false.

Definition incr_if (b : bool) (n : nat) : nat := if b then S n else n.

Definition passwordStrength (password : jsstring) : nat :=
  let strength := 0 in
  let strength := incr_if (8 <=? length password) strength in
  let strength :=
    incr_if (match_truthy password re_lower && match_truthy password re_upper)
            strength in
  let strength := incr_if (match_truthy password re_digit) strength in
  let strength := incr_if (match_truthy password re_other) strength in
  strength.

(** The class the bar receives (lines 323-329). *)
Definition strengthClass (strength : nat) : string :=
  if strength <=? 1 then "strength-weak"
  else if strength <=? 3 then "strength-medium"
  else "strength-strong".

(** ** The document

    The server-rendered tree is a list of elements in document order; a
    node is its position.  Only what the script reads or writes is kept:
    tag, id, class list, parent, the value and default value of a form
    control, and the text of a leaf element. *)

Abbreviation node := nat.

Record Element : Type := mkElement {
  tagName : string;
  elemId : option string;
  classList : list string;
  parent : option node;
  value : jsstring;
  defaultValue : jsstring;
  textContent : jsstring;
}.

Definition set_classList (l : list string) (e : Element) : Element :=
  mkElement (tagName e) (elemId e) l (parent e)
            (value e) (defaultValue e) (textContent e).

Definition set_value (v : jsstring) (e : Element) : Element :=
  mkElement (tagName e) (elemId e) (classList e) (parent e)
            v (defaultValue e) (textContent e).

Definition set_textContent (t : jsstring) (e : Element) : Element :=
  mkElement (tagName e) (elemId e) (classList e) (parent e)
            (value e) (defaultValue e) t.

(** [DOMTokenList]: an ordered set of tokens. *)
Definition token_add (c : string) (l : list string) : list string :=
  if bool_decide (c ∈ l) then l else l ++ [c].

Definition token_remove (c : string) (l : list string) : list string :=
  List.filter (fun d => negb (String.eqb c d)) l.

Definition el_add (c : string) (e : Element) : Element :=
  set_classList (token_add c (classList e)) e.

Definition el_remove (c : string) (e : Element) : Element :=
  set_classList (token_remove c (classList e)) e.

(** Nodes the script creates and appends to [document.body]. *)
Record Alert : Type := mkAlert {
  alert_classes : list string;
  alert_message : jsstring;
  (** background, colour, border *)
  alert_style : option (string * string * string);
}.

Inductive Created : Type :=
| AlertDiv (a : Alert)
| TextArea (v : jsstring).

Inductive TimerAction : Type :=
| RemoveCreated (id : nat)
| RestoreText (button : node) (text : jsstring).

Inductive ExecResult : Type :=
| ExecReturns (b : bool)
| ExecThrows.

(** What the browser offers to the script: [navigator.clipboard],
    [window.isSecureContext], and what [document.execCommand('copy')]
    does when it is called. *)
Record Platform : Type := mkPlatform {
  has_clipboard : bool;
  isSecureContext : bool;
  exec_copy : ExecResult;
}.

Record Page : Type := mkPage {
  elems : list Element;
  (** children appended to the body by the script, each with the
      identity it was created with *)
  appended : list (nat * Created);
  fresh : nat;
  (** callbacks registered with [setTimeout] that have not run yet *)
  timers : list TimerAction;
  platform : Platform;
}.

Definition with_elems (l : list Element) (s : Page) : Page :=
  mkPage l (appended s) (fresh s) (timers s) (platform s).

Definition with_appended (a : list (nat * Created)) (s : Page) : Page :=
  mkPage (elems s) a (fresh s) (timers s) (platform s).

Definition with_fresh (n : nat) (s : Page) : Page :=
  mkPage (elems s) (appended s) n (timers s) (platform s).

Definition with_timers (t : list TimerAction) (s : Page) : Page :=
  mkPage (elems s) (appended s) (fresh s) t (platform s).

(** *** Reading the tree *)

Definition sel_class (c : string) (e : Element) : bool :=
  bool_decide (c ∈ classList e).

Definition sel_tags (ts : list string) (e : Element) : bool :=
  bool_decide (tagName e ∈ ts).

(** The first of [n], its parent, its grandparent, ... that satisfies
    [P]; the fuel bounds the walk by the size of the tree. *)
Fixpoint walk_up (fuel : nat) (P : node -> Element -> bool)
    (l : list Element) (n : node) : option node :=
  match fuel with
  | 0 => None
  | S fuel' =>
      match l !! n with
      | None => None
      | Some e =>
          if P n e then Some n
          else match parent e with
               | Some p => walk_up fuel' P l p
               | None => None
               end
      end
  end.

(** [n.closest(sel)] *)
Definition closest_in (P : Element -> bool) (l : list Element) (n : node)
    : option node :=
  walk_up (length l) (fun _ e => P e) l n.

(** [n] is a proper descendant of [root]. *)
Definition descendant_in (l : list Element) (root n : node) : bool :=
  match l !! n with
  | Some e =>
      match parent e with
      | Some p =>
          bool_decide (is_Some (walk_up (length l) (fun k _ => k =? root) l p))
      | None => false
      end
  | None => false
  end.

Definition matches_at (P : Element -> bool) (l : list Element) (n : node)
    : bool :=
  match l !! n with Some e => P e | None => false end.

(** [root.querySelectorAll(sel)], in document order *)
Definition querySelectorAll_in (P : Element -> bool) (l : list Element)
    (root : node) : list node :=
  List.filter (fun n => descendant_in l root n && matches_at P l n)
              (seq 0 (length l)).

(** [root.querySelector(sel)] *)
Definition querySelector_in (P : Element -> bool) (l : list Element)
    (root : node) : option node :=
  head (querySelectorAll_in P l root).

(** [document.getElementById(id)] *)
Definition getElementById_in (id : string) (l : list Element) : option node :=
  head (List.filter (matches_at (fun e => bool_decide (elemId e = Some id)) l)
                    (seq 0 (length l))).

(** Observations on a page. *)
Definition cls (c : string) (n : node) (s : Page) : bool :=
  matches_at (sel_class c) (elems s) n.

Definition val (n : node) (s : Page) : jsstring :=
  from_option value [] (elems s !! n).

Definition txt (n : node) (s : Page) : jsstring :=
  from_option textContent [] (elems s !! n).

(** [document.querySelectorAll('.custom-alert')].  Alert elements are
    kept apart from the tree of the forms: they are the alert nodes of
    [appended], which holds the nodes the script appended and may hold
    any alert the page came with. *)
Definition is_alert (c : nat * Created) : bool :=
  match snd c with
  | AlertDiv a => bool_decide ("custom-alert" ∈ alert_classes a)
  | TextArea _ => false
  end.

Definition alerts (s : Page) : list (nat * Created) :=
  List.filter is_alert (appended s).

(** ** Handlers: state and exceptions

    A handler runs on the page and either returns or throws; what it
    wrote before throwing stays written. *)

Inductive Exn : Type := TypeError | DOMException.

Inductive Result (A : Type) : Type :=
| Ok (a : A)
| Throw (e : Exn).
Arguments Ok {A} a.
Arguments Throw {A} e.

Definition M (A : Type) : Type := Page -> Result A * Page.

Definition ret {A} (a : A) : M A := fun s => (Ok a, s).

Definition bind {A B} (c : M A) (k : A -> M B) : M B :=
  fun s =>
    match c s with
    | (Ok a, s') => k a s'
    | (Throw e, s') => (Throw e, s')
    end.

Definition throw {A} (e : Exn) : M A := fun s => (Throw e, s).

(** [try { c } catch (err) { h }] *)
Definition try_catch {A} (c : M A) (h : Exn -> M A) : M A :=
  fun s =>
    match c s with
    | (Ok a, s') => (Ok a, s')
    | (Throw e, s') => h e s'
    end.

Notation "x <- c ;; k" := (bind c (fun x => k))
  (at level 100, c at next level, right associativity).
Notation "c ;;; k" := (bind c (fun _ => k))
  (at level 100, right associativity).

Definition gets {A} (f : Page -> A) : M A := fun s => (Ok (f s), s).
Definition modify (f : Page -> Page) : M unit := fun s => (Ok tt, f s).

(** [list.forEach(f)] *)
Fixpoint forEach {A} (l : list A) (f : A -> M unit) : M unit :=
  match l with
  | [] => ret tt
  | x :: l' => f x ;;; forEach l' f
  end.

(** Property access on a possibly-null reference. *)
Definition deref (o : option node) : M node :=
  match o with
  | Some n => ret n
  | None => throw TypeError
  end.

Definition upd (n : node) (f : Element -> Element) (s : Page) : Page :=
  with_elems (alter f n (elems s)) s.
Arguments upd : simpl never.

Definition getElementById (id : string) : M (option node) :=
  gets (fun s => getElementById_in id (elems s)).

Definition closest (n : node) (P : Element -> bool) : M (option node) :=
  gets (fun s => closest_in P (elems s) n).

Definition querySelector (root : node) (P : Element -> bool)
    : M (option node) :=
  gets (fun s => querySelector_in P (elems s) root).

Definition querySelectorAll (root : node) (P : Element -> bool)
    : M (list node) :=
  gets (fun s => querySelectorAll_in P (elems s) root).

(** [n.value], for a form control [n] (an [input], [textarea] or
    [select]).  On any other element the property is undefined, which
    the store does not represent: where a listener reads the value of a
    field it looked up, the theorems ask for the field to be a control. *)
Definition get_value (n : node) : M jsstring := gets (val n).
Definition get_textContent (n : node) : M jsstring := gets (txt n).

Definition classList_add (n : node) (c : string) : M unit :=
  modify (upd n (el_add c)).

Definition classList_remove (n : node) (c : string) : M unit :=
  modify (upd n (el_remove c)).

(** [n.textContent = t], for an element that holds text only.  The
    setter also removes the element children of [n]; the store keeps the
    text of leaf elements, so where that matters the theorems ask for
    [n] to have no element children. *)
Definition put_textContent (n : node) (t : jsstring) : M unit :=
  modify (upd n (set_textContent t)).

Definition put_className (n : node) (l : list string) : M unit :=
  modify (upd n (set_classList l)).

(** ** Field validation primitives (main.js, lines 84-118) *)

Definition form_group : Element -> bool := sel_class "form-group".
Definition error_message : Element -> bool := sel_class "error-message".

Definition showError (input : node) (message : jsstring) : M unit :=
  formGroup <- closest input form_group;;
  formGroup <- deref formGroup;;
  errorElement <- querySelector formGroup error_message;;
  classList_add input "error";;;
  classList_remove input "success";;;
  match errorElement with
  | Some errorElement =>
      put_textContent errorElement message;;;
      classList_add errorElement "show"
  | None => ret tt
  end.

Definition showSuccess (input : node) : M unit :=
  formGroup <- closest input form_group;;
  formGroup <- deref formGroup;;
  errorElement <- querySelector formGroup error_message;;
  classList_remove input "error";;;
  classList_add input "success";;;
  match errorElement with
  | Some errorElement => classList_remove errorElement "show"
  | None => ret tt
  end.

Definition clearValidation (input : node) : M unit :=
  formGroup <- closest input form_group;;
  formGroup <- deref formGroup;;
  errorElement <- querySelector formGroup error_message;;
  classList_remove input "error";;;
  classList_remove input "success";;;
  match errorElement with
  | Some errorElement => classList_remove errorElement "show"
  | None => ret tt
  end.

(** ** Alert system (main.js, lines 406-466) *)

(** [node.remove()] and [document.body.removeChild(node)] on a node the
    script created: it leaves the body; nothing happens when it already
    left. *)
Definition remove_created (id : nat) : M unit :=
  modify (fun s =>
    with_appended (List.filter (fun c => negb (fst c =? id)) (appended s)) s).

(** [document.createElement(tag)]: a new identity. *)
Definition createElement : M nat :=
  fun s => (Ok (fresh s), with_fresh (S (fresh s)) s).

(** [document.body.appendChild(node)] *)
Definition appendChild (id : nat) (c : Created) : M unit :=
  modify (fun s => with_appended (appended s ++ [(id, c)]) s).

(** [setTimeout(callback, delay)]: the callback waits. *)
Definition setTimeout (a : TimerAction) (delay : nat) : M unit :=
  modify (fun s => with_timers (timers s ++ [a]) s).

Definition alert_style_of (type : string) : option (string * string * string) :=
  if String.eqb type "success" then
    Some ("#dcfce7", "#166534", "1px solid #10b981")%string
  else if String.eqb type "error" then
    Some ("#fee2e2", "#991b1b", "1px solid #ef4444")%string
  else if String.eqb type "info" then
    Some ("#eff6ff", "#1e40af", "1px solid #3b82f6")%string
  else None.

(** The alert element as it is when it is appended.  The messages the
    script passes are literal texts without markup, so the element's
    content is the message and the close button. *)
Definition new_alert (type : string) (message : jsstring) : Alert :=
  mkAlert ["custom-alert"; ("alert-" ++ type)%string] message
          (alert_style_of type).

Definition showAlert (type : string) (message : jsstring) : M unit :=
  existingAlerts <- gets alerts;;
  forEach existingAlerts (fun alert => remove_created (fst alert));;;
  alert <- createElement;;
  appendChild alert (AlertDiv (new_alert type message));;;
  setTimeout (RemoveCreated alert) 5000.

(** The close button of the alert with identity [alert] is clicked. *)
Definition closeClick (alert : nat) : M unit := remove_created alert.

Definition run_timer (a : TimerAction) : M unit :=
  match a with
  | RemoveCreated id => remove_created id
  | RestoreText button text => put_textContent button text
  end.

(** The [k]-th waiting callback runs. *)
Definition fire (k : nat) : M unit :=
  pending <- gets timers;;
  match pending !! k with
  | Some a => modify (fun s => with_timers (delete k (timers s)) s);;; run_timer a
  | None => ret tt
  end.

(** The alert layer as a transition system. *)
Inductive AlertEvent : Type :=
| EvShowAlert (type : string) (message : jsstring)
| EvCloseClick (alert : nat)
| EvTimeout (k : nat).

Definition alert_step (ev : AlertEvent) : M unit :=
  match ev with
  | EvShowAlert type message => showAlert type message
  | EvCloseClick alert => closeClick alert
  | EvTimeout k => fire k
  end.

(** An event handler that throws is abandoned; the page goes on. *)
Definition after {A} (c : M A) (s : Page) : Page := snd (c s).

Fixpoint alert_run (evs : list AlertEvent) (s : Page) : Page :=
  match evs with
  | [] => s
  | ev :: evs' => alert_run evs' (after (alert_step ev) s)
  end.

(** ** Contact form (main.js, lines 123-185) *)

Definition controls : Element -> bool := sel_tags ["input"; "textarea"; "select"]%string.

(** [form.reset()]: every control of the form takes its default value
    again.  (Controls tied to the form from outside through a [form]
    attribute are not modelled.) *)
Definition reset_value (e : Element) : Element := set_value (defaultValue e) e.

Definition form_reset (form : node) : M unit :=
  owned <- querySelectorAll form controls;;
  forEach owned (fun n => modify (upd n reset_value)).

(** The submit listener.  [e.preventDefault()] has no effect on the page
    state and is left out. *)
Definition contactSubmit (contactForm : node) : M unit :=
  let isValid := true in
  name <- getElementById "name";;
  email <- getElementById "email";;
  subject <- getElementById "subject";;
  message <- getElementById "message";;
  isValid <-
    match name with
    | Some name =>
        v <- get_value name;;
        if is_empty (trim v) then
          showError name (js "Name is required");;; ret false
        else
          showSuccess name;;; ret isValid
    | None => ret isValid
    end;;
  isValid <-
    match email with
    | Some email =>
        v <- get_value email;;
        if is_empty (trim v) then
          showError email (js "Email is required");;; ret false
        else if negb (validateEmail v) then
          showError email (js "Please enter a valid email");;; ret false
        else
          showSuccess email;;; ret isValid
    | None => ret isValid
    end;;
  isValid <-
    match subject with
    | Some subject =>
        v <- get_value subject;;
        if is_empty v then
          showError subject (js "Please select a subject");;; ret false
        else
          showSuccess subject;;; ret isValid
    | None => ret isValid
    end;;
  isValid <-
    match message with
    | Some message =>
        v <- get_value message;;
        if is_empty (trim v) then
          showError message (js "Message is required");;; ret false
        else if length (trim v) <? 10 then
          showError message (js "Message must be at least 10 characters");;;
          ret false
        else
          showSuccess message;;; ret isValid
    | None => ret isValid
    end;;
  if isValid then
    showAlert "success"
      (js "Thank you! Your message has been sent successfully.");;;
    form_reset contactForm;;;
    inputs <- querySelectorAll contactForm controls;;
    forEach inputs clearValidation
  else ret tt.

(** ** Login form (main.js, lines 190-225) *)

Definition loginSubmit (loginForm : node) : M unit :=
  let isValid := true in
  email <- getElementById "login-email";;
  password <- getElementById "login-password";;
  isValid <-
    (email <- deref email;;
     v <- get_value email;;
     if is_empty (trim v) then
       showError email (js "Email is required");;; ret false
     else if negb (validateEmail v) then
       showError email (js "Please enter a valid email");;; ret false
     else
       showSuccess email;;; ret isValid);;
  isValid <-
    (password <- deref password;;
     v <- get_value password;;
     if is_empty (trim v) then
       showError password (js "Password is required");;; ret false
     else
       showSuccess password;;; ret isValid);;
  if isValid then
    showAlert "info" (js "Login functionality would be handled by your backend.")
  else ret tt.

(** ** Signup form (main.js, lines 230-298) *)

(** [a !== b] on strings *)
Definition js_neq (a b : jsstring) : bool := negb (bool_decide (a = b)).

Definition signupSubmit (signupForm : node) : M unit :=
  let isValid := true in
  name <- getElementById "signup-name";;
  email <- getElementById "signup-email";;
  password <- getElementById "signup-password";;
  confirm <- getElementById "signup-confirm";;
  isValid <-
    (name <- deref name;;
     v <- get_value name;;
     if is_empty (trim v) then
       showError name (js "Name is required");;; ret false
     else
       showSuccess name;;; ret isValid);;
  isValid <-
    (email <- deref email;;
     v <- get_value email;;
     if is_empty (trim v) then
       showError email (js "Email is required");;; ret false
     else if negb (validateEmail v) then
       showError email (js "Please enter a valid email");;; ret false
     else
       showSuccess email;;; ret isValid);;
  isValid <-
    (password <- deref password;;
     v <- get_value password;;
     if is_empty (trim v) then
       showError password (js "Password is required");;; ret false
     else if negb (validatePassword v) then
       showError password (js "Password must be at least 8 characters");;;
       ret false
     else
       showSuccess password;;; ret isValid);;
  isValid <-
    (confirm <- deref confirm;;
     c <- get_value confirm;;
     if is_empty (trim c) then
       showError confirm (js "Please confirm your password");;; ret false
     else
       password <- deref password;;
       p <- get_value password;;
       if js_neq p c then
         showError confirm (js "Passwords do not match");;; ret false
       else
         showSuccess confirm;;; ret isValid);;
  if isValid then
    showAlert "success" (js "Account created successfully!");;;
    form_reset signupForm
  else ret tt.

(** ** Password strength indicator (main.js, lines 303-330) *)

Definition updatePasswordStrength (password : jsstring) : M unit :=
  strengthBar <- getElementById "password-strength-bar";;
  strengthContainer <- getElementById "password-strength";;
  match strengthBar, strengthContainer with
  | Some strengthBar, Some strengthContainer =>
      if length password =? 0 then
        classList_remove strengthContainer "show"
      else
        classList_add strengthContainer "show";;;
        let strength := passwordStrength password in
        put_className strengthBar ["password-strength-bar"%string];;;
        classList_add strengthBar (strengthClass strength)
  | _, _ => ret tt
  end.

(** ** Copy to clipboard (main.js, lines 335-401) *)

(** [document.execCommand('copy')] *)
Definition execCommand_copy : M bool :=
  fun s =>
    match exec_copy (platform s) with
    | ExecReturns b => (Ok b, s)
    | ExecThrows => (Throw DOMException, s)
    end.

(** The textarea's style and [textArea.select()] leave the modelled
    state as it is. *)
Definition fallbackCopy (text : jsstring) : M unit :=
  textArea <- createElement;;
  appendChild textArea (TextArea text);;;
  try_catch
    (execCommand_copy;;;
     showAlert "success" (js "Copied to clipboard!"))
    (fun err => showAlert "error" (js "Failed to copy"));;;
  remove_created textArea.

(** The promise of [navigator.clipboard.writeText(text)] with the
    callbacks of [.then(f).catch(g)] attached; it settles in a later
    turn of the event loop. *)
Record Promise : Type := mkPromise {
  onFulfilled : M unit;
  onRejected : M unit;
}.

Inductive Settlement : Type := Fulfilled | Rejected.

(** The promise settles: [f] runs on fulfilment, and [g] runs on
    rejection and also when [f] throws. *)
Definition settle (p : Promise) (o : Settlement) : M unit :=
  match o with
  | Fulfilled => try_catch (onFulfilled p) (fun _ => onRejected p)
  | Rejected => onRejected p
  end.

Definition clipboard_usable : M bool :=
  gets (fun s => has_clipboard (platform s) && isSecureContext (platform s)).

(** Click on a [[data-copy]] button whose attribute is [textToCopy]
    (lines 337-349). *)
Definition dataCopyClick (textToCopy : jsstring) : M (option Promise) :=
  usable <- clipboard_usable;;
  if usable then
    ret (Some (mkPromise (showAlert "success" (js "Copied to clipboard!"))
                         (fallbackCopy textToCopy)))
  else
    fallbackCopy textToCopy;;; ret None.

Definition copyToClipboard (text : jsstring) (button : node)
    : M (option Promise) :=
  usable <- clipboard_usable;;
  if usable then
    ret (Some (mkPromise
      (originalText <- get_textContent button;;
       put_textContent button (js "Copied!");;;
       setTimeout (RestoreText button originalText) 2000)
      (fallbackCopy text)))
  else
    fallbackCopy text;;; ret None.

(** Click on a ["Copy"] button of a key item (lines 355-364). *)
Definition keyCopyClick (button : node) : M (option Promise) :=
  keyItem <- closest button (sel_class "key-item");;
  match keyItem with
  | Some keyItem =>
      keyValue <- querySelector keyItem (sel_class "key-value");;
      match keyValue with
      | Some keyValue =>
          t <- get_textContent keyValue;;
          let text := trim t in
          copyToClipboard text button
      | None => ret None
      end
  | None => ret None
  end.

(** The two copy triggers of the page. *)
Inductive CopyTrigger : Type :=
| DataCopy (textToCopy : jsstring)
| KeyCopy (button : node).

Definition copyClick (t : CopyTrigger) : M (option Promise) :=
  match t with
  | DataCopy text => dataCopyClick text
  | KeyCopy button => keyCopyClick button
  end.

(** ** A sample document

    One document that carries the three forms, the strength indicator
    and a key item; every control sits in its own form group next to
    its error message. *)

Definition el (tag : string) (id : option string) (classes : list string)
    (p : option node) : Element :=
  mkElement tag id classes p [] [] [].

(** A form group at position [base] under [p]: the group, its control
    and its error message. *)
Definition field_group (p base : node) (tag id : string) : list Element :=
  [ el "div" None ["form-group"%string] (Some p);
    el tag (Some id) [] (Some base);
    el "div" None ["error-message"%string] (Some base) ].

Definition sample_elems : list Element :=
  [ el "form" (Some "contactForm"%string) [] None ]          (* 0 *)
  ++ field_group 0 1 "input" "name"                          (* 1-3 *)
  ++ field_group 0 4 "input" "email"                         (* 4-6 *)
  ++ field_group 0 7 "select" "subject"                      (* 7-9 *)
  ++ field_group 0 10 "textarea" "message"                   (* 10-12 *)
  ++ [ el "form" (Some "login-form"%string) [] None ]        (* 13 *)
  ++ field_group 13 14 "input" "login-email"                 (* 14-16 *)
  ++ field_group 13 17 "input" "login-password"              (* 17-19 *)
  ++ [ el "form" (Some "signup-form"%string) [] None ]       (* 20 *)
  ++ field_group 20 21 "input" "signup-name"                 (* 21-23 *)
  ++ field_group 20 24 "input" "signup-email"                (* 24-26 *)
  ++ field_group 20 27 "input" "signup-password"             (* 27-29 *)
  ++ field_group 20 30 "input" "signup-confirm"              (* 30-32 *)
  ++ [ el "div" (Some "password-strength"%string)
          ["password-strength"%string] (Some 27);            (* 33 *)
       el "div" (Some "password-strength-bar"%string)
          ["password-strength-bar"%string] (Some 33);        (* 34 *)
       el "div" None ["key-item"%string] None;               (* 35 *)
       set_textContent (js " sk_live_abc123 ")
         (el "code" None ["key-value"%string] (Some 35));    (* 36 *)
       set_textContent (js "Copy")
         (el "button" None ["btn"; "btn-secondary"]%string (Some 35)) ]. (* 37 *)

Definition sample_platform : Platform := mkPlatform true true (ExecReturns true).

Definition sample_page : Page := mkPage sample_elems [] 0 [] sample_platform.

(** The user types [v] into control [n]. *)
Definition type_in (n : node) (v : jsstring) (s : Page) : Page :=
  upd n (set_value v) s.

Definition contact_filled (name email subject message : string) : Page :=
  type_in 2 (js name) (type_in 5 (js email)
    (type_in 8 (js subject) (type_in 11 (js message) sample_page))).

Definition login_filled (email password : string) : Page :=
  type_in 15 (js email) (type_in 18 (js password) sample_page).

Definition signup_filled (name email password confirm : string) : Page :=
  type_in 22 (js name) (type_in 25 (js email)
    (type_in 28 (js password) (type_in 31 (js confirm) sample_page))).

(** A form group without an error message element, and a control
    outside of any form group. *)
Definition bare_elems : list Element :=
  [ el "div" None ["form-group"%string] None;
    el "input" (Some "q"%string) [] (Some 0);
    el "input" (Some "csrf"%string) [] None ].

Definition bare_page : Page := mkPage bare_elems [] 0 [] sample_platform.

(** The contact form with a hidden input directly inside the form,
    before the four field groups. *)
Definition hidden_elems : list Element :=
  [ el "form" (Some "contactForm"%string) [] None;           (* 0 *)
    el "input" (Some "csrf_token"%string) [] (Some 0) ]      (* 1 *)
  ++ field_group 0 2 "input" "name"                          (* 2-4 *)
  ++ field_group 0 5 "input" "email"                         (* 5-7 *)
  ++ field_group 0 8 "select" "subject"                      (* 8-10 *)
  ++ field_group 0 11 "textarea" "message".                  (* 11-13 *)

Definition hidden_page : Page := mkPage hidden_elems [] 0 [] sample_platform.

Definition hidden_filled (name email subject message : string) : Page :=
  type_in 3 (js name) (type_in 6 (js email)
    (type_in 9 (js subject) (type_in 12 (js message) hidden_page))).

(** * Specification-side definitions *)

(** ** Strings *)

(** A string is blank when it has nothing but white space. *)
Definition blank (s : jsstring) : bool := forallb is_space s.

(** A part of an email address: not empty, without white space or [@]. *)
Definition email_part (a : jsstring) : Prop :=
  a <> [] /\ Forall (fun c => not_space_at c = true) a.

(** ** Password strength, in the words of the specification *)

Definition b2n (b : bool) : nat := if b then 1 else 0.

Definition has_lower (p : jsstring) : bool := existsb is_lower p.
Definition has_upper (p : jsstring) : bool := existsb is_upper p.
Definition has_digit (p : jsstring) : bool := existsb is_digit p.
(** a character that is neither a letter [a-z], [A-Z] nor a digit *)
Definition has_other (p : jsstring) : bool :=
  existsb (fun c => negb (is_lower c) && negb (is_upper c) && negb (is_digit c)) p.

(** One point for each criterion. *)
Definition score_points (p : jsstring) : nat :=
  b2n (8 <=? length p) + b2n (has_lower p && has_upper p)
  + b2n (has_digit p) + b2n (has_other p).

(** [q] has every character class that [p] has. *)
Definition diversity_le (p q : jsstring) : Prop :=
  (has_lower p = true -> has_lower q = true) /\
  (has_upper p = true -> has_upper q = true) /\
  (has_digit p = true -> has_digit q = true) /\
  (has_other p = true -> has_other q = true).

(** ** The shape of the tree

    The classes the script looks elements up by.  The script never adds
    or removes one of them, so the tree keeps its shape while the script
    runs. *)
Definition structural : list string :=
  ["form-group"; "error-message"; "key-item"; "key-value"]%string.

Definition dynamic (c : string) : bool := negb (existsb (String.eqb c) structural).

(** Two states of an element that the tree readers cannot tell apart. *)
Definition el_sim (e e' : Element) : Prop :=
  tagName e = tagName e' /\ elemId e = elemId e' /\ parent e = parent e' /\
  forall c, dynamic c = false -> sel_class c e = sel_class c e'.

Definition keeps_shape (f : Element -> Element) : Prop := forall e, el_sim e (f e).

(** The list is in document order: a parent comes before its children. *)
Definition document_order (l : list Element) : Prop :=
  forall n e p, l !! n = Some e -> parent e = Some p -> p < n.

Definition shape_pred (P : Element -> bool) : Prop :=
  forall e e', el_sim e e' -> P e = P e'.

(** The default value of a control. *)
Definition dflt (k : node) (s : Page) : jsstring :=
  from_option defaultValue [] (elems s !! k).

(** ** The visual state of a field *)

(** The error message element of a field: the first [.error-message]
    inside the field's form group. *)
Definition error_element (s : Page) (n : node) : option node :=
  match closest_in form_group (elems s) n with
  | Some g => querySelector_in error_message (elems s) g
  | None => None
  end.

Inductive Mark : Type :=
| MError (message : jsstring)
| MSuccess
| MNeutral.

Definition is_MError (v : Mark) : bool :=
  match v with MError _ => true | _ => false end.

Definition is_MSuccess (v : Mark) : bool :=
  match v with MSuccess => true | _ => false end.

Definition on_error_element (ee : option node) (f : node -> Page -> Page)
    (s : Page) : Page :=
  match ee with Some e => f e s | None => s end.

(** The page after [showError], [showSuccess] or [clearValidation] on
    field [n] whose error message element is [ee]. *)
Definition mark (n : node) (ee : option node) (v : Mark) (s : Page) : Page :=
  match v with
  | MError m =>
      on_error_element ee
        (fun e s => upd e (el_add "show") (upd e (set_textContent m) s))
        (upd n (el_remove "success") (upd n (el_add "error") s))
  | MSuccess =>
      on_error_element ee (fun e => upd e (el_remove "show"))
        (upd n (el_add "success") (upd n (el_remove "error") s))
  | MNeutral =>
      on_error_element ee (fun e => upd e (el_remove "show"))
        (upd n (el_remove "success") (upd n (el_remove "error") s))
  end.

Fixpoint mark_all (l : list (node * option node * Mark)) (s : Page) : Page :=
  match l with
  | [] => s
  | (n, ee, v) :: l' => mark_all l' (mark n ee v s)
  end.

Definition mark_node (x : node * option node * Mark) : node := fst (fst x).
Definition mark_ee (x : node * option node * Mark) : option node := snd (fst x).

(** The three visual states, read off the class list. *)
Inductive VisualState : Type := Neutral | Error | Success.

Definition in_state (st : VisualState) (n : node) (s : Page) : bool :=
  match st with
  | Error => cls "error" n s
  | Success => cls "success" n s
  | Neutral => negb (cls "error" n s) && negb (cls "success" n s)
  end.

(** Field [n] is errored and its error element displays [m]. *)
Definition shows_error (s0 : Page) (n : node) (m : jsstring) (s : Page) : Prop :=
  cls "error" n s = true /\ cls "success" n s = false /\
  exists e, error_element s0 n = Some e /\ txt e s = m /\ cls "show" e s = true.

(** Field [n] is marked valid and its error element is hidden. *)
Definition shows_success (s0 : Page) (n : node) (s : Page) : Prop :=
  cls "success" n s = true /\ cls "error" n s = false /\
  forall e, error_element s0 n = Some e -> cls "show" e s = false.

(** Field [n] is neutral and its error element is hidden. *)
Definition shows_neutral (s0 : Page) (n : node) (s : Page) : Prop :=
  cls "error" n s = false /\ cls "success" n s = false /\
  forall e, error_element s0 n = Some e -> cls "show" e s = false.

(** The outcome of one validation block: what the field is marked with. *)
Definition verdict_mark (v : option jsstring) : Mark :=
  match v with Some m => MError m | None => MSuccess end.

Definition judge (n : node) (v : option jsstring) (isValid : bool) : M bool :=
  match v with
  | Some m => showError n m;;; ret false
  | None => showSuccess n;;; ret isValid
  end.

Definition accepted (v : option jsstring) : bool :=
  match v with Some _ => false | None => true end.

(** An observation of the page that no shape-keeping update changes. *)
Definition shape_stable (obs : Page -> Prop) : Prop :=
  forall k f s, keeps_shape f -> obs s -> obs (upd k f s).

(** ** Sequences of calls of the validation primitives *)

Inductive ValidationCall : Type :=
| CallShowError (input : node) (message : jsstring)
| CallShowSuccess (input : node)
| CallClearValidation (input : node).

Definition run_call (c : ValidationCall) : M unit :=
  match c with
  | CallShowError input message => showError input message
  | CallShowSuccess input => showSuccess input
  | CallClearValidation input => clearValidation input
  end.

Fixpoint run_calls (cs : list ValidationCall) (s : Page) : Page :=
  match cs with
  | [] => s
  | c :: cs' => run_calls cs' (after (run_call c) s)
  end.

(** Element [k] does not carry both validation classes. *)
Definition consistent (k : node) (s : Page) : Prop :=
  cls "error" k s && cls "success" k s = false.

(** The states, among the three, that field [n] is in. *)
Definition states_of (n : node) (s : Page) : list VisualState :=
  List.filter (fun st => in_state st n s) [Neutral; Error; Success].

(** ** Alerts *)

(** What is left of the appended nodes once the nodes with the given
    identities are removed one after the other. *)
Definition remove_all (ids : list nat) (app : list (nat * Created))
    : list (nat * Created) :=
  fold_left (fun app id => List.filter (fun c => negb (fst c =? id)) app) ids app.

(** The page after [showAlert(type, message)]. *)
Definition alert_shown (type : string) (message : jsstring) (s : Page) : Page :=
  mkPage (elems s)
    (remove_all (map fst (alerts s)) (appended s)
       ++ [(fresh s, AlertDiv (new_alert type message))])
    (S (fresh s))
    (timers s ++ [RemoveCreated (fresh s)])
    (platform s).

(** ** The forms *)

(** The error message of each validation block, when it refuses the
    value (main.js, lines 137-172, 202-218 and 244-282). *)
Definition v_required (msg : string) (v : jsstring) : option jsstring :=
  if is_empty (trim v) then Some (js msg) else None.

Definition v_email (v : jsstring) : option jsstring :=
  if is_empty (trim v) then Some (js "Email is required")
  else if negb (validateEmail v) then Some (js "Please enter a valid email")
  else None.

Definition v_subject (v : jsstring) : option jsstring :=
  if is_empty v then Some (js "Please select a subject") else None.

Definition v_message (v : jsstring) : option jsstring :=
  if is_empty (trim v) then Some (js "Message is required")
  else if length (trim v) <? 10 then
    Some (js "Message must be at least 10 characters")
  else None.

Definition v_password (v : jsstring) : option jsstring :=
  if is_empty (trim v) then Some (js "Password is required")
  else if negb (validatePassword v) then
    Some (js "Password must be at least 8 characters")
  else None.

Definition v_confirm (p c : jsstring) : option jsstring :=
  if is_empty (trim c) then Some (js "Please confirm your password")
  else if js_neq p c then Some (js "Passwords do not match")
  else None.

(** The marks a form leaves on its fields, one validation block after
    the other. *)
Definition form_marks (s : Page) (l : list (node * option jsstring))
    : list (node * option node * Mark) :=
  map (fun x => (fst x, error_element s (fst x), verdict_mark (snd x))) l.

(** The marks of [forEach(clearValidation)]. *)
Definition clear_marks (s : Page) (l : list node)
    : list (node * option node * Mark) :=
  map (fun n => (n, error_element s n, MNeutral)) l.

(** The page after [form.reset()] on the controls [l]. *)
Definition reset_all (l : list node) (s : Page) : Page :=
  fold_left (fun s n => upd n reset_value s) l s.

(** What a field looks like after its validation block. *)
Definition field_outcome (s0 : Page) (n : node) (v : option jsstring) (s : Page)
    : Prop :=
  match v with
  | Some m => shows_error s0 n m s
  | None => shows_success s0 n s
  end.

(** The fields of a form are where the script looks for them, each in
    a form group with an error message element of its own. *)
Definition fields_ok (s : Page) (F : list (string * node)) : Prop :=
  Forall (fun x => getElementById_in (fst x) (elems s) = Some (snd x) /\
                   is_Some (error_element s (snd x))) F /\
  List.NoDup (map (fun x => error_element s (snd x)) F).

(** The fields are form controls: [.value] is a string on each. *)
Definition fields_controls (s : Page) (F : list (string * node)) : Prop :=
  Forall (fun x => matches_at controls (elems s) (snd x) = true) F.

(** The contact form accepts its four values, in the words of the
    specification. *)
Definition contact_valid (name email subject message : jsstring) : bool :=
  negb (blank name) &&
  (negb (blank email) && validateEmail email) &&
  negb (is_empty subject) &&
  (negb (blank message) && (10 <=? length (trim message))).

(** The number of nodes the script created between two pages. *)
Definition created (s s' : Page) : nat := fresh s' - fresh s.

(** The page after the valid branch of the contact form's listener. *)
Definition contact_done (form : node) (type : string) (message : jsstring)
    (s1 : Page) : Page :=
  let inputs := querySelectorAll_in controls (elems s1) form in
  mark_all (clear_marks s1 inputs) (reset_all inputs (alert_shown type message s1)).

(** The signup form accepts its four values, in the words of the
    specification. *)
Definition signup_valid (name email password confirm : jsstring) : bool :=
  negb (blank name) &&
  (negb (blank email) && validateEmail email) &&
  (negb (blank password) && (8 <=? length password)) &&
  (negb (blank confirm) && bool_decide (password = confirm)).

Definition contact_ids (nm em sb ms : node) : list (string * node) :=
  [("name", nm); ("email", em); ("subject", sb); ("message", ms)]%string.

Definition login_ids (em pw : node) : list (string * node) :=
  [("login-email", em); ("login-password", pw)]%string.

Definition signup_ids (nm em pw cf : node) : list (string * node) :=
  [("signup-name", nm); ("signup-email", em);
   ("signup-password", pw); ("signup-confirm", cf)]%string.

(** ** Password strength on the page *)

(** The class list of an element. *)
Definition classes (n : node) (s : Page) : list string :=
  from_option classList [] (elems s !! n).

(** ** Clipboard *)

(** The page while the hidden textarea of [fallbackCopy] is in the body. *)
Definition with_textarea (text : jsstring) (s : Page) : Page :=
  mkPage (elems s) (appended s ++ [(fresh s, TextArea text)]) (S (fresh s))
         (timers s) (platform s).

Definition without_created (id : nat) (s : Page) : Page :=
  with_appended (List.filter (fun c => negb (fst c =? id)) (appended s)) s.

(** The toast of [fallbackCopy]: its kind and its message. *)
Definition fallback_toast (r : ExecResult) : string * jsstring :=
  match r with
  | ExecReturns _ => ("success"%string, js "Copied to clipboard!")
  | ExecThrows => ("error"%string, js "Failed to copy")
  end.

(** The page after [fallbackCopy(text)]. *)
Definition fallback_done (text : jsstring) (s : Page) : Page :=
  without_created (fresh s)
    (alert_shown (fst (fallback_toast (exec_copy (platform s))))
                 (snd (fallback_toast (exec_copy (platform s))))
                 (with_textarea text s)).

(** The text a copy trigger copies, when it finds one. *)
Definition copy_payload (t : CopyTrigger) (s : Page) : option jsstring :=
  match t with
  | DataCopy text => Some text
  | KeyCopy button =>
      match closest_in (sel_class "key-item") (elems s) button with
      | Some keyItem =>
          match querySelector_in (sel_class "key-value") (elems s) keyItem with
          | Some keyValue => Some (trim (txt keyValue s))
          | None => None
          end
      | None => None
      end
  end.

(** The textarea with identity [id] is in the body. *)
Definition has_textarea (id : nat) (s : Page) : bool :=
  existsb (fun c => (fst c =? id) &&
                    match snd c with TextArea _ => true | AlertDiv _ => false end)
          (appended s).

Definition sample_throwing : Page :=
  mkPage sample_elems [] 0 [] (mkPlatform true true ExecThrows).

(** * More of the script *)

(** ** Whole-document queries *)

(** [document.querySelectorAll(sel)], in document order *)
Definition document_querySelectorAll_in (P : Element -> bool) (l : list Element)
    : list node :=
  List.filter (matches_at P l) (seq 0 (length l)).

(** [document.querySelector(sel)] *)
Definition document_querySelector_in (P : Element -> bool) (l : list Element)
    : option node :=
  head (document_querySelectorAll_in P l).

Definition document_querySelector (P : Element -> bool) : M (option node) :=
  gets (fun s => document_querySelector_in P (elems s)).

Definition document_querySelectorAll (P : Element -> bool) : M (list node) :=
  gets (fun s => document_querySelectorAll_in P (elems s)).

(** ** Input clear on focus (main.js, lines 486-492) *)

(** The elements that receive the focus listener. *)
Definition initInputClearOnFocus : M (list node) :=
  document_querySelectorAll (sel_tags ["input"; "textarea"]%string).

(** The element [target] receives the focus (focus events do not
    bubble): its listener runs, when it has one. *)
Definition focusEvent (listeners : list node) (target : node) : M unit :=
  if existsb (Nat.eqb target) listeners then clearValidation target
  else ret tt.

(** ** Mobile menu (main.js, lines 15-42) *)

(** The glyphs of the menu button: U+2715 and U+2630. *)
Definition glyph_close : jsstring := [10005%N].
Definition glyph_menu : jsstring := [9776%N].

(** [classList.toggle(c)] *)
Definition el_toggle (c : string) (e : Element) : Element :=
  if sel_class c e then el_remove c e else el_add c e.

Definition classList_toggle (n : node) (c : string) : M unit :=
  modify (upd n (el_toggle c)).

Definition classList_contains (n : node) (c : string) : M bool :=
  gets (cls c n).

(** The elements the initializer found and put listeners on. *)
Record Menu : Type := mkMenu {
  mobileMenuBtn : node;
  navLinks : node;
  menuLinks : list node;
}.

Definition initMobileMenu : M (option Menu) :=
  mobileMenuBtn <- document_querySelector (sel_class "mobile-menu");;
  navLinks <- document_querySelector (sel_class "nav-links");;
  match mobileMenuBtn, navLinks with
  | Some mobileMenuBtn, Some navLinks =>
      menuLinks <- querySelectorAll navLinks (sel_tags ["a"%string]);;
      ret (Some (mkMenu mobileMenuBtn navLinks menuLinks))
  | _, _ => ret None
  end.

(** The listener of the button (lines 20-23). *)
Definition menuButtonClick (m : Menu) : M unit :=
  classList_toggle (navLinks m) "active";;;
  active <- classList_contains (navLinks m) "active";;
  put_textContent (mobileMenuBtn m) (if active then glyph_close else glyph_menu).

(** The listener of each link of the menu (lines 36-39). *)
Definition menuLinkClick (m : Menu) : M unit :=
  classList_remove (navLinks m) "active";;;
  put_textContent (mobileMenuBtn m) glyph_menu.

(** The listener of the document (lines 26-31). *)
Definition menuDocumentClick (m : Menu) (target : node) : M unit :=
  inNav <- closest target (sel_tags ["nav"%string]);;
  match inNav with
  | None =>
      classList_remove (navLinks m) "active";;;
      put_textContent (mobileMenuBtn m) glyph_menu
  | Some _ => ret tt
  end.

(** The propagation path of an event: the target, its parent, and so on
    up to the root. *)
Fixpoint path_walk (fuel : nat) (l : list Element) (n : node) : list node :=
  match fuel with
  | 0 => []
  | S fuel' =>
      match l !! n with
      | None => []
      | Some e =>
          n :: match parent e with
               | Some p => path_walk fuel' l p
               | None => []
               end
      end
  end.

Definition path_in (l : list Element) (n : node) : list node :=
  path_walk (length l) l n.

(** A click on [target] as the menu sees it: the click bubbles from the
    target to the root and runs, on each element of the path, the
    listeners the initializer registered there, the button's before a
    link's; the listener of the document runs last. *)
Definition menuClick (m : Menu) (target : node) : M unit :=
  path <- gets (fun s => path_in (elems s) target);;
  forEach path (fun k =>
    (if k =? mobileMenuBtn m then menuButtonClick m else ret tt);;;
    (if existsb (Nat.eqb k) (menuLinks m) then menuLinkClick m else ret tt));;;
  menuDocumentClick m target.

Fixpoint menu_run (m : Menu) (targets : list node) (s : Page) : Page :=
  match targets with
  | [] => s
  | t :: targets' => menu_run m targets' (after (menuClick m t) s)
  end.

(** A page with a navigation bar: the menu button and the links inside
    the [nav], and a heading outside of it. *)
Definition nav_elems : list Element :=
  [ el "nav" None [] None;                                        (* 0 *)
    set_textContent glyph_menu
      (el "button" None ["mobile-menu"%string] (Some 0));         (* 1 *)
    el "ul" None ["nav-links"%string] (Some 0);                   (* 2 *)
    el "li" None [] (Some 2);                                     (* 3 *)
    el "a" None [] (Some 3);                                      (* 4 *)
    el "li" None [] (Some 2);                                     (* 5 *)
    el "a" None [] (Some 5);                                      (* 6 *)
    el "h1" None [] None ].                                       (* 7 *)

Definition nav_page : Page := mkPage nav_elems [] 0 [] sample_platform.

Definition nav_menu : Menu := mkMenu 1 2 [4; 6].

(** What a click does to the menu, listener by listener. *)
Inductive MenuAction : Type := Toggle | Close.

(** The page after the button's listener ([Toggle]) or after a link's
    or the document's closing listener ([Close]). *)
Definition menu_act (m : Menu) (a : MenuAction) (s : Page) : Page :=
  match a with
  | Toggle =>
      let s1 := upd (navLinks m) (el_toggle "active") s in
      upd (mobileMenuBtn m)
          (set_textContent (if cls "active" (navLinks m) s1 then glyph_close
                            else glyph_menu)) s1
  | Close =>
      upd (mobileMenuBtn m) (set_textContent glyph_menu)
          (upd (navLinks m) (el_remove "active") s)
  end.

Definition node_actions (m : Menu) (k : node) : list MenuAction :=
  (if k =? mobileMenuBtn m then [Toggle] else []) ++
  (if existsb (Nat.eqb k) (menuLinks m) then [Close] else []).

Definition click_actions (m : Menu) (path : list node) (inNav : option node)
    : list MenuAction :=
  flat_map (node_actions m) path ++
  match inNav with None => [Close] | Some _ => [] end.

Definition run_actions (m : Menu) (acts : list MenuAction) (s : Page) : Page :=
  fold_left (fun s a => menu_act m a s) acts s.

(** The menu is open. *)
Definition menu_open (m : Menu) (s : Page) : bool := cls "active" (navLinks m) s.

Definition open_after (acts : list MenuAction) (b : bool) : bool :=
  fold_left (fun b a => match a with Toggle => negb b | Close => false end) acts b.

(** The glyph of the button says whether the menu is open. *)
Definition menu_synced (m : Menu) (s : Page) : Prop :=
  txt (mobileMenuBtn m) s = if menu_open m s then glyph_close else glyph_menu.

(** The menu elements are elements of the page. *)
Definition menu_in (m : Menu) (s : Page) : Prop :=
  mobileMenuBtn m < length (elems s) /\ navLinks m < length (elems s).

(** Element [n] has no element children: it holds text only. *)
Definition childless (n : node) (s : Page) : Prop :=
  Forall (fun e => parent e <> Some n) (elems s).

(** ** Calls of the validation primitives *)

Definition call_input (c : ValidationCall) : node :=
  match c with
  | CallShowError i _ | CallShowSuccess i | CallClearValidation i => i
  end.

(** The mark a call leaves, and the state it puts its field in. *)
Definition call_mark (c : ValidationCall) : Mark :=
  match c with
  | CallShowError _ m => MError m
  | CallShowSuccess _ => MSuccess
  | CallClearValidation _ => MNeutral
  end.

Definition mark_state (v : Mark) : VisualState :=
  match v with
  | MError _ => Error
  | MSuccess => Success
  | MNeutral => Neutral
  end.

Definition focusable : Element -> bool := sel_tags ["input"; "textarea"]%string.

(** ** Created nodes *)

(** Every node in the body and every node a waiting timer will remove
    was created before: its identity is below the next fresh one. *)
Definition timer_below (bound : nat) (a : TimerAction) : Prop :=
  match a with
  | RemoveCreated id => id < bound
  | RestoreText _ _ => True
  end.

Definition ids_below (s : Page) : Prop :=
  Forall (fun c => fst c < fresh s) (appended s) /\
  Forall (timer_below (fresh s)) (timers s).

(** [navigator.clipboard && window.isSecureContext] *)
Definition usable (s : Page) : bool :=
  has_clipboard (platform s) && isSecureContext (platform s).

(** The fulfilment callback of a key item's copy (lines 372-376). *)
Definition label_swap (button : node) : M unit :=
  originalText <- get_textContent button;;
  put_textContent button (js "Copied!");;;
  setTimeout (RestoreText button originalText) 2000.

Definition sample_insecure : Page :=
  mkPage sample_elems [] 0 [] (mkPlatform true false (ExecReturns false)).

(** ** The forms, further *)

(** The login form accepts its two values. *)
Definition login_valid (email password : jsstring) : bool :=
  (negb (blank email) && validateEmail email) && negb (blank password).

(** The check the contact form makes of the field with identifier
    [id]: none when the document has no such element. *)
Definition checked (s : Page) (id : string) (v : jsstring -> option jsstring)
    : list (node * option jsstring) :=
  match getElementById_in id (elems s) with
  | Some n => [(n, v (val n s))]
  | None => []
  end.

Definition contact_checked (s : Page) : list (node * option jsstring) :=
  checked s "name" (v_required "Name is required") ++
  checked s "email" v_email ++
  checked s "subject" v_subject ++
  checked s "message" v_message.

(** A computation that only marks fields, and throws nothing but a
    [TypeError]; one that always ends in a [TypeError]. *)
Definition quiet {A} (c : M A) : Prop :=
  forall l s, exists r l', c (mark_all l s) = (r, mark_all l' s) /\
                           r <> Throw DOMException.

Definition fails {A} (c : M A) : Prop :=
  forall l s, exists l', c (mark_all l s) = (@Throw A TypeError, mark_all l' s).

(** The fields of the three forms of a page, and their error elements. *)
Definition signup_lookups (s : Page) : list (option node) :=
  [getElementById_in "signup-name" (elems s);
   getElementById_in "signup-email" (elems s);
   getElementById_in "signup-password" (elems s);
   getElementById_in "signup-confirm" (elems s)].

Definition login_lookups (s : Page) : list (option node) :=
  [getElementById_in "login-email" (elems s);
   getElementById_in "login-password" (elems s)].

(** ** The password field of the signup form *)

(** The [input] listener of the signup password (lines 290-295): the
    indicator follows the value of the field. *)
Definition passwordInputListener (passwordInput : node) : M unit :=
  v <- get_value passwordInput;;
  updatePasswordStrength v.

(** The user types [v] in the password field: the value changes, then
    the [input] event is dispatched. *)
Definition typed (passwordInput : node) (v : jsstring) (s : Page) : Page :=
  after (passwordInputListener passwordInput) (type_in passwordInput v s).

(** The page keeps the three elements where they are. *)
Definition indicator_at (pw bar cont : node) (s : Page) : Prop :=
  getElementById_in "password-strength-bar" (elems s) = Some bar /\
  getElementById_in "password-strength" (elems s) = Some cont /\
  pw < length (elems s).

(** * Properties *)

(** ** Regular expressions: the matcher decides the declarative reading *)

Section Regex.

Lemma matches_eps_inv s : matches Eps s -> s = [].
Proof. intros H. inversion H. reflexivity. Qed.

Lemma matches_class_inv p s : matches (Class p) s -> exists c, s = [c] /\ p c = true.
Proof. intros H. inversion H; subst. eauto. Qed.

Lemma matches_seq_inv r1 r2 s :
  matches (Seq r1 r2) s ->
  exists s1 s2, s = s1 ++ s2 /\ matches r1 s1 /\ matches r2 s2.
Proof. intros H. inversion H; subst. eauto. Qed.

Lemma matches_alt_inv r1 r2 s :
  matches (Alt r1 r2) s -> matches r1 s \/ matches r2 s.
Proof. intros H. inversion H; subst; auto. Qed.

Lemma nullable_matches r : nullable r = true <-> matches r [].
Proof.
  induction r as [| |p|r1 IH1 r2 IH2|r1 IH1 r2 IH2|r IH]; simpl.
  - split; [discriminate | intros H; inversion H].
  - split; [constructor | reflexivity].
  - split; [discriminate | intros H; inversion H].
  - rewrite andb_true_iff, IH1, IH2. split.
    + intros [H1 H2]. apply (MSeq r1 r2 [] [] H1 H2).
    + intros H. apply matches_seq_inv in H as (s1 & s2 & E & H1 & H2).
      symmetry in E. apply app_eq_nil in E as [-> ->]. auto.
  - rewrite orb_true_iff, IH1, IH2. split.
    + intros [H|H]; [apply MAltL | apply MAltR]; exact H.
    + apply matches_alt_inv.
  - split; [constructor | reflexivity].
Qed.

(** A non-empty match of a star starts with a non-empty match of its body. *)
Lemma matches_star_cons r c s :
  matches (Star r) (c :: s) ->
  exists s1 s2, s = s1 ++ s2 /\ matches r (c :: s1) /\ matches (Star r) s2.
Proof.
  intros H. remember (Star r) as r' eqn:Er. remember (c :: s) as t eqn:Et.
  revert c s Et.
  induction H as [ | | | | | |r0 s1 s2 H1 _ H2 IH2]; try discriminate.
  intros c s Et. injection Er as ->.
  destruct s1 as [|c1 s1].
  - simpl in Et. apply IH2; auto.
  - simpl in Et. injection Et as -> <-. eauto.
Qed.

Lemma deriv_matches r : forall c s, matches (deriv c r) s <-> matches r (c :: s).
Proof.
  induction r as [| |p|r1 IH1 r2 IH2|r1 IH1 r2 IH2|r IH]; intros c s; simpl.
  - split; intros H; inversion H.
  - split; intros H; inversion H.
  - destruct (p c) eqn:Ep; split; intros H.
    + apply matches_eps_inv in H as ->. constructor; exact Ep.
    + apply matches_class_inv in H as (c' & E & _). injection E as _ ->. constructor.
    + inversion H.
    + apply matches_class_inv in H as (c' & E & Hp). injection E as <- _. congruence.
  - assert (Hseq : matches (Seq (deriv c r1) r2) s ->
                   matches (Seq r1 r2) (c :: s)).
    { intros H. apply matches_seq_inv in H as (s1 & s2 & -> & H1 & H2).
      apply IH1 in H1. apply (MSeq r1 r2 (c :: s1) s2 H1 H2). }
    destruct (nullable r1) eqn:En; split; intros H.
    + apply matches_alt_inv in H as [H|H]; [auto|].
      apply IH2 in H. apply nullable_matches in En.
      apply (MSeq r1 r2 [] (c :: s) En H).
    + apply matches_seq_inv in H as (s1 & s2 & E & H1 & H2).
      destruct s1 as [|c1 s1]; simpl in E.
      * subst s2. apply MAltR, IH2, H2.
      * injection E as -> ->. apply MAltL. constructor; [apply IH1, H1 | exact H2].
    + auto.
    + apply matches_seq_inv in H as (s1 & s2 & E & H1 & H2).
      destruct s1 as [|c1 s1]; simpl in E.
      * apply nullable_matches in H1. congruence.
      * injection E as -> ->. constructor; [apply IH1, H1 | exact H2].
  - split; intros H.
    + apply matches_alt_inv in H as [H|H];
        [apply MAltL, IH1, H | apply MAltR, IH2, H].
    + apply matches_alt_inv in H as [H|H];
        [apply MAltL, IH1, H | apply MAltR, IH2, H].
  - split; intros H.
    + apply matches_seq_inv in H as (s1 & s2 & -> & H1 & H2).
      apply IH in H1. apply (MStarApp r (c :: s1) s2 H1 H2).
    + apply matches_star_cons in H as (s1 & s2 & -> & H1 & H2).
      constructor; [apply IH, H1 | exact H2].
Qed.

Lemma matchb_matches s : forall r, matchb r s = true <-> matches r s.
Proof.
  induction s as [|c s IH]; intros r; simpl.
  - apply nullable_matches.
  - rewrite IH. apply deriv_matches.
Qed.

(** [[p]*] and [[p]+] *)
Lemma matches_star_class p s :
  matches (Star (Class p)) s <-> Forall (fun c => p c = true) s.
Proof.
  split.
  - induction s as [|c s IH]; intros H; [constructor|].
    apply matches_star_cons in H as (s1 & s2 & -> & H1 & H2).
    apply matches_class_inv in H1 as (c' & E & Hp).
    injection E as <- ->. constructor; [exact Hp | apply IH, H2].
  - induction 1 as [|c s Hp _ IH]; [constructor|].
    apply (MStarApp _ [c] s); [constructor; exact Hp | exact IH].
Qed.

Lemma matches_plus_class p s :
  matches (Plus (Class p)) s <-> s <> [] /\ Forall (fun c => p c = true) s.
Proof.
  unfold Plus. split.
  - intros H. apply matches_seq_inv in H as (s1 & s2 & -> & H1 & H2).
    apply matches_class_inv in H1 as (c & -> & Hp).
    apply matches_star_class in H2. split; [discriminate | constructor; auto].
  - intros [Hne H]. destruct s as [|c s]; [congruence|].
    inversion H; subst.
    apply (MSeq _ _ [c] s); [constructor; auto | apply matches_star_class; auto].
Qed.

(** An anchored pattern runs its body on the whole string. *)
Lemma test_anchored r s : test (mkRegExp true r true) s = true <-> matches r s.
Proof.
  unfold test; simpl. rewrite matchb_matches. split.
  - intros H. apply matches_seq_inv in H as (s1 & s2 & -> & H1 & H2).
    apply matches_eps_inv in H1 as ->.
    apply matches_seq_inv in H2 as (s3 & s4 & -> & H3 & H4).
    apply matches_eps_inv in H4 as ->. rewrite app_nil_r. exact H3.
  - intros H. apply (MSeq _ _ [] s); [constructor|].
    rewrite <- (app_nil_r s). constructor; [exact H | constructor].
Qed.

(** A one-class pattern without anchors looks for one such character. *)
Lemma test_class p s : test (mkRegExp false (Class p) false) s = existsb p s.
Proof.
  apply eq_true_iff_eq. unfold test; simpl.
  rewrite matchb_matches, existsb_exists. split.
  - intros H. apply matches_seq_inv in H as (s1 & s2 & -> & _ & H2).
    apply matches_seq_inv in H2 as (s3 & s4 & -> & H3 & _).
    apply matches_class_inv in H3 as (c & -> & Hp).
    exists c. split; [|exact Hp]. apply in_or_app. right. left. reflexivity.
  - intros (c & Hin & Hp). apply in_split in Hin as (s1 & s2 & ->).
    constructor.
    + apply matches_star_class, Forall_forall. reflexivity.
    + apply (MSeq _ _ [c] s2); [constructor; exact Hp|].
      apply matches_star_class, Forall_forall. reflexivity.
Qed.

End Regex.

(** ** The email validator *)

Section Email.

(** The strings the pattern accepts: [local@domain.tld] where no part is
    empty or holds white space or an [@]. *)
Lemma validateEmail_true email :
  validateEmail email = true <->
  exists a b c, email = a ++ AT :: b ++ DOT :: c /\
                email_part a /\ email_part b /\ email_part c.
Proof.
  unfold validateEmail, email_re. rewrite test_anchored. split.
  - intros H.
    apply matches_seq_inv in H as (a & r1 & -> & Ha & H).
    apply matches_seq_inv in H as (x & r2 & -> & Hx & H).
    apply matches_seq_inv in H as (b & r3 & -> & Hb & H).
    apply matches_seq_inv in H as (y & c & -> & Hy & Hc).
    apply matches_class_inv in Hx as (x' & -> & Ex).
    apply matches_class_inv in Hy as (y' & -> & Ey).
    apply N.eqb_eq in Ex as <-. apply N.eqb_eq in Ey as <-.
    apply matches_plus_class in Ha, Hb, Hc.
    exists a, b, c. simpl. auto.
  - intros (a & b & c & -> & Ha & Hb & Hc).
    apply matches_plus_class in Ha, Hb, Hc.
    constructor; [exact Ha|].
    apply (MSeq _ _ [AT]); [constructor; apply N.eqb_refl|].
    constructor; [exact Hb|].
    apply (MSeq _ _ [DOT]); [constructor; apply N.eqb_refl | exact Hc].
Qed.

Lemma not_space_at_AT : not_space_at AT = false.
Proof. reflexivity. Qed.

Lemma email_part_no_at a : email_part a -> ~ In AT a.
Proof.
  intros [_ H] Hin. rewrite Forall_forall in H.
  apply H in Hin. rewrite not_space_at_AT in Hin. discriminate.
Qed.

Lemma email_part_no_space a c : email_part a -> In c a -> is_space c = false.
Proof.
  intros [_ H] Hin. rewrite Forall_forall in H.
  apply H in Hin. unfold not_space_at in Hin.
  apply negb_true_iff, orb_false_iff in Hin. tauto.
Qed.

(** A list splits in one way only around an element that occurs once. *)
Lemma split_unique (x : N) a : forall r a' r',
  a ++ x :: r = a' ++ x :: r' -> ~ In x a -> ~ In x r -> a = a' /\ r = r'.
Proof.
  induction a as [|c a IH]; intros r a' r' E Ha Hr.
  - destruct a' as [|c' a']; simpl in E.
    + injection E as ->. auto.
    + injection E as <- ->. exfalso. apply Hr, in_or_app. right. left. reflexivity.
  - destruct a' as [|c' a']; simpl in E.
    + injection E as -> _. exfalso. apply Ha. left. reflexivity.
    + injection E as <- E. apply IH in E as [-> ->]; auto.
      intros Hin. apply Ha. right. exact Hin.
Qed.

Lemma validateEmail_one_at email a b :
  validateEmail email = true -> email = a ++ AT :: b ->
  ~ In AT a /\ In DOT b.
Proof.
  intros H E. apply validateEmail_true in H as (a0 & b0 & c0 & E0 & Ha & Hb & Hc).
  assert (E1 : a0 ++ AT :: (b0 ++ DOT :: c0) = a ++ AT :: b) by congruence.
  clear E E0. apply split_unique in E1 as [<- <-].
  - split; [apply email_part_no_at, Ha|].
    apply in_or_app. right. left. reflexivity.
  - apply email_part_no_at, Ha.
  - intros Hin. apply in_app_or in Hin as [Hin|[Hin|Hin]].
    + revert Hin. apply email_part_no_at, Hb.
    + discriminate.
    + revert Hin. apply email_part_no_at, Hc.
Qed.

Lemma validateEmail_no_space email c :
  validateEmail email = true -> In c email -> is_space c = false.
Proof.
  intros H Hin. apply validateEmail_true in H as (a0 & b0 & c0 & -> & Ha & Hb & Hc).
  apply in_app_or in Hin as [Hin|[<-|Hin]];
    [apply (email_part_no_space a0); assumption | reflexivity |].
  apply in_app_or in Hin as [Hin|[<-|Hin]];
    [apply (email_part_no_space b0); assumption | reflexivity |
     apply (email_part_no_space c0); assumption].
Qed.

End Email.

(** C2: an email string without an [@], or with an [@] that no [.]
    follows, is rejected by [validateEmail]. *)
Theorem validateEmail_rejects_without_at_or_dot (email : jsstring) :
  (~ In AT email) \/ (exists a b, email = a ++ AT :: b /\ ~ In DOT b) ->
  validateEmail email = false.
Proof.
  intros H. destruct (validateEmail email) eqn:E; [exfalso | reflexivity].
  destruct H as [H | (a & b & Hs & Hdot)].
  - apply validateEmail_true in E as (a & b & c & -> & _).
    apply H, in_or_app. right. left. reflexivity.
  - apply Hdot. eapply validateEmail_one_at; eauto.
Qed.

Lemma validateEmail_rejects_without_at_or_dot_witness :
  validateEmail (js "jane.doe@example") = false /\
  validateEmail (js "jane.example.com") = false.
Proof.
  split.
  - apply validateEmail_rejects_without_at_or_dot. right.
    exists (js "jane.doe"), (js "example"). split; [reflexivity|].
    vm_compute. intuition discriminate.
  - apply validateEmail_rejects_without_at_or_dot. left.
    vm_compute. intuition discriminate.
Defined.

(** ** Trimming *)

Section Trim.

Lemma trimStart_nil s : trimStart s = [] <-> blank s = true.
Proof.
  unfold blank. induction s as [|c s IH]; simpl; [tauto|].
  destruct (is_space c); simpl; [exact IH|]. split; discriminate.
Qed.

Lemma trimStart_head s c r : trimStart s = c :: r -> is_space c = false.
Proof.
  induction s as [|d s IH]; simpl; [discriminate|].
  destruct (is_space d) eqn:Ed; [exact IH|]. intros E. injection E as <- _. exact Ed.
Qed.

Lemma trimEnd_nil s : trimEnd s = [] <-> blank s = true.
Proof.
  unfold trimEnd. split.
  - intros H. apply (f_equal (@rev N)) in H. rewrite rev_involutive in H.
    simpl in H. apply trimStart_nil in H. unfold blank in *.
    rewrite forallb_forall in *. intros c Hc. apply H, in_rev.
    rewrite rev_involutive. exact Hc.
  - intros H. assert (H' : blank (rev s) = true).
    { unfold blank in *. rewrite forallb_forall in *. intros c Hc.
      apply H, in_rev, Hc. }
    apply trimStart_nil in H'. rewrite H'. reflexivity.
Qed.

(** [value.trim() === ''] says that the value is blank. *)
Lemma trim_empty s : is_empty (trim s) = blank s.
Proof.
  unfold trim. destruct (trimStart s) as [|c r] eqn:E.
  - apply trimStart_nil in E. rewrite E. reflexivity.
  - assert (Hb : blank s = false).
    { destruct (blank s) eqn:Eb; [|reflexivity].
      apply trimStart_nil in Eb. congruence. }
    rewrite Hb. apply trimStart_head in E.
    destruct (trimEnd (c :: r)) eqn:E2; [|reflexivity].
    apply trimEnd_nil in E2. simpl in E2. rewrite E in E2. discriminate.
Qed.

Lemma trimStart_id s : (forall c, In c s -> is_space c = false) -> trimStart s = s.
Proof.
  destruct s as [|c s]; simpl; [reflexivity|]. intros H.
  rewrite (H c); auto.
Qed.

(** Trimming changes a string only when it holds white space. *)
Lemma trim_id s : (forall c, In c s -> is_space c = false) -> trim s = s.
Proof.
  intros H. unfold trim, trimEnd. rewrite (trimStart_id s H).
  rewrite trimStart_id; [apply rev_involutive|].
  intros c Hc. apply H, in_rev, Hc.
Qed.

Lemma trim_changes_space s : trim s <> s -> exists c, In c s /\ is_space c = true.
Proof.
  intros Hne.
  destruct (existsb is_space s) eqn:E.
  - apply existsb_exists in E. exact E.
  - exfalso. apply Hne, trim_id. intros c Hc.
    destruct (is_space c) eqn:Ec; [|reflexivity].
    assert (existsb is_space s = true) by (apply existsb_exists; eauto).
    congruence.
Qed.

End Trim.

(** ** The strength score *)

Section Strength.

Lemma is_other_spec c :
  is_other c = negb (is_lower c) && negb (is_upper c) && negb (is_digit c).
Proof. unfold is_other. destruct (is_lower c), (is_upper c), (is_digit c); reflexivity. Qed.

Lemma passwordStrength_points p : passwordStrength p = score_points p.
Proof.
  unfold passwordStrength, score_points, match_truthy,
    re_lower, re_upper, re_digit, re_other.
  rewrite !test_class.
  assert (Ho : existsb is_other p = has_other p).
  { unfold has_other. induction p as [|c p IH]; simpl; [reflexivity|].
    rewrite IH, is_other_spec. reflexivity. }
  rewrite Ho. fold (has_lower p) (has_upper p) (has_digit p).
  unfold incr_if, b2n.
  destruct (8 <=? length p), (has_lower p && has_upper p), (has_digit p),
    (has_other p); reflexivity.
Qed.

Lemma passwordStrength_le_4 p : passwordStrength p <= 4.
Proof.
  rewrite passwordStrength_points. unfold score_points, b2n.
  destruct (8 <=? length p), (has_lower p && has_upper p), (has_digit p),
    (has_other p); simpl; lia.
Qed.

Lemma b2n_mono (a b : bool) : (a = true -> b = true) -> b2n a <= b2n b.
Proof.
  destruct a, b; simpl; intros H;
    first [lia | specialize (H eq_refl); discriminate].
Qed.

Lemma score_points_mono p q :
  8 <= length p -> 8 <= length q -> diversity_le p q ->
  score_points p <= score_points q.
Proof.
  intros Hp Hq (Hl & Hu & Hd & Ho). unfold score_points.
  apply Nat.leb_le in Hp, Hq. rewrite Hp, Hq.
  pose proof (b2n_mono (has_lower p && has_upper p) (has_lower q && has_upper q)) as H1.
  pose proof (b2n_mono _ _ Hd) as H2. pose proof (b2n_mono _ _ Ho) as H3.
  assert (b2n (has_lower p && has_upper p) <= b2n (has_lower q && has_upper q)).
  { apply H1. rewrite !andb_true_iff. intros [? ?]. auto. }
  lia.
Qed.

End Strength.

(** ** The element store *)

Section Store.

Implicit Types (s : Page) (n k : node) (f : Element -> Element) (c : string).

Lemma lookup_upd k n f s :
  elems (upd n f s) !! k = (if decide (n = k) then f else id) <$> elems s !! k.
Proof.
  unfold upd; simpl. destruct (decide (n = k)) as [->|Hne].
  - apply list_lookup_alter_eq.
  - rewrite list_lookup_alter_ne by exact Hne. destruct (elems s !! k); reflexivity.
Qed.

Lemma length_upd n f s : length (elems (upd n f s)) = length (elems s).
Proof. apply length_alter. Qed.

(** *** Tokens *)

Lemma elem_of_token_add c c' l : c ∈ token_add c' l <-> c = c' \/ c ∈ l.
Proof.
  unfold token_add. case_bool_decide as H.
  - split; [auto | intros [->|?]; auto].
  - rewrite elem_of_app, list_elem_of_singleton. tauto.
Qed.

Lemma elem_of_token_remove c c' l : c ∈ token_remove c' l <-> c <> c' /\ c ∈ l.
Proof.
  unfold token_remove. rewrite !list_elem_of_In, filter_In, negb_true_iff.
  split.
  - intros [? H]. apply String.eqb_neq in H. split; [congruence | auto].
  - intros [H ?]. split; [auto|]. apply String.eqb_neq. congruence.
Qed.

Lemma sel_class_add c c' e :
  sel_class c (el_add c' e) = bool_decide (c = c') || sel_class c e.
Proof.
  unfold sel_class, el_add; simpl. apply eq_true_iff_eq.
  rewrite orb_true_iff, !bool_decide_eq_true. apply elem_of_token_add.
Qed.

Lemma sel_class_remove c c' e :
  sel_class c (el_remove c' e) = negb (bool_decide (c = c')) && sel_class c e.
Proof.
  unfold sel_class, el_remove; simpl. apply eq_true_iff_eq.
  rewrite andb_true_iff, negb_true_iff, bool_decide_eq_false, !bool_decide_eq_true.
  apply elem_of_token_remove.
Qed.

Lemma sel_class_add_ne c c' e : c <> c' -> sel_class c (el_add c' e) = sel_class c e.
Proof. intros H. rewrite sel_class_add, bool_decide_eq_false_2 by exact H. reflexivity. Qed.

Lemma sel_class_remove_ne c c' e :
  c <> c' -> sel_class c (el_remove c' e) = sel_class c e.
Proof. intros H. rewrite sel_class_remove, bool_decide_eq_false_2 by exact H. reflexivity. Qed.

(** *** Observations after an update *)

Lemma cls_upd_ne c k n f s : k <> n -> cls c k (upd n f s) = cls c k s.
Proof.
  intros H. unfold cls, matches_at. rewrite lookup_upd.
  rewrite decide_False by congruence. destruct (elems s !! k); reflexivity.
Qed.

Lemma cls_upd_keep c k n f s :
  (forall e, sel_class c (f e) = sel_class c e) -> cls c k (upd n f s) = cls c k s.
Proof.
  intros H. unfold cls, matches_at. rewrite lookup_upd.
  destruct (elems s !! k); cbn; [|reflexivity].
  destruct (decide (n = k)); [apply H | reflexivity].
Qed.

Lemma cls_upd_add c n s : n < length (elems s) -> cls c n (upd n (el_add c) s) = true.
Proof.
  intros H. unfold cls, matches_at. rewrite lookup_upd, decide_True by reflexivity.
  apply lookup_lt_is_Some in H as [e ->]. cbn.
  rewrite sel_class_add, bool_decide_eq_true_2 by reflexivity. reflexivity.
Qed.

Lemma cls_upd_remove c n s : cls c n (upd n (el_remove c) s) = false.
Proof.
  unfold cls, matches_at. rewrite lookup_upd, decide_True by reflexivity.
  destruct (elems s !! n); cbn; [|reflexivity].
  rewrite sel_class_remove, bool_decide_eq_true_2 by reflexivity. reflexivity.
Qed.

Lemma cls_upd_add_ne c c' k n s : c <> c' -> cls c k (upd n (el_add c') s) = cls c k s.
Proof. intros H. apply cls_upd_keep. intros e. apply sel_class_add_ne, H. Qed.

Lemma cls_upd_remove_ne c c' k n s :
  c <> c' -> cls c k (upd n (el_remove c') s) = cls c k s.
Proof. intros H. apply cls_upd_keep. intros e. apply sel_class_remove_ne, H. Qed.

Lemma cls_upd_text c k n t s : cls c k (upd n (set_textContent t) s) = cls c k s.
Proof. apply cls_upd_keep. reflexivity. Qed.

Lemma cls_upd_reset c k n s : cls c k (upd n reset_value s) = cls c k s.
Proof. apply cls_upd_keep. reflexivity. Qed.

Lemma txt_upd_ne k n f s : k <> n -> txt k (upd n f s) = txt k s.
Proof.
  intros H. unfold txt. rewrite lookup_upd, decide_False by congruence.
  destruct (elems s !! k); reflexivity.
Qed.

Lemma txt_upd_keep k n f s :
  (forall e, textContent (f e) = textContent e) -> txt k (upd n f s) = txt k s.
Proof.
  intros H. unfold txt. rewrite lookup_upd.
  destruct (elems s !! k); cbn; [|reflexivity].
  destruct (decide (n = k)); [apply H | reflexivity].
Qed.

Lemma txt_upd_text n t s :
  n < length (elems s) -> txt n (upd n (set_textContent t) s) = t.
Proof.
  intros H. unfold txt. rewrite lookup_upd, decide_True by reflexivity.
  apply lookup_lt_is_Some in H as [e ->]. reflexivity.
Qed.

Lemma val_upd_ne k n f s : k <> n -> val k (upd n f s) = val k s.
Proof.
  intros H. unfold val. rewrite lookup_upd, decide_False by congruence.
  destruct (elems s !! k); reflexivity.
Qed.

Lemma val_upd_keep k n f s :
  (forall e, value (f e) = value e) -> val k (upd n f s) = val k s.
Proof.
  intros H. unfold val. rewrite lookup_upd.
  destruct (elems s !! k); cbn; [|reflexivity].
  destruct (decide (n = k)); [apply H | reflexivity].
Qed.

Lemma dflt_upd_keep k n f s :
  (forall e, defaultValue (f e) = defaultValue e) -> dflt k (upd n f s) = dflt k s.
Proof.
  intros H. unfold dflt. rewrite lookup_upd.
  destruct (elems s !! k); cbn; [|reflexivity].
  destruct (decide (n = k)); [apply H | reflexivity].
Qed.

Lemma val_upd_reset n s : val n (upd n reset_value s) = dflt n s.
Proof.
  unfold val, dflt. rewrite lookup_upd, decide_True by reflexivity.
  destruct (elems s !! n); reflexivity.
Qed.

(** *** The shape of the tree is kept *)

Lemma el_sim_refl e : el_sim e e.
Proof. repeat split. Qed.

Lemma keeps_shape_add c : dynamic c = true -> keeps_shape (el_add c).
Proof.
  intros Hc e. repeat split. intros d Hd. symmetry. apply sel_class_add_ne.
  intros ->. congruence.
Qed.

Lemma keeps_shape_remove c : dynamic c = true -> keeps_shape (el_remove c).
Proof.
  intros Hc e. repeat split. intros d Hd. symmetry. apply sel_class_remove_ne.
  intros ->. congruence.
Qed.

Lemma keeps_shape_text t : keeps_shape (set_textContent t).
Proof. intros e. repeat split. Qed.

Lemma keeps_shape_reset : keeps_shape reset_value.
Proof. intros e. repeat split. Qed.

Lemma shape_pred_class c : dynamic c = false -> shape_pred (sel_class c).
Proof. intros Hc e e' (_ & _ & _ & H). apply H, Hc. Qed.

Lemma shape_pred_tags ts : shape_pred (sel_tags ts).
Proof. intros e e' (H & _). unfold sel_tags. rewrite H. reflexivity. Qed.

Lemma shape_pred_id id : shape_pred (fun e => bool_decide (elemId e = Some id)).
Proof. intros e e' (_ & H & _). rewrite H. reflexivity. Qed.

Lemma walk_up_upd (P : node -> Element -> bool) n f s :
  keeps_shape f -> (forall k e e', el_sim e e' -> P k e = P k e') ->
  forall fuel k, walk_up fuel P (elems (upd n f s)) k = walk_up fuel P (elems s) k.
Proof.
  intros Hf HP. induction fuel as [|fuel IH]; intros k; cbn [walk_up]; [reflexivity|].
  rewrite lookup_upd. destruct (elems s !! k) as [e|]; cbn [fmap option_fmap option_map]; [|reflexivity].
  assert (Hs : el_sim e ((if decide (n = k) then f else id) e)).
  { destruct (decide (n = k)); [apply Hf | apply el_sim_refl]. }
  rewrite <- (HP k _ _ Hs). destruct Hs as (_ & _ & <- & _).
  destruct (P k e); [reflexivity|]. destruct (parent e); [apply IH | reflexivity].
Qed.

Lemma closest_upd P n f s k :
  keeps_shape f -> shape_pred P ->
  closest_in P (elems (upd n f s)) k = closest_in P (elems s) k.
Proof.
  intros Hf HP. unfold closest_in. rewrite length_upd.
  apply walk_up_upd; [exact Hf|]. intros _ e e'. apply HP.
Qed.

Lemma descendant_upd n f s root k :
  keeps_shape f ->
  descendant_in (elems (upd n f s)) root k = descendant_in (elems s) root k.
Proof.
  intros Hf. unfold descendant_in. rewrite lookup_upd, length_upd.
  destruct (elems s !! k) as [e|]; cbn; [|reflexivity].
  assert (Hs : el_sim e ((if decide (n = k) then f else id) e)).
  { destruct (decide (n = k)); [apply Hf | apply el_sim_refl]. }
  destruct Hs as (_ & _ & <- & _). destruct (parent e); [|reflexivity].
  rewrite walk_up_upd; [reflexivity | exact Hf | reflexivity].
Qed.

Lemma matches_at_upd P n f s k :
  keeps_shape f -> shape_pred P ->
  matches_at P (elems (upd n f s)) k = matches_at P (elems s) k.
Proof.
  intros Hf HP. unfold matches_at. rewrite lookup_upd.
  destruct (elems s !! k) as [e|]; cbn; [|reflexivity].
  destruct (decide (n = k)); [symmetry; apply HP, Hf | reflexivity].
Qed.

Lemma querySelectorAll_upd P n f s root :
  keeps_shape f -> shape_pred P ->
  querySelectorAll_in P (elems (upd n f s)) root = querySelectorAll_in P (elems s) root.
Proof.
  intros Hf HP. unfold querySelectorAll_in. rewrite length_upd.
  apply filter_ext. intros k.
  rewrite descendant_upd, matches_at_upd by assumption. reflexivity.
Qed.

Lemma querySelector_upd P n f s root :
  keeps_shape f -> shape_pred P ->
  querySelector_in P (elems (upd n f s)) root = querySelector_in P (elems s) root.
Proof.
  intros Hf HP. unfold querySelector_in. rewrite querySelectorAll_upd by assumption.
  reflexivity.
Qed.

Lemma getElementById_upd id n f s :
  keeps_shape f ->
  getElementById_in id (elems (upd n f s)) = getElementById_in id (elems s).
Proof.
  intros Hf. unfold getElementById_in. rewrite length_upd. f_equal.
  apply filter_ext. intros k. apply matches_at_upd; [exact Hf | apply shape_pred_id].
Qed.

(** *** What the tree readers return *)

Lemma walk_up_valid P l : forall fuel k g,
  walk_up fuel P l k = Some g -> k < length l /\ g < length l.
Proof.
  induction fuel as [|fuel IH]; intros k g; cbn [walk_up]; [discriminate|].
  destruct (l !! k) as [e|] eqn:E; [|discriminate].
  apply lookup_lt_Some in E.
  destruct (P k e).
  - intros [= <-]. auto.
  - destruct (parent e) as [p|]; [|discriminate].
    intros H. apply IH in H. split; [exact E | tauto].
Qed.

Lemma closest_valid P l k g : closest_in P l k = Some g -> k < length l.
Proof. intros H. apply walk_up_valid in H. tauto. Qed.

Lemma filter_seq_head (p : nat -> bool) len k :
  head (List.filter p (seq 0 len)) = Some k -> k < len /\ p k = true.
Proof.
  intros H. assert (Hin : In k (List.filter p (seq 0 len))).
  { destruct (List.filter p (seq 0 len)); [discriminate|].
    injection H as ->. left. reflexivity. }
  apply filter_In in Hin as [Hin Hp]. apply in_seq in Hin. split; [lia | exact Hp].
Qed.

Lemma querySelector_valid P l root k :
  querySelector_in P l root = Some k -> k < length l.
Proof. intros H. apply filter_seq_head in H. tauto. Qed.

Lemma querySelectorAll_valid P l root k :
  In k (querySelectorAll_in P l root) -> k < length l.
Proof. intros H. apply filter_In in H as [H _]. apply in_seq in H. lia. Qed.

Lemma getElementById_valid id l k : getElementById_in id l = Some k -> k < length l.
Proof. intros H. apply filter_seq_head in H. tauto. Qed.

Lemma getElementById_id id l k :
  getElementById_in id l = Some k -> elemId <$> l !! k = Some (Some id).
Proof.
  intros H. apply filter_seq_head in H as [_ H]. unfold matches_at in H.
  destruct (l !! k); [|discriminate]. apply bool_decide_eq_true in H.
  cbn. congruence.
Qed.

(** Elements found under different ids are different elements. *)
Lemma getElementById_ne id id' l k k' :
  getElementById_in id l = Some k -> getElementById_in id' l = Some k' ->
  id <> id' -> k <> k'.
Proof.
  intros H H' Hne ->. apply getElementById_id in H, H'. congruence.
Qed.

(** *** The fuel of the walk is enough

    In document order the walk from [n] goes down the positions, so it
    ends within [n + 1] steps: the size of the tree never cuts it. *)
Lemma walk_up_fuel P l :
  document_order l ->
  forall fuel1 fuel2 k, k < fuel1 -> k < fuel2 ->
    walk_up fuel1 P l k = walk_up fuel2 P l k.
Proof.
  intros Hord. induction fuel1 as [|fuel1 IH]; intros fuel2 k H1 H2; [lia|].
  destruct fuel2 as [|fuel2]; [lia|]. cbn [walk_up].
  destruct (l !! k) as [e|] eqn:E; [|reflexivity].
  destruct (P k e); [reflexivity|].
  destruct (parent e) as [p|] eqn:Ep; [|reflexivity].
  pose proof (Hord k e p E Ep). apply IH; lia.
Qed.

Lemma closest_fuel P l k extra :
  document_order l ->
  closest_in P l k = walk_up (length l + extra) (fun _ e => P e) l k.
Proof.
  intros Hord. unfold closest_in.
  destruct (decide (k < length l)) as [Hk|Hk].
  - apply walk_up_fuel; [exact Hord | lia | lia].
  - assert (E : l !! k = None) by (apply lookup_ge_None; lia).
    destruct (length l) as [|len]; destruct extra; cbn [walk_up Nat.add];
      rewrite ?E; reflexivity.
Qed.

Lemma sample_document_order : document_order sample_elems.
Proof.
  intros n e p Hn Hp.
  do 38 (destruct n as [|n];
         [cbn in Hn; injection Hn as <-; cbn in Hp;
          first [discriminate | injection Hp as <-; lia]|]).
  discriminate.
Qed.

End Store.

(** ** The validation primitives as page transformers *)

Section Marks.

Implicit Types (s : Page) (n k e : node) (ee : option node) (v : Mark).

Lemma bind_run {A B} (c : M A) (k : A -> M B) s a s' :
  c s = (Ok a, s') -> bind c k s = k a s'.
Proof. intros H. unfold bind. rewrite H. reflexivity. Qed.

Lemma showError_run n m s g :
  closest_in form_group (elems s) n = Some g ->
  showError n m s =
    (Ok tt, mark n (querySelector_in error_message (elems s) g) (MError m) s).
Proof.
  intros H. unfold showError, bind, closest, gets. rewrite H. cbn.
  destruct (querySelector_in error_message (elems s) g); reflexivity.
Qed.

Lemma showSuccess_run n s g :
  closest_in form_group (elems s) n = Some g ->
  showSuccess n s =
    (Ok tt, mark n (querySelector_in error_message (elems s) g) MSuccess s).
Proof.
  intros H. unfold showSuccess, bind, closest, gets. rewrite H. cbn.
  destruct (querySelector_in error_message (elems s) g); reflexivity.
Qed.

Lemma clearValidation_run n s g :
  closest_in form_group (elems s) n = Some g ->
  clearValidation n s =
    (Ok tt, mark n (querySelector_in error_message (elems s) g) MNeutral s).
Proof.
  intros H. unfold clearValidation, bind, closest, gets. rewrite H. cbn.
  destruct (querySelector_in error_message (elems s) g); reflexivity.
Qed.

Lemma showError_throws n m s :
  closest_in form_group (elems s) n = None -> showError n m s = (Throw TypeError, s).
Proof. intros H. unfold showError, bind, closest, gets. rewrite H. reflexivity. Qed.

Lemma showSuccess_throws n s :
  closest_in form_group (elems s) n = None -> showSuccess n s = (Throw TypeError, s).
Proof. intros H. unfold showSuccess, bind, closest, gets. rewrite H. reflexivity. Qed.

Lemma clearValidation_throws n s :
  closest_in form_group (elems s) n = None ->
  clearValidation n s = (Throw TypeError, s).
Proof. intros H. unfold clearValidation, bind, closest, gets. rewrite H. reflexivity. Qed.

Lemma error_element_closest s n g :
  closest_in form_group (elems s) n = Some g ->
  querySelector_in error_message (elems s) g = error_element s n.
Proof. intros H. unfold error_element. rewrite H. reflexivity. Qed.

Lemma error_element_valid s n e : error_element s n = Some e -> e < length (elems s).
Proof.
  unfold error_element. destruct (closest_in _ _ n); [|discriminate].
  apply querySelector_valid.
Qed.

Lemma error_element_field_valid s n e :
  error_element s n = Some e -> n < length (elems s).
Proof.
  unfold error_element. destruct (closest_in _ _ n) eqn:E; [|discriminate].
  intros _. eapply closest_valid, E.
Qed.

(** *** What stays as it is *)

Lemma stable_length N : shape_stable (fun s => length (elems s) = N).
Proof. intros k f s _ H. rewrite length_upd. exact H. Qed.

Lemma stable_closest P k r :
  shape_pred P -> shape_stable (fun s => closest_in P (elems s) k = r).
Proof. intros HP n f s Hf H. rewrite closest_upd by assumption. exact H. Qed.

Lemma stable_querySelectorAll P root r :
  shape_pred P -> shape_stable (fun s => querySelectorAll_in P (elems s) root = r).
Proof. intros HP n f s Hf H. rewrite querySelectorAll_upd by assumption. exact H. Qed.

Lemma shape_pred_form_group : shape_pred form_group.
Proof. apply shape_pred_class. reflexivity. Qed.

Lemma shape_pred_error_message : shape_pred error_message.
Proof. apply shape_pred_class. reflexivity. Qed.

Lemma shape_pred_controls : shape_pred controls.
Proof. apply shape_pred_tags. Qed.

Lemma stable_error_element n r : shape_stable (fun s => error_element s n = r).
Proof.
  intros k f s Hf H. unfold error_element in *.
  rewrite closest_upd by auto using shape_pred_form_group.
  destruct (closest_in form_group (elems s) n); [|exact H].
  rewrite querySelector_upd by auto using shape_pred_error_message. exact H.
Qed.

Lemma stable_rest a fr t p :
  shape_stable (fun s => appended s = a /\ fresh s = fr /\ timers s = t /\ platform s = p).
Proof. intros k f s _ H. exact H. Qed.

(** *** One mark *)

Lemma mark_stable obs n ee v s : shape_stable obs -> obs s -> obs (mark n ee v s).
Proof.
  intros Hst H. destruct v, ee as [e|]; cbn;
    repeat (apply Hst;
            [first [apply keeps_shape_add; reflexivity
                   |apply keeps_shape_remove; reflexivity
                   |apply keeps_shape_text]|]); exact H.
Qed.

Lemma val_mark k n ee v s : val k (mark n ee v s) = val k s.
Proof. destruct v, ee as [e|]; cbn; rewrite ?val_upd_keep by reflexivity; reflexivity. Qed.

Lemma dflt_mark k n ee v s : dflt k (mark n ee v s) = dflt k s.
Proof. destruct v, ee as [e|]; cbn; rewrite ?dflt_upd_keep by reflexivity; reflexivity. Qed.

Lemma length_mark n ee v s : length (elems (mark n ee v s)) = length (elems s).
Proof. apply (mark_stable (fun s' => length (elems s') = _)); [apply stable_length | reflexivity]. Qed.

(** Peel off the updates that cannot change the observed class. *)
Ltac peel_cls :=
  repeat first
    [ rewrite cls_upd_text
    | rewrite cls_upd_add_ne by discriminate
    | rewrite cls_upd_remove_ne by discriminate ].

(** The classes [error] and [success] of the marked field. *)
Lemma mark_error_same n ee v s :
  n < length (elems s) -> cls "error" n (mark n ee v s) = is_MError v.
Proof.
  intros Hn. destruct v, ee as [e|]; cbn; peel_cls;
    first [apply cls_upd_add, Hn | apply cls_upd_remove].
Qed.

Lemma mark_success_same n ee v s :
  n < length (elems s) -> cls "success" n (mark n ee v s) = is_MSuccess v.
Proof.
  intros Hn. destruct v, ee as [e|]; cbn; peel_cls;
    first [apply cls_upd_remove
          |apply cls_upd_add; rewrite length_upd; exact Hn].
Qed.

(** The classes [error] and [success] of the other elements. *)
Lemma mark_cls_other c k n ee v s :
  c <> "show"%string -> k <> n -> cls c k (mark n ee v s) = cls c k s.
Proof.
  intros Hc Hk. destruct v, ee as [e|]; cbn;
    repeat first
      [ rewrite cls_upd_text
      | rewrite (cls_upd_add_ne c "show") by exact Hc
      | rewrite (cls_upd_remove_ne c "show") by exact Hc
      | rewrite cls_upd_ne by exact Hk ]; reflexivity.
Qed.

(** The class [show] and the text of the error element. *)
Lemma mark_show_same n e v s :
  e < length (elems s) -> cls "show" e (mark n (Some e) v s) = is_MError v.
Proof.
  intros He. destruct v; cbn.
  - apply cls_upd_add. rewrite !length_upd. exact He.
  - apply cls_upd_remove.
  - apply cls_upd_remove.
Qed.

Lemma mark_txt_same n e m s :
  e < length (elems s) -> txt e (mark n (Some e) (MError m) s) = m.
Proof.
  intros He. cbn. rewrite txt_upd_keep by reflexivity.
  apply txt_upd_text. rewrite !length_upd. exact He.
Qed.

Lemma mark_show_other k n ee v s :
  ee <> Some k -> cls "show" k (mark n ee v s) = cls "show" k s.
Proof.
  intros Hk. destruct v, ee as [e|]; cbn;
    try (assert (k <> e) by congruence);
    repeat first
      [ rewrite cls_upd_text
      | rewrite (cls_upd_ne "show" k e) by assumption
      | rewrite cls_upd_add_ne by discriminate
      | rewrite cls_upd_remove_ne by discriminate ]; reflexivity.
Qed.

Lemma mark_txt_other k n ee v s :
  ee <> Some k -> txt k (mark n ee v s) = txt k s.
Proof.
  intros Hk. destruct v, ee as [e|]; cbn;
    try (assert (k <> e) by congruence);
    repeat first
      [ rewrite txt_upd_keep by reflexivity
      | rewrite (txt_upd_ne k e) by assumption ]; reflexivity.
Qed.

(** A mark that is not an error never reveals an error element. *)
Lemma mark_show_mono k n ee v s :
  is_MError v = false -> cls "show" k s = false -> cls "show" k (mark n ee v s) = false.
Proof.
  intros Hv H. destruct (decide (ee = Some k)) as [->|Hne].
  - destruct v; [discriminate| |]; cbn; apply cls_upd_remove.
  - rewrite mark_show_other by exact Hne. exact H.
Qed.

Lemma mark_show_hidden n e v s :
  is_MError v = false -> cls "show" e (mark n (Some e) v s) = false.
Proof. intros Hv. destruct v; [discriminate| |]; cbn; apply cls_upd_remove. Qed.

(** *** A sequence of marks *)

Lemma mark_all_stable obs l : shape_stable obs -> forall s, obs s -> obs (mark_all l s).
Proof.
  intros Hst. induction l as [|[[n ee] v] l IH]; intros s H; cbn; [exact H|].
  apply IH, mark_stable; assumption.
Qed.

Lemma val_mark_all k l : forall s, val k (mark_all l s) = val k s.
Proof.
  induction l as [|[[n ee] v] l IH]; intros s; cbn; [reflexivity|].
  rewrite IH. apply val_mark.
Qed.

Lemma dflt_mark_all k l : forall s, dflt k (mark_all l s) = dflt k s.
Proof.
  induction l as [|[[n ee] v] l IH]; intros s; cbn; [reflexivity|].
  rewrite IH. apply dflt_mark.
Qed.

Lemma mark_all_cls_other c k l :
  c <> "show"%string -> ~ In k (map mark_node l) ->
  forall s, cls c k (mark_all l s) = cls c k s.
Proof.
  intros Hc. induction l as [|[[n ee] v] l IH]; intros Hk s; cbn; [reflexivity|].
  cbn in Hk. rewrite IH by (intros H; apply Hk; right; exact H).
  apply mark_cls_other; [exact Hc|]. intros ->. apply Hk. left. reflexivity.
Qed.

Lemma mark_all_cls_same l : forall s n ee v,
  List.NoDup (map mark_node l) -> In (n, ee, v) l -> n < length (elems s) ->
  cls "error" n (mark_all l s) = is_MError v /\
  cls "success" n (mark_all l s) = is_MSuccess v.
Proof.
  induction l as [|[[n0 ee0] v0] l IH]; intros s n ee v Hnd Hin Hn; [destruct Hin|].
  cbn in Hnd. apply NoDup_cons_iff in Hnd as [Hfresh Hnd]. cbn.
  destruct Hin as [[= -> -> ->]|Hin].
  - rewrite !mark_all_cls_other by (discriminate || exact Hfresh).
    split; [apply mark_error_same | apply mark_success_same]; exact Hn.
  - apply (IH _ n ee v Hnd Hin). rewrite length_mark. exact Hn.
Qed.

Lemma mark_all_show_other k l :
  ~ In (Some k) (map mark_ee l) ->
  forall s, cls "show" k (mark_all l s) = cls "show" k s /\
            txt k (mark_all l s) = txt k s.
Proof.
  induction l as [|[[n ee] v] l IH]; intros Hk s; cbn; [auto|].
  cbn in Hk.
  assert (Hk' : ~ In (Some k) (map mark_ee l)) by (intros H; apply Hk; right; exact H).
  destruct (IH Hk' (mark n ee v s)) as [-> ->].
  split; [apply mark_show_other | apply mark_txt_other];
    intros ->; apply Hk; left; reflexivity.
Qed.

(** The error element of a marked field, when no other field of the
    sequence shares it. *)
Lemma mark_all_show_same l : forall s n e v,
  List.NoDup (map mark_ee l) -> In (n, Some e, v) l -> e < length (elems s) ->
  cls "show" e (mark_all l s) = is_MError v /\
  forall m, v = MError m -> txt e (mark_all l s) = m.
Proof.
  induction l as [|[[n0 ee0] v0] l IH]; intros s n e v Hnd Hin He; [destruct Hin|].
  cbn in Hnd. apply NoDup_cons_iff in Hnd as [Hfresh Hnd]. cbn.
  destruct Hin as [[= -> -> ->]|Hin].
  - destruct (mark_all_show_other e l Hfresh (mark n (Some e) v s)) as [-> ->].
    split; [apply mark_show_same, He|]. intros m ->. apply mark_txt_same, He.
  - apply (IH _ n e v Hnd Hin). rewrite length_mark. exact He.
Qed.

(** When no mark of the sequence is an error, every error element the
    sequence touches ends hidden. *)
Lemma mark_show_hidden_all l : forall s k,
  Forall (fun x => is_MError (snd x) = false) l ->
  cls "show" k s = false -> cls "show" k (mark_all l s) = false.
Proof.
  induction l as [|[[n1 ee1] v1] l IH]; intros s k Hall H; cbn; [exact H|].
  inversion Hall as [|x l' Hv1 Hall']; subst. cbn in Hv1.
  apply IH; [exact Hall'|]. apply mark_show_mono; assumption.
Qed.

Lemma mark_all_show_hidden l : forall s n e v,
  Forall (fun x => is_MError (snd x) = false) l -> In (n, Some e, v) l ->
  cls "show" e (mark_all l s) = false.
Proof.
  induction l as [|[[n0 ee0] v0] l IH]; intros s n e v Hall Hin; [destruct Hin|].
  inversion Hall as [|x l' Hv0 Hall']; subst. cbn in Hv0 |- *.
  destruct Hin as [[= -> -> ->]|Hin].
  - apply mark_show_hidden_all; [exact Hall'|]. apply mark_show_hidden, Hv0.
  - eapply IH; eauto.
Qed.

End Marks.

(** ** The three visual states *)

Section VisualStates.

Lemma mark_consistent k n ee v s :
  n < length (elems s) -> consistent k s -> consistent k (mark n ee v s).
Proof.
  unfold consistent. intros Hn H. destruct (decide (k = n)) as [->|Hk].
  - rewrite mark_error_same, mark_success_same by exact Hn. destruct v; reflexivity.
  - rewrite !mark_cls_other by (discriminate || exact Hk). apply H.
Qed.

Lemma run_call_consistent k c s : consistent k s -> consistent k (after (run_call c) s).
Proof.
  intros H. unfold after.
  destruct c as [n m|n|n]; cbn [run_call];
    destruct (closest_in form_group (elems s) n) as [g|] eqn:E.
  - rewrite (showError_run _ _ _ _ E). apply mark_consistent; [|exact H].
    eapply closest_valid, E.
  - rewrite (showError_throws _ _ _ E). exact H.
  - rewrite (showSuccess_run _ _ _ E). apply mark_consistent; [|exact H].
    eapply closest_valid, E.
  - rewrite (showSuccess_throws _ _ E). exact H.
  - rewrite (clearValidation_run _ _ _ E). apply mark_consistent; [|exact H].
    eapply closest_valid, E.
  - rewrite (clearValidation_throws _ _ E). exact H.
Qed.

Lemma run_calls_consistent k cs :
  forall s, consistent k s -> consistent k (run_calls cs s).
Proof.
  induction cs as [|c cs IH]; intros s H; cbn; [exact H|].
  apply IH, run_call_consistent, H.
Qed.

Lemma states_of_one n s :
  consistent n s -> length (states_of n s) = 1.
Proof.
  unfold states_of, consistent. cbn.
  destruct (cls "error" n s), (cls "success" n s); cbn; intros H;
    first [reflexivity | discriminate].
Qed.

(** A call that returns leaves its field in one state, whatever the
    field carried before. *)
Lemma run_call_establishes c s n :
  run_call c s = (Ok tt, after (run_call c) s) ->
  n = match c with
      | CallShowError i _ | CallShowSuccess i | CallClearValidation i => i
      end ->
  consistent n (after (run_call c) s).
Proof.
  intros Hok ->. unfold after, consistent in *.
  destruct c as [n m|n|n]; cbn [run_call] in *;
    destruct (closest_in form_group (elems s) n) as [g|] eqn:E;
    first
      [ rewrite (showError_throws _ _ _ E) in Hok; discriminate
      | rewrite (showSuccess_throws _ _ E) in Hok; discriminate
      | rewrite (clearValidation_throws _ _ E) in Hok; discriminate
      | idtac ];
    pose proof (closest_valid _ _ _ _ E) as Hn.
  - rewrite (showError_run _ _ _ _ E). cbn [snd].
    rewrite mark_error_same, mark_success_same by exact Hn. reflexivity.
  - rewrite (showSuccess_run _ _ _ E). cbn [snd].
    rewrite mark_error_same, mark_success_same by exact Hn. reflexivity.
  - rewrite (clearValidation_run _ _ _ E). cbn [snd].
    rewrite mark_error_same, mark_success_same by exact Hn. reflexivity.
Qed.

End VisualStates.

(** C5: whatever sequence of [showError], [showSuccess] and
    [clearValidation] calls runs on the page, a field that did not start
    with both validation classes is afterwards in exactly one of the
    states error, success and neutral, and does not carry both the
    [error] and the [success] class; and a call that returns leaves its
    field in exactly one state whatever the field carried before. *)
Theorem validation_state_exclusive (s : Page) (cs : list ValidationCall) (n : node) :
  (consistent n s ->
   length (states_of n (run_calls cs s)) = 1 /\
   cls "error" n (run_calls cs s) && cls "success" n (run_calls cs s) = false) /\
  (forall c,
     run_call c s = (Ok tt, after (run_call c) s) ->
     n = match c with
         | CallShowError i _ | CallShowSuccess i | CallClearValidation i => i
         end ->
     length (states_of n (after (run_call c) s)) = 1).
Proof.
  split.
  - intros H. pose proof (run_calls_consistent n cs s H) as Hn.
    split; [apply states_of_one, Hn | exact Hn].
  - intros c Hok Hn. eapply states_of_one, run_call_establishes; eassumption.
Qed.

Lemma validation_state_exclusive_witness :
  let s' := run_calls [CallShowSuccess 2; CallShowError 2 (js "Name is required");
                       CallClearValidation 5; CallShowSuccess 37] sample_page in
  length (states_of 2 s') = 1 /\ cls "error" 2 s' && cls "success" 2 s' = false.
Proof.
  apply (proj1 (validation_state_exclusive sample_page _ 2)). reflexivity.
Defined.

(** C10: the validation primitives need a [.form-group] ancestor of the
    input: without one the call throws a [TypeError] before it changes
    anything; a form group without an [.error-message] element is
    accepted, and the call then only updates the classes of the input. *)
Theorem validation_needs_form_group (s : Page) (input : node) (message : jsstring) :
  (closest_in form_group (elems s) input = None ->
     showError input message s = (Throw TypeError, s) /\
     showSuccess input s = (Throw TypeError, s) /\
     clearValidation input s = (Throw TypeError, s)) /\
  (forall formGroup,
     closest_in form_group (elems s) input = Some formGroup ->
     querySelector_in error_message (elems s) formGroup = None ->
     showError input message s =
       (Ok tt, upd input (el_remove "success") (upd input (el_add "error") s)) /\
     showSuccess input s =
       (Ok tt, upd input (el_add "success") (upd input (el_remove "error") s)) /\
     clearValidation input s =
       (Ok tt, upd input (el_remove "success") (upd input (el_remove "error") s))).
Proof.
  split.
  - intros H. auto using showError_throws, showSuccess_throws, clearValidation_throws.
  - intros g Hg He.
    rewrite (showError_run _ _ _ _ Hg), (showSuccess_run _ _ _ Hg),
      (clearValidation_run _ _ _ Hg), He. auto.
Qed.

Lemma validation_needs_form_group_witness :
  (showError 2 (js "Name is required") bare_page = (Throw TypeError, bare_page) /\
   showSuccess 2 bare_page = (Throw TypeError, bare_page) /\
   clearValidation 2 bare_page = (Throw TypeError, bare_page)) /\
  (showError 1 (js "Name is required") bare_page =
     (Ok tt, upd 1 (el_remove "success") (upd 1 (el_add "error") bare_page)) /\
   showSuccess 1 bare_page =
     (Ok tt, upd 1 (el_add "success") (upd 1 (el_remove "error") bare_page)) /\
   clearValidation 1 bare_page =
     (Ok tt, upd 1 (el_remove "success") (upd 1 (el_remove "error") bare_page))).
Proof.
  split.
  - apply (proj1 (validation_needs_form_group bare_page 2 (js "Name is required"))).
    reflexivity.
  - apply (proj2 (validation_needs_form_group bare_page 1 (js "Name is required")) 0);
      reflexivity.
Defined.

(** ** The alert system *)

Section Alerts.

Lemma forEach_remove_created (l : list (nat * Created)) : forall s,
  forEach l (fun alert => remove_created (fst alert)) s =
    (Ok tt, with_appended (remove_all (map fst l) (appended s)) s).
Proof.
  induction l as [|a l IH]; intros s.
  - destruct s; reflexivity.
  - cbn [forEach]. unfold bind at 1. cbn. rewrite IH. reflexivity.
Qed.

Lemma showAlert_run type message s :
  showAlert type message s = (Ok tt, alert_shown type message s).
Proof.
  unfold showAlert. unfold bind at 1. cbn.
  unfold bind at 1. rewrite forEach_remove_created. reflexivity.
Qed.

Lemma in_remove_all ids : forall app x,
  In x (remove_all ids app) <-> In x app /\ ~ In (fst x) ids.
Proof.
  induction ids as [|id ids IH]; intros app x; cbn.
  - tauto.
  - rewrite IH, filter_In, negb_true_iff, Nat.eqb_neq. intuition congruence.
Qed.

Lemma filter_nil {A} (p : A -> bool) l :
  (forall x, In x l -> p x = false) -> List.filter p l = [].
Proof.
  induction l as [|a l IH]; intros H; cbn; [reflexivity|].
  rewrite (H a) by (left; reflexivity). apply IH. intros x Hx. apply H. right. exact Hx.
Qed.

Lemma is_alert_new id type message : is_alert (id, AlertDiv (new_alert type message)) = true.
Proof. unfold is_alert. cbn. apply bool_decide_eq_true_2. left. Qed.

(** [showAlert] leaves the new alert as the only alert of the document. *)
Lemma alerts_alert_shown type message s :
  alerts (alert_shown type message s) = [(fresh s, AlertDiv (new_alert type message))].
Proof.
  unfold alerts at 1, alert_shown. cbn [appended].
  rewrite List.filter_app. cbn [List.filter]. rewrite is_alert_new.
  rewrite filter_nil; [reflexivity|].
  intros x Hx. apply in_remove_all in Hx as [Hx Hid].
  destruct (is_alert x) eqn:E; [|reflexivity].
  exfalso. apply Hid, in_map. unfold alerts. apply filter_In. auto.
Qed.

Lemma filter_length_le {A} (p : A -> bool) l : length (List.filter p l) <= length l.
Proof. induction l as [|a l IH]; cbn; [lia|]. destruct (p a); cbn; lia. Qed.

Lemma filter_comm {A} (p q : A -> bool) l :
  List.filter p (List.filter q l) = List.filter q (List.filter p l).
Proof.
  induction l as [|a l IH]; cbn; [reflexivity|].
  destruct (p a) eqn:Ep, (q a) eqn:Eq; cbn; rewrite ?Ep, ?Eq, IH; reflexivity.
Qed.

(** Removing a node can only take alerts away. *)
Lemma alerts_remove_created id s :
  length (alerts (after (remove_created id) s)) <= length (alerts s).
Proof.
  unfold after, remove_created, modify, alerts. cbn.
  rewrite filter_comm. apply filter_length_le.
Qed.

Lemma alerts_fire k s : length (alerts (after (fire k) s)) <= length (alerts s).
Proof.
  unfold after, fire. unfold bind at 1. cbn.
  destruct (timers s !! k) as [[id|button text]|]; cbn; [| |lia].
  - unfold alerts. rewrite filter_comm. apply filter_length_le.
  - unfold alerts, upd. cbn. lia.
Qed.

Lemma alert_step_le ev s :
  length (alerts s) <= 1 -> length (alerts (after (alert_step ev) s)) <= 1.
Proof.
  intros H. destruct ev as [type message|id|k]; cbn [alert_step].
  - unfold after. rewrite showAlert_run. cbn [snd].
    rewrite alerts_alert_shown. cbn. lia.
  - pose proof (alerts_remove_created id s). unfold closeClick. lia.
  - pose proof (alerts_fire k s). lia.
Qed.

Lemma alert_run_le evs : forall s,
  length (alerts s) <= 1 -> length (alerts (alert_run evs s)) <= 1.
Proof.
  induction evs as [|ev evs IH]; intros s H; cbn; [exact H|].
  apply IH, alert_step_le, H.
Qed.

End Alerts.

(** C6: [showAlert] removes every alert of the document before it
    appends the new one, which is then the only alert; so a document
    with at most one alert keeps at most one through every sequence of
    [showAlert] calls, close clicks and expiring timers, and after a
    first [showAlert] call this holds whatever the document held. *)
Theorem at_most_one_alert (s : Page) (evs : list AlertEvent) :
  (forall type message,
     showAlert type message s = (Ok tt, after (showAlert type message) s) /\
     alerts (after (showAlert type message) s)
       = [(fresh s, AlertDiv (new_alert type message))]) /\
  (length (alerts s) <= 1 -> length (alerts (alert_run evs s)) <= 1) /\
  (forall type message,
     length (alerts (alert_run (EvShowAlert type message :: evs) s)) <= 1).
Proof.
  split; [|split].
  - intros type message. unfold after. rewrite showAlert_run. cbn [snd].
    split; [reflexivity | apply alerts_alert_shown].
  - apply alert_run_le.
  - intros type message. cbn [alert_run]. apply alert_run_le.
    cbn [alert_step]. unfold after. rewrite showAlert_run. cbn [snd].
    rewrite alerts_alert_shown. cbn. lia.
Qed.

Lemma at_most_one_alert_witness :
  length (alerts (alert_run
    [EvShowAlert "success" (js "Copied to clipboard!");
     EvShowAlert "info" (js "Login functionality would be handled by your backend.");
     EvTimeout 0; EvShowAlert "error" (js "Failed to copy"); EvCloseClick 2]
    sample_page)) <= 1.
Proof.
  apply (proj1 (proj2 (at_most_one_alert sample_page _))). cbn. lia.
Defined.

(** ** Running the form handlers *)

Section Forms.

Implicit Types (s : Page) (n k e : node).

Lemma bind_deref_Some {B} n (k : node -> M B) : bind (deref (Some n)) k = k n.
Proof. reflexivity. Qed.

Lemma judge_run n g v b s :
  closest_in form_group (elems s) n = Some g ->
  judge n v b s =
    (Ok (accepted v && b), mark n (error_element s n) (verdict_mark v) s).
Proof.
  intros Hg. rewrite <- (error_element_closest _ _ _ Hg).
  destruct v as [m|]; unfold judge, bind.
  - rewrite (showError_run _ _ _ _ Hg). reflexivity.
  - rewrite (showSuccess_run _ _ _ Hg). reflexivity.
Qed.

Lemma mark_all_snoc l x s :
  mark_all (l ++ [x]) s = mark (fst (fst x)) (snd (fst x)) (snd x) (mark_all l s).
Proof.
  revert s. induction l as [|[[n ee] v] l IH]; intros s; cbn.
  - destruct x as [[n ee] v]. reflexivity.
  - apply IH.
Qed.

Lemma closest_mark_all P l s k :
  shape_pred P ->
  closest_in P (elems (mark_all l s)) k = closest_in P (elems s) k.
Proof.
  intros HP.
  apply (mark_all_stable (fun s' => closest_in P (elems s') k = _));
    [apply stable_closest, HP | reflexivity].
Qed.

Lemma error_element_mark_all l s n :
  error_element (mark_all l s) n = error_element s n.
Proof.
  apply (mark_all_stable (fun s' => error_element s' n = _));
    [apply stable_error_element | reflexivity].
Qed.

Lemma querySelectorAll_mark_all P l s root :
  shape_pred P ->
  querySelectorAll_in P (elems (mark_all l s)) root = querySelectorAll_in P (elems s) root.
Proof.
  intros HP.
  apply (mark_all_stable (fun s' => querySelectorAll_in P (elems s') root = _));
    [apply stable_querySelectorAll, HP | reflexivity].
Qed.

Lemma rest_mark_all l s :
  appended (mark_all l s) = appended s /\ fresh (mark_all l s) = fresh s /\
  timers (mark_all l s) = timers s /\ platform (mark_all l s) = platform s.
Proof.
  apply (mark_all_stable (fun s' => appended s' = _ /\ fresh s' = _ /\
                                    timers s' = _ /\ platform s' = _));
    [apply stable_rest | auto].
Qed.

(** One validation block, run after the blocks that left the marks [l]. *)
Lemma block_run s0 l n g (body : jsstring -> M bool) v b :
  closest_in form_group (elems s0) n = Some g ->
  body (val n s0) (mark_all l s0) = judge n v b (mark_all l s0) ->
  (x <- get_value n;; body x) (mark_all l s0) =
    (Ok (accepted v && b),
     mark_all (l ++ [(n, error_element s0 n, verdict_mark v)]) s0).
Proof.
  intros Hg Hbody. unfold bind at 1, get_value, gets.
  rewrite val_mark_all, Hbody.
  rewrite (judge_run n g) by (rewrite closest_mark_all; auto using shape_pred_form_group).
  rewrite error_element_mark_all, mark_all_snoc. reflexivity.
Qed.

(** [form.reset()] *)
Lemma forEach_reset l : forall s,
  forEach l (fun n => modify (upd n reset_value)) s = (Ok tt, reset_all l s).
Proof.
  induction l as [|n l IH]; intros s; [reflexivity|].
  cbn [forEach]. unfold bind at 1. cbn. apply IH.
Qed.

Lemma form_reset_run form s :
  form_reset form s = (Ok tt, reset_all (querySelectorAll_in controls (elems s) form) s).
Proof. unfold form_reset, bind, querySelectorAll, gets. apply forEach_reset. Qed.

Lemma reset_all_stable obs l : shape_stable obs -> forall s, obs s -> obs (reset_all l s).
Proof.
  intros Hst. induction l as [|n l IH]; intros s H; cbn; [exact H|].
  apply IH, Hst; [apply keeps_shape_reset | exact H].
Qed.

Lemma cls_reset_all c k l : forall s, cls c k (reset_all l s) = cls c k s.
Proof.
  induction l as [|n l IH]; intros s; cbn; [reflexivity|].
  rewrite IH. apply cls_upd_reset.
Qed.

Lemma val_reset_all_out k l : forall s, ~ In k l -> val k (reset_all l s) = val k s.
Proof.
  induction l as [|n l IH]; intros s Hk; cbn; [reflexivity|].
  rewrite IH by (intros H; apply Hk; right; exact H).
  apply val_upd_ne. intros ->. apply Hk. left. reflexivity.
Qed.

Lemma val_reset_all_in k l : forall s, In k l -> val k (reset_all l s) = dflt k s.
Proof.
  induction l as [|n l IH]; intros s Hk; [destruct Hk|]. cbn.
  destruct (in_dec Nat.eq_dec k l) as [Hin|Hout].
  - rewrite IH by exact Hin. apply dflt_upd_keep. reflexivity.
  - destruct Hk as [->|Hk]; [|contradiction].
    rewrite val_reset_all_out by exact Hout. apply val_upd_reset.
Qed.

Lemma error_element_mark n ee v s k :
  error_element (mark n ee v s) k = error_element s k.
Proof. apply (error_element_mark_all [(n, ee, v)]). Qed.

Lemma closest_mark P n ee v s k :
  shape_pred P ->
  closest_in P (elems (mark n ee v s)) k = closest_in P (elems s) k.
Proof. apply (closest_mark_all P [(n, ee, v)]). Qed.

(** [inputs.forEach(clearValidation)] *)
Lemma forEach_clearValidation l : forall s,
  Forall (fun n => is_Some (closest_in form_group (elems s) n)) l ->
  forEach l clearValidation s = (Ok tt, mark_all (clear_marks s l) s).
Proof.
  induction l as [|n l IH]; intros s Hall; [reflexivity|].
  inversion Hall as [|x l' [g Hg] Hall']; subst.
  cbn [forEach]. unfold bind at 1. rewrite (clearValidation_run _ _ _ Hg).
  rewrite (error_element_closest _ _ _ Hg).
  set (s1 := mark n (error_element s n) MNeutral s).
  rewrite IH.
  - unfold clear_marks. cbn [map mark_all]. fold s1. f_equal. f_equal.
    apply map_ext. intros k.
    unfold s1. rewrite error_element_mark. reflexivity.
  - eapply Forall_impl; [|exact Hall']. cbv beta. intros k Hk. unfold s1.
    rewrite closest_mark by apply shape_pred_form_group.
    exact Hk.
Qed.

End Forms.

(** ** The contact form *)

(** Run [document.getElementById] where the element is known. *)
Ltac run_get H :=
  erewrite bind_run by (unfold getElementById, gets; rewrite H; reflexivity);
  cbv beta iota.

(** A validation block is its verdict followed by [showError] or
    [showSuccess]. *)
Ltac block_is_judge :=
  cbv beta;
  unfold judge, v_required, v_email, v_subject, v_message, v_password, v_confirm;
  repeat match goal with
         | |- context [if ?c then _ else _] => destruct c
         end;
  reflexivity.

Ltac run_block s0 l n g v b Hg :=
  erewrite bind_run by (eapply (block_run s0 l n g _ v b Hg); block_is_judge);
  cbv beta.

Section Contact.

Implicit Types (s : Page) (n k e : node).

Lemma contactSubmit_run s form nm em sb ms g1 g2 g3 g4 :
  getElementById_in "name" (elems s) = Some nm ->
  getElementById_in "email" (elems s) = Some em ->
  getElementById_in "subject" (elems s) = Some sb ->
  getElementById_in "message" (elems s) = Some ms ->
  closest_in form_group (elems s) nm = Some g1 ->
  closest_in form_group (elems s) em = Some g2 ->
  closest_in form_group (elems s) sb = Some g3 ->
  closest_in form_group (elems s) ms = Some g4 ->
  contactSubmit form s =
    (if accepted (v_message (val ms s)) &&
        (accepted (v_subject (val sb s)) &&
         (accepted (v_email (val em s)) &&
          (accepted (v_required "Name is required" (val nm s)) && true)))
     then
       showAlert "success"
         (js "Thank you! Your message has been sent successfully.");;;
       form_reset form;;;
       inputs <- querySelectorAll form controls;;
       forEach inputs clearValidation
     else ret tt)
    (mark_all (form_marks s [(nm, v_required "Name is required" (val nm s));
                             (em, v_email (val em s));
                             (sb, v_subject (val sb s));
                             (ms, v_message (val ms s))]) s).
Proof.
  intros Hnm Hem Hsb Hms Hg1 Hg2 Hg3 Hg4. unfold contactSubmit.
  run_get Hnm. run_get Hem. run_get Hsb. run_get Hms.
  run_block s (@nil (node * option node * Mark)) nm g1
    (v_required "Name is required" (val nm s)) true Hg1.
  cbn [app].
  run_block s [(nm, error_element s nm,
                verdict_mark (v_required "Name is required" (val nm s)))]
    em g2 (v_email (val em s))
    (accepted (v_required "Name is required" (val nm s)) && true) Hg2.
  cbn [app].
  match goal with |- bind _ _ (mark_all ?l _) = _ =>
    run_block s l sb g3 (v_subject (val sb s))
      (accepted (v_email (val em s)) &&
       (accepted (v_required "Name is required" (val nm s)) && true)) Hg3
  end.
  cbn [app].
  match goal with |- bind _ _ (mark_all ?l _) = _ =>
    run_block s l ms g4 (v_message (val ms s))
      (accepted (v_subject (val sb s)) &&
       (accepted (v_email (val em s)) &&
        (accepted (v_required "Name is required" (val nm s)) && true))) Hg4
  end.
  cbn [app]. reflexivity.
Qed.


Lemma NoDup_querySelectorAll P l root : List.NoDup (querySelectorAll_in P l root).
Proof. apply List.NoDup_filter, seq_NoDup. Qed.

Lemma contact_finish_run s1 form type message :
  Forall (fun n => is_Some (closest_in form_group (elems s1) n))
         (querySelectorAll_in controls (elems s1) form) ->
  (showAlert type message;;;
   form_reset form;;;
   inputs <- querySelectorAll form controls;;
   forEach inputs clearValidation) s1
  = (Ok tt, contact_done form type message s1).
Proof.
  intros Hall. set (inputs := querySelectorAll_in controls (elems s1) form) in *.
  rewrite (bind_run _ _ s1 tt (alert_shown type message s1)) by apply showAlert_run.
  rewrite (bind_run _ _ _ tt (reset_all inputs (alert_shown type message s1)))
    by apply form_reset_run.
  set (s3 := reset_all inputs (alert_shown type message s1)).
  assert (Hin : querySelectorAll_in controls (elems s3) form = inputs).
  { apply (reset_all_stable (fun s' => querySelectorAll_in controls (elems s') form = _));
      [apply stable_querySelectorAll, shape_pred_controls | reflexivity]. }
  assert (Hee : forall n, error_element s3 n = error_element s1 n).
  { intros n. apply (reset_all_stable (fun s' => error_element s' n = _));
      [apply stable_error_element | reflexivity]. }
  unfold bind, querySelectorAll, gets. rewrite Hin.
  rewrite forEach_clearValidation.
  - unfold contact_done. fold inputs. fold s3. f_equal. f_equal.
    unfold clear_marks. apply map_ext. intros n. rewrite Hee. reflexivity.
  - eapply Forall_impl; [|exact Hall]. cbv beta. intros n Hn.
    assert (Hc : closest_in form_group (elems s3) n = closest_in form_group (elems s1) n).
    { apply (reset_all_stable (fun s' => closest_in form_group (elems s') n = _));
        [apply stable_closest, shape_pred_form_group | reflexivity]. }
    rewrite Hc. exact Hn.
Qed.

(** After a valid submission: one alert, every control back to its
    default value and neutral. *)
Lemma contact_done_spec s1 form type message :
  let s' := contact_done form type message s1 in
  alerts s' = [(fresh s1, AlertDiv (new_alert type message))] /\
  fresh s' = S (fresh s1) /\
  forall n, In n (querySelectorAll_in controls (elems s1) form) ->
            val n s' = dflt n s1 /\ shows_neutral s1 n s'.
Proof.
  unfold contact_done.
  set (inputs := querySelectorAll_in controls (elems s1) form).
  set (s3 := reset_all inputs (alert_shown type message s1)). cbv zeta.
  assert (Hrest : appended s3 = appended (alert_shown type message s1) /\
                  fresh s3 = fresh (alert_shown type message s1) /\
                  timers s3 = timers (alert_shown type message s1) /\
                  platform s3 = platform (alert_shown type message s1)).
  { apply (reset_all_stable (fun s' => appended s' = _ /\ fresh s' = _ /\
                                       timers s' = _ /\ platform s' = _));
      [apply stable_rest | auto]. }
  destruct Hrest as (Happ & Hfresh & _ & _).
  destruct (rest_mark_all (clear_marks s1 inputs) s3) as (Happ' & Hfresh' & _ & _).
  assert (Hlen : length (elems s3) = length (elems s1)).
  { apply (reset_all_stable (fun s' => length (elems s') = _));
      [apply stable_length | reflexivity]. }
  split; [|split].
  - unfold alerts at 1. rewrite Happ', Happ. apply alerts_alert_shown.
  - rewrite Hfresh', Hfresh. reflexivity.
  - intros n Hn. split.
    + rewrite val_mark_all. unfold s3. rewrite val_reset_all_in by exact Hn. reflexivity.
    + assert (Hin : In (n, error_element s1 n, MNeutral) (clear_marks s1 inputs)).
      { unfold clear_marks. apply (in_map (fun n => (n, error_element s1 n, MNeutral))), Hn. }
      assert (Hnd : List.NoDup (map mark_node (clear_marks s1 inputs))).
      { unfold clear_marks. rewrite map_map. cbn. rewrite map_id.
        apply NoDup_querySelectorAll. }
      assert (Hv : n < length (elems s3)).
      { rewrite Hlen. eapply querySelectorAll_valid, Hn. }
      destruct (mark_all_cls_same _ s3 n _ _ Hnd Hin Hv) as [He Hs].
      split; [exact He | split; [exact Hs|]].
      intros e Hee. rewrite Hee in Hin.
      eapply mark_all_show_hidden; [|exact Hin].
      unfold clear_marks. apply Forall_forall. intros x Hx.
      apply in_map_iff in Hx as (k & <- & _). reflexivity.
Qed.

(** Fields found under different ids are different elements. *)
Lemma fields_nodes_NoDup s (F : list (string * node)) :
  List.NoDup (map fst F) ->
  Forall (fun x => getElementById_in (fst x) (elems s) = Some (snd x) /\
                   is_Some (error_element s (snd x))) F ->
  List.NoDup (map snd F).
Proof.
  induction F as [|[id n] F IH]; intros Hnd Hall; cbn; [constructor|].
  cbn in Hnd. apply NoDup_cons_iff in Hnd as [Hid Hnd].
  inversion Hall as [|x F' [Hn _] Hall']; subst. cbn in Hn.
  constructor; [|apply IH; assumption].
  intros Hin. apply in_map_iff in Hin as ([id' n'] & E & Hin'). cbn in E. subst n'.
  rewrite Forall_forall in Hall'. destruct (Hall' _ Hin') as [Hn' _]. cbn in Hn'.
  apply Hid. apply in_map_iff. exists (id', n). split; [|exact Hin'].
  cbn. apply getElementById_id in Hn, Hn'. congruence.
Qed.

(** What the validation blocks of a form leave on each of its fields. *)
Lemma form_marks_outcome s (F : list (node * option jsstring)) n v :
  List.NoDup (map fst F) ->
  List.NoDup (map (fun x => error_element s (fst x)) F) ->
  In (n, v) F -> is_Some (error_element s n) ->
  field_outcome s n v (mark_all (form_marks s F) s).
Proof.
  intros Hnd Hee Hin [e He].
  assert (Hin' : In (n, error_element s n, verdict_mark v) (form_marks s F)).
  { unfold form_marks.
    apply (in_map (fun x => (fst x, error_element s (fst x), verdict_mark (snd x)))
                  F (n, v)), Hin. }
  assert (Hnd' : List.NoDup (map mark_node (form_marks s F))).
  { unfold form_marks. rewrite map_map. exact Hnd. }
  assert (Hee' : List.NoDup (map mark_ee (form_marks s F))).
  { unfold form_marks. rewrite map_map. exact Hee. }
  destruct (mark_all_cls_same _ s n _ _ Hnd' Hin' (error_element_field_valid _ _ _ He))
    as [Herr Hsuc].
  rewrite He in Hin'.
  destruct (mark_all_show_same _ s n e _ Hee' Hin' (error_element_valid _ _ _ He))
    as [Hshow Htxt].
  destruct v as [m|]; cbn in *.
  - split; [exact Herr | split; [exact Hsuc|]]. exists e. auto.
  - split; [exact Hsuc | split; [exact Herr|]]. intros e' E. congruence.
Qed.

(** The fields of a form after its validation blocks. *)
Lemma form_fields_outcomes s (ids : list (string * node))
    (F : list (node * option jsstring)) :
  map snd ids = map fst F -> List.NoDup (map fst ids) -> fields_ok s ids ->
  appended (mark_all (form_marks s F) s) = appended s /\
  fresh (mark_all (form_marks s F) s) = fresh s /\
  (forall k, val k (mark_all (form_marks s F) s) = val k s) /\
  Forall (fun x => field_outcome s (fst x) (snd x) (mark_all (form_marks s F) s)) F.
Proof.
  intros Hmap Hids [Hall Hee].
  destruct (rest_mark_all (form_marks s F) s) as (Happ & Hfresh & _ & _).
  split; [exact Happ|]. split; [exact Hfresh|].
  split; [intros k; apply val_mark_all|].
  assert (HndF : List.NoDup (map fst F)).
  { rewrite <- Hmap. eapply fields_nodes_NoDup; eassumption. }
  assert (HeeF : List.NoDup (map (fun x => error_element s (fst x)) F)).
  { rewrite <- (map_map fst (error_element s)), <- Hmap, map_map. exact Hee. }
  apply Forall_forall. intros [n v] Hin. cbn [fst snd].
  apply form_marks_outcome; try assumption.
  assert (Hn : In n (map snd ids)).
  { rewrite Hmap. apply (in_map fst F (n, v)), Hin. }
  apply in_map_iff in Hn as ([id n'] & E & Hin'). cbn in E. subst n'.
  rewrite Forall_forall in Hall. apply (Hall _ Hin').
Qed.

Lemma field_has_group s n :
  is_Some (error_element s n) -> exists g, closest_in form_group (elems s) n = Some g.
Proof.
  intros [e H]. unfold error_element in H.
  destruct (closest_in form_group (elems s) n) as [g|]; [eauto | discriminate].
Qed.

(** The verdicts of the contact form are the validity conditions of
    the specification. *)
Lemma accepted_required msg v : accepted (v_required msg v) = negb (blank v).
Proof. unfold v_required. rewrite trim_empty. destruct (blank v); reflexivity. Qed.

Lemma accepted_email v : accepted (v_email v) = negb (blank v) && validateEmail v.
Proof.
  unfold v_email. rewrite trim_empty.
  destruct (blank v), (validateEmail v); reflexivity.
Qed.

Lemma accepted_subject v : accepted (v_subject v) = negb (is_empty v).
Proof. unfold v_subject. destruct (is_empty v); reflexivity. Qed.

Lemma accepted_message v :
  accepted (v_message v) = negb (blank v) && (10 <=? length (trim v)).
Proof.
  unfold v_message. rewrite trim_empty. rewrite Nat.ltb_antisym.
  destruct (blank v), (10 <=? length (trim v)); reflexivity.
Qed.

Lemma contact_valid_accepted nm em sb ms :
  accepted (v_message ms) &&
    (accepted (v_subject sb) &&
      (accepted (v_email em) && (accepted (v_required "Name is required" nm) && true)))
  = contact_valid nm em sb ms.
Proof.
  unfold contact_valid.
  rewrite accepted_required, accepted_email, accepted_subject, accepted_message.
  destruct (blank nm), (blank em), (validateEmail em), (is_empty sb), (blank ms),
    (10 <=? length (trim ms)); reflexivity.
Qed.

End Contact.


(** ** The signup and login forms *)

Ltac run_block_with s0 l n g v b Hg tac :=
  erewrite bind_run by (eapply (block_run s0 l n g _ v b Hg); tac);
  cbv beta.

Section Signup.

Implicit Types (s : Page) (n k e : node).

Lemma signupSubmit_run s form nm em pw cf g1 g2 g3 g4 :
  getElementById_in "signup-name" (elems s) = Some nm ->
  getElementById_in "signup-email" (elems s) = Some em ->
  getElementById_in "signup-password" (elems s) = Some pw ->
  getElementById_in "signup-confirm" (elems s) = Some cf ->
  closest_in form_group (elems s) nm = Some g1 ->
  closest_in form_group (elems s) em = Some g2 ->
  closest_in form_group (elems s) pw = Some g3 ->
  closest_in form_group (elems s) cf = Some g4 ->
  signupSubmit form s =
    (if accepted (v_confirm (val pw s) (val cf s)) &&
        (accepted (v_password (val pw s)) &&
         (accepted (v_email (val em s)) &&
          (accepted (v_required "Name is required" (val nm s)) && true)))
     then
       showAlert "success" (js "Account created successfully!");;;
       form_reset form
     else ret tt)
    (mark_all (form_marks s [(nm, v_required "Name is required" (val nm s));
                             (em, v_email (val em s));
                             (pw, v_password (val pw s));
                             (cf, v_confirm (val pw s) (val cf s))]) s).
Proof.
  intros Hnm Hem Hpw Hcf Hg1 Hg2 Hg3 Hg4. unfold signupSubmit.
  run_get Hnm. run_get Hem. run_get Hpw. run_get Hcf.
  rewrite bind_deref_Some.
  run_block s (@nil (node * option node * Mark)) nm g1
    (v_required "Name is required" (val nm s)) true Hg1.
  cbn [app]. rewrite bind_deref_Some.
  match goal with |- bind _ _ (mark_all ?l _) = _ =>
    run_block s l em g2 (v_email (val em s))
      (accepted (v_required "Name is required" (val nm s)) && true) Hg2
  end.
  cbn [app]. rewrite bind_deref_Some.
  match goal with |- bind _ _ (mark_all ?l _) = _ =>
    run_block s l pw g3 (v_password (val pw s))
      (accepted (v_email (val em s)) &&
       (accepted (v_required "Name is required" (val nm s)) && true)) Hg3
  end.
  cbn [app]. rewrite bind_deref_Some.
  match goal with |- bind _ _ (mark_all ?l _) = _ =>
    run_block_with s l cf g4 (v_confirm (val pw s) (val cf s))
      (accepted (v_password (val pw s)) &&
       (accepted (v_email (val em s)) &&
        (accepted (v_required "Name is required" (val nm s)) && true))) Hg4
      ltac:(cbv beta; unfold judge, v_confirm;
            destruct (is_empty (trim (val cf s))); [reflexivity|];
            rewrite bind_deref_Some; unfold bind at 1, get_value, gets;
            rewrite val_mark_all;
            destruct (js_neq (val pw s) (val cf s)); reflexivity)
  end.
  cbn [app]. reflexivity.
Qed.

Lemma loginSubmit_run s form em pw g1 g2 :
  getElementById_in "login-email" (elems s) = Some em ->
  getElementById_in "login-password" (elems s) = Some pw ->
  closest_in form_group (elems s) em = Some g1 ->
  closest_in form_group (elems s) pw = Some g2 ->
  loginSubmit form s =
    (if accepted (v_required "Password is required" (val pw s)) &&
        (accepted (v_email (val em s)) && true)
     then
       showAlert "info" (js "Login functionality would be handled by your backend.")
     else ret tt)
    (mark_all (form_marks s [(em, v_email (val em s));
                             (pw, v_required "Password is required" (val pw s))]) s).
Proof.
  intros Hem Hpw Hg1 Hg2. unfold loginSubmit.
  run_get Hem. run_get Hpw.
  rewrite bind_deref_Some.
  run_block s (@nil (node * option node * Mark)) em g1 (v_email (val em s)) true Hg1.
  cbn [app]. rewrite bind_deref_Some.
  match goal with |- bind _ _ (mark_all ?l _) = _ =>
    run_block s l pw g2 (v_required "Password is required" (val pw s))
      (accepted (v_email (val em s)) && true) Hg2
  end.
  cbn [app]. reflexivity.
Qed.

Ltac split_fields Hall :=
  repeat match type of Hall with
         | Forall _ (_ :: _) =>
             let x := fresh "x" in let l := fresh "l" in
             let Hid := fresh "Hid" in let Hee := fresh "Hee" in
             let Hrest := fresh "Hrest" in
             inversion Hall as [|x l [Hid Hee] Hrest]; subst x l;
             clear Hall; rename Hrest into Hall; cbn [fst snd] in Hid, Hee
         end.

Ltac split_outcomes Hout :=
  repeat match type of Hout with
         | Forall _ (_ :: _) =>
             let x := fresh "x" in let l := fresh "l" in
             let H := fresh "Hfield" in let Hrest := fresh "Hrest" in
             inversion Hout as [|x l H Hrest]; subst x l;
             clear Hout; rename Hrest into Hout; cbn [fst snd] in H
         end.

(** The validation blocks of the three forms: what runs next, and what
    they leave on the page. *)
Lemma contact_blocks s form nm em sb ms :
  fields_ok s (contact_ids nm em sb ms) ->
  exists s1,
    contactSubmit form s =
      (if contact_valid (val nm s) (val em s) (val sb s) (val ms s) then
         showAlert "success"
           (js "Thank you! Your message has been sent successfully.");;;
         form_reset form;;;
         inputs <- querySelectorAll form controls;;
         forEach inputs clearValidation
       else ret tt) s1 /\
    (exists l, s1 = mark_all l s) /\
    appended s1 = appended s /\ fresh s1 = fresh s /\
    (forall k, val k s1 = val k s) /\
    field_outcome s nm (v_required "Name is required" (val nm s)) s1 /\
    field_outcome s em (v_email (val em s)) s1 /\
    field_outcome s sb (v_subject (val sb s)) s1 /\
    field_outcome s ms (v_message (val ms s)) s1.
Proof.
  intros Hok.
  set (F := [(nm, v_required "Name is required" (val nm s)); (em, v_email (val em s));
             (sb, v_subject (val sb s)); (ms, v_message (val ms s))]).
  destruct (form_fields_outcomes s (contact_ids nm em sb ms) F eq_refl
              ltac:(repeat constructor; cbn; intuition discriminate) Hok)
    as (Happ1 & Hfresh1 & Hval1 & Hout).
  destruct Hok as [Hall _]. unfold contact_ids in Hall. split_fields Hall.
  destruct (field_has_group _ _ Hee) as [g1 Hg1].
  destruct (field_has_group _ _ Hee0) as [g2 Hg2].
  destruct (field_has_group _ _ Hee1) as [g3 Hg3].
  destruct (field_has_group _ _ Hee2) as [g4 Hg4].
  exists (mark_all (form_marks s F) s).
  rewrite (contactSubmit_run s form nm em sb ms g1 g2 g3 g4) by assumption.
  rewrite contact_valid_accepted. fold F.
  split; [reflexivity|]. split; [eauto|].
  subst F. split_outcomes Hout. repeat (split; [assumption|]); assumption.
Qed.

Lemma accepted_password v :
  accepted (v_password v) = negb (blank v) && (8 <=? length v).
Proof.
  unfold v_password, validatePassword. rewrite trim_empty.
  destruct (blank v), (8 <=? length v); reflexivity.
Qed.

Lemma accepted_confirm p c :
  accepted (v_confirm p c) = negb (blank c) && bool_decide (p = c).
Proof.
  unfold v_confirm, js_neq. rewrite trim_empty.
  destruct (blank c), (bool_decide (p = c)); reflexivity.
Qed.

Lemma signup_valid_accepted nm em pw cf :
  accepted (v_confirm pw cf) &&
    (accepted (v_password pw) &&
      (accepted (v_email em) && (accepted (v_required "Name is required" nm) && true)))
  = signup_valid nm em pw cf.
Proof.
  unfold signup_valid.
  rewrite accepted_required, accepted_email, accepted_password, accepted_confirm.
  destruct (blank nm), (blank em), (validateEmail em), (blank pw),
    (8 <=? length pw), (blank cf), (bool_decide (pw = cf)); reflexivity.
Qed.

Lemma signup_blocks s form nm em pw cf :
  fields_ok s (signup_ids nm em pw cf) ->
  exists s1,
    signupSubmit form s =
      (if signup_valid (val nm s) (val em s) (val pw s) (val cf s) then
         showAlert "success" (js "Account created successfully!");;;
         form_reset form
       else ret tt) s1 /\
    (exists l, s1 = mark_all l s) /\
    appended s1 = appended s /\ fresh s1 = fresh s /\
    (forall k, val k s1 = val k s) /\
    field_outcome s nm (v_required "Name is required" (val nm s)) s1 /\
    field_outcome s em (v_email (val em s)) s1 /\
    field_outcome s pw (v_password (val pw s)) s1 /\
    field_outcome s cf (v_confirm (val pw s) (val cf s)) s1.
Proof.
  intros Hok.
  set (F := [(nm, v_required "Name is required" (val nm s)); (em, v_email (val em s));
             (pw, v_password (val pw s)); (cf, v_confirm (val pw s) (val cf s))]).
  destruct (form_fields_outcomes s (signup_ids nm em pw cf) F eq_refl
              ltac:(repeat constructor; cbn; intuition discriminate) Hok)
    as (Happ1 & Hfresh1 & Hval1 & Hout).
  destruct Hok as [Hall _]. unfold signup_ids in Hall. split_fields Hall.
  destruct (field_has_group _ _ Hee) as [g1 Hg1].
  destruct (field_has_group _ _ Hee0) as [g2 Hg2].
  destruct (field_has_group _ _ Hee1) as [g3 Hg3].
  destruct (field_has_group _ _ Hee2) as [g4 Hg4].
  exists (mark_all (form_marks s F) s).
  rewrite (signupSubmit_run s form nm em pw cf g1 g2 g3 g4) by assumption.
  rewrite signup_valid_accepted. fold F.
  split; [reflexivity|]. split; [eauto|].
  subst F. split_outcomes Hout. repeat (split; [assumption|]); assumption.
Qed.

Lemma login_blocks s form em pw :
  fields_ok s (login_ids em pw) ->
  exists s1,
    loginSubmit form s =
      (if accepted (v_required "Password is required" (val pw s)) &&
          (accepted (v_email (val em s)) && true)
       then
         showAlert "info" (js "Login functionality would be handled by your backend.")
       else ret tt) s1 /\
    (exists l, s1 = mark_all l s) /\
    appended s1 = appended s /\ fresh s1 = fresh s /\
    (forall k, val k s1 = val k s) /\
    field_outcome s em (v_email (val em s)) s1 /\
    field_outcome s pw (v_required "Password is required" (val pw s)) s1.
Proof.
  intros Hok.
  set (F := [(em, v_email (val em s));
             (pw, v_required "Password is required" (val pw s))]).
  destruct (form_fields_outcomes s (login_ids em pw) F eq_refl
              ltac:(repeat constructor; cbn; intuition discriminate) Hok)
    as (Happ1 & Hfresh1 & Hval1 & Hout).
  destruct Hok as [Hall _]. unfold login_ids in Hall. split_fields Hall.
  destruct (field_has_group _ _ Hee) as [g1 Hg1].
  destruct (field_has_group _ _ Hee0) as [g2 Hg2].
  exists (mark_all (form_marks s F) s).
  rewrite (loginSubmit_run s form em pw g1 g2) by assumption. fold F.
  split; [reflexivity|]. split; [eauto|].
  subst F. split_outcomes Hout. repeat (split; [assumption|]); assumption.
Qed.

End Signup.

(** ** What a submission does *)

Section FormRuns.

Implicit Types (s : Page) (n k e : node).

(** A valid submission of the contact form. *)
Lemma contact_valid_run s form nm em sb ms :
  fields_ok s (contact_ids nm em sb ms) ->
  Forall (fun n => is_Some (closest_in form_group (elems s) n))
         (querySelectorAll_in controls (elems s) form) ->
  contact_valid (val nm s) (val em s) (val sb s) (val ms s) = true ->
  exists s', contactSubmit form s = (Ok tt, s') /\
    fresh s' = S (fresh s) /\
    alerts s' = [(fresh s, AlertDiv (new_alert "success"
       (js "Thank you! Your message has been sent successfully.")))] /\
    (forall n, In n (querySelectorAll_in controls (elems s) form) ->
       val n s' = dflt n s /\ shows_neutral s n s').
Proof.
  intros Hok Hgroups Hv.
  destruct (contact_blocks s form nm em sb ms Hok)
    as (s1 & Hrun & [l ->] & Happ1 & Hfresh1 & Hval1 & _).
  rewrite Hv in Hrun.
  assert (Hgroups1 : Forall (fun n => is_Some (closest_in form_group
                                         (elems (mark_all l s)) n))
                            (querySelectorAll_in controls (elems (mark_all l s)) form)).
  { rewrite querySelectorAll_mark_all by apply shape_pred_controls.
    eapply Forall_impl; [|exact Hgroups]. cbv beta. intros n Hn.
    rewrite closest_mark_all by apply shape_pred_form_group. exact Hn. }
  rewrite (contact_finish_run _ form _ _ Hgroups1) in Hrun.
  destruct (contact_done_spec (mark_all l s) form "success"
              (js "Thank you! Your message has been sent successfully."))
    as (Hal & Hfr & Hin).
  eexists. split; [exact Hrun|].
  split; [rewrite Hfr, Hfresh1; reflexivity|].
  split; [rewrite Hal, Hfresh1; reflexivity|].
  intros n Hn. destruct (Hin n) as [Hval (Hne & Hns & Hsh)].
  { rewrite querySelectorAll_mark_all by apply shape_pred_controls. exact Hn. }
  split.
  - rewrite Hval. apply dflt_mark_all.
  - split; [exact Hne | split; [exact Hns|]]. intros e He. apply Hsh.
    rewrite error_element_mark_all. exact He.
Qed.

End FormRuns.

(** X20: a submission of the contact form, on a page where the four
    fields are in place, are controls of the form, and every control of
    the form sits in a form group, shows a success alert exactly when
    the four values are valid (name not blank; email not blank and
    matching the pattern; subject not empty; message not blank with a
    trimmed length of at least 10).  A valid submission creates that
    one alert, resets the controls of the form and leaves each of them
    neutral; an invalid one creates nothing, leaves the values, and
    marks each failing field as errored with its message displayed, the
    other fields as valid. *)
Theorem contact_submit_spec (s : Page) (form nm em sb ms : node) :
  fields_ok s (contact_ids nm em sb ms) ->
  Forall (fun n => is_Some (closest_in form_group (elems s) n))
         (querySelectorAll_in controls (elems s) form) ->
  incl [nm; em; sb; ms] (querySelectorAll_in controls (elems s) form) ->
  let valid := contact_valid (val nm s) (val em s) (val sb s) (val ms s) in
  exists s', contactSubmit form s = (Ok tt, s') /\
    created s s' = (if valid then 1 else 0) /\
    (valid = true ->
       alerts s' = [(fresh s, AlertDiv (mkAlert ["custom-alert"; "alert-success"]%string
          (js "Thank you! Your message has been sent successfully.")
          (Some ("#dcfce7", "#166534", "1px solid #10b981")%string)))] /\
       (forall n, In n (querySelectorAll_in controls (elems s) form) ->
          val n s' = dflt n s /\ shows_neutral s n s') /\
       Forall (fun n => val n s' = dflt n s /\ shows_neutral s n s') [nm; em; sb; ms]) /\
    (valid = false ->
       appended s' = appended s /\ (forall k, val k s' = val k s) /\
       field_outcome s nm (v_required "Name is required" (val nm s)) s' /\
       field_outcome s em (v_email (val em s)) s' /\
       field_outcome s sb (v_subject (val sb s)) s' /\
       field_outcome s ms (v_message (val ms s)) s' /\
       (blank (val nm s) = true -> exists m, shows_error s nm m s') /\
       (blank (val em s) = true \/ validateEmail (val em s) = false ->
          exists m, shows_error s em m s') /\
       (is_empty (val sb s) = true -> exists m, shows_error s sb m s') /\
       (blank (val ms s) = true \/ length (trim (val ms s)) < 10 ->
          exists m, shows_error s ms m s')).
Proof.
  intros Hok Hgroups Hincl valid.
  destruct valid eqn:Ev.
  - destruct (contact_valid_run s form nm em sb ms Hok Hgroups Ev)
      as (s' & Hrun & Hfr & Hal & Hinputs).
    exists s'. split; [exact Hrun|].
    split; [unfold created; rewrite Hfr; lia|].
    split; [|intros; discriminate].
    intros _. split; [exact Hal|]. split; [exact Hinputs|].
    apply Forall_forall. intros n Hn. apply Hinputs, Hincl, Hn.
  - destruct (contact_blocks s form nm em sb ms Hok)
      as (s1 & Hrun & _ & Happ1 & Hfresh1 & Hval1 & H1 & H2 & H3 & H4).
    fold valid in Hrun. rewrite Ev in Hrun.
    exists s1. split; [exact Hrun|].
    split; [unfold created; rewrite Hfresh1; lia|].
    split; [intros; discriminate|]. intros _.
    split; [exact Happ1|]. split; [exact Hval1|].
    do 4 (split; [assumption|]).
    split; [|split; [|split]].
    + intros Hb. unfold v_required in H1. rewrite trim_empty, Hb in H1.
      eexists. exact H1.
    + intros Hb. unfold v_email in H2. rewrite trim_empty in H2.
      destruct (blank (val em s)); [eexists; exact H2|].
      destruct Hb as [Hb|Hb]; [discriminate|]. rewrite Hb in H2.
      eexists. exact H2.
    + intros Hb. unfold v_subject in H3. rewrite Hb in H3. eexists. exact H3.
    + intros Hb. unfold v_message in H4. rewrite trim_empty in H4.
      destruct (blank (val ms s)); [eexists; exact H4|].
      destruct Hb as [Hb|Hb]; [discriminate|].
      apply Nat.ltb_lt in Hb. rewrite Hb in H4. eexists. exact H4.
Qed.



(** The facts about a concrete page that the theorems ask for. *)
Ltac page_facts :=
  repeat match goal with
         | |- fields_ok _ _ => split
         | |- fields_controls _ _ => unfold fields_controls
         | |- Forall _ (_ :: _) => constructor; cbv beta
         | |- Forall _ [] => constructor
         | |- Forall ?P ?l =>
             let l' := eval vm_compute in l in change (Forall P l')
         | |- _ /\ _ => split
         | |- is_Some _ => eexists; vm_compute; reflexivity
         | |- List.NoDup _ => vm_compute; repeat constructor
         | |- incl _ ?l =>
             let l' := eval vm_compute in l in
             change l with l'; intros ? ?; cbn in *; intuition idtac
         | |- ~ _ => cbn; intuition discriminate
         | |- _ = _ => vm_compute; reflexivity
         end.

Lemma contact_submit_spec_witness :
  let s := contact_filled "Jane" "jane@x.com" "General" "short msg" in
  exists s', contactSubmit 0 s = (Ok tt, s') /\
    created s s' = 0 /\ appended s' = [] /\
    shows_success s 2 s' /\ shows_success s 5 s' /\ shows_success s 8 s' /\
    shows_error s 11 (js "Message must be at least 10 characters") s'.
Proof.
  intros s.
  destruct (contact_submit_spec s 0 2 5 8 11) as (s' & Hrun & Hc & _ & Hinv);
    [unfold s, contact_ids; page_facts ..|].
  assert (Hv : contact_valid (val 2 s) (val 5 s) (val 8 s) (val 11 s) = false)
    by (vm_compute; reflexivity).
  rewrite Hv in Hc. destruct (Hinv Hv) as (Happ & _ & H1 & H2 & H3 & H4 & _).
  assert (E1 : v_required "Name is required" (val 2 s) = None)
    by (vm_compute; reflexivity).
  assert (E2 : v_email (val 5 s) = None) by (vm_compute; reflexivity).
  assert (E3 : v_subject (val 8 s) = None) by (vm_compute; reflexivity).
  assert (E4 : v_message (val 11 s)
               = Some (js "Message must be at least 10 characters"))
    by (vm_compute; reflexivity).
  rewrite E1 in H1. rewrite E2 in H2. rewrite E3 in H3. rewrite E4 in H4.
  exists s'. repeat (split; [assumption|]). exact H4.
Defined.

(** C1: the claim fails where the contact form holds a control outside
    of any form group.  With a hidden input directly inside the form
    and four valid values, the listener shows the success alert and
    resets the form, then the loop that clears the validation states
    throws a [TypeError] at its first control, the hidden input: the
    four fields are back at their default values but still carry the
    class [success]; none of them is neutral. *)
Theorem contact_clearing_stops_without_form_group :
  let s := hidden_filled "Jane" "jane@x.com" "General"
                         "Hello there, this is long enough." in
  let s' := after (contactSubmit 0) s in
  contact_valid (val 3 s) (val 6 s) (val 9 s) (val 12 s) = true /\
  querySelectorAll_in controls (elems s) 0 = [1; 3; 6; 9; 12] /\
  closest_in form_group (elems s) 1 = None /\
  fst (contactSubmit 0 s) = Throw TypeError /\
  alerts s' = [(0, AlertDiv (mkAlert ["custom-alert"; "alert-success"]%string
                     (js "Thank you! Your message has been sent successfully.")
                     (Some ("#dcfce7", "#166534", "1px solid #10b981")%string)))] /\
  map (fun n => val n s') [3; 6; 9; 12] = [[]; []; []; []] /\
  map (fun n => classes n s') [3; 6; 9; 12]
    = [["success"]; ["success"]; ["success"]; ["success"]]%string /\
  map (fun n => in_state Neutral n s') [3; 6; 9; 12] = [false; false; false; false].
Proof. vm_compute. repeat split. Qed.

Section RawEmail.

(** An email value with white space around a well-formed address is
    not blank, and the pattern refuses it. *)
Lemma untrimmed_email_verdict v :
  validateEmail (trim v) = true -> trim v <> v ->
  v_email v = Some (js "Please enter a valid email").
Proof.
  intros Hok Hne. unfold v_email.
  assert (He : is_empty (trim v) = false).
  { destruct (trim v); [discriminate Hok | reflexivity]. }
  rewrite He.
  assert (Hv : validateEmail v = false).
  { destruct (validateEmail v) eqn:E; [|reflexivity].
    apply trim_changes_space in Hne as (c & Hin & Hc).
    rewrite (validateEmail_no_space v c E Hin) in Hc. discriminate. }
  rewrite Hv. reflexivity.
Qed.

Lemma contact_invalid_email nm em sb ms :
  accepted (v_email em) = false -> contact_valid nm em sb ms = false.
Proof.
  intros H. rewrite <- contact_valid_accepted, H.
  destruct (accepted (v_message ms)), (accepted (v_subject sb)); reflexivity.
Qed.

Lemma signup_invalid_email nm em pw cf :
  accepted (v_email em) = false -> signup_valid nm em pw cf = false.
Proof.
  intros H. rewrite <- signup_valid_accepted, H.
  destruct (accepted (v_confirm pw cf)), (accepted (v_password pw)); reflexivity.
Qed.

Lemma signup_invalid_password nm em pw cf :
  accepted (v_password pw) = false -> signup_valid nm em pw cf = false.
Proof.
  intros H. rewrite <- signup_valid_accepted, H.
  destruct (accepted (v_confirm pw cf)); reflexivity.
Qed.

Lemma signup_invalid_confirm nm em pw cf :
  accepted (v_confirm pw cf) = false -> signup_valid nm em pw cf = false.
Proof. intros H. rewrite <- signup_valid_accepted, H. reflexivity. Qed.

End RawEmail.

(** C8: the three forms test the email pattern on the raw field value.
    An email value whose trimmed form matches the pattern but which
    starts or ends with white space is refused by each form (its fields
    being in place and form controls) with the message "Please enter a
    valid email", and no alert is created. *)
Theorem email_pattern_on_raw_value (v : jsstring) :
  validateEmail (trim v) = true -> trim v <> v ->
  validateEmail v = false /\
  (forall s form nm em sb ms,
     fields_ok s (contact_ids nm em sb ms) ->
     fields_controls s (contact_ids nm em sb ms) -> val em s = v ->
     exists s', contactSubmit form s = (Ok tt, s') /\ created s s' = 0 /\
                shows_error s em (js "Please enter a valid email") s') /\
  (forall s form em pw,
     fields_ok s (login_ids em pw) ->
     fields_controls s (login_ids em pw) -> val em s = v ->
     exists s', loginSubmit form s = (Ok tt, s') /\ created s s' = 0 /\
                shows_error s em (js "Please enter a valid email") s') /\
  (forall s form nm em pw cf,
     fields_ok s (signup_ids nm em pw cf) ->
     fields_controls s (signup_ids nm em pw cf) -> val em s = v ->
     exists s', signupSubmit form s = (Ok tt, s') /\ created s s' = 0 /\
                shows_error s em (js "Please enter a valid email") s').
Proof.
  intros Hok Hne. pose proof (untrimmed_email_verdict v Hok Hne) as Hv.
  split; [|split; [|split]].
  - unfold v_email in Hv. destruct (is_empty (trim v)); [discriminate|].
    destruct (validateEmail v); [discriminate | reflexivity].
  - intros s form nm em sb ms Hf _ <-.
    destruct (contact_blocks s form nm em sb ms Hf)
      as (s1 & Hrun & _ & _ & Hfresh & _ & _ & H2 & _).
    rewrite contact_invalid_email in Hrun by (rewrite Hv; reflexivity).
    rewrite Hv in H2. exists s1. split; [exact Hrun|].
    split; [unfold created; rewrite Hfresh; lia | exact H2].
  - intros s form em pw Hf _ <-.
    destruct (login_blocks s form em pw Hf) as (s1 & Hrun & _ & _ & Hfresh & _ & H1 & _).
    rewrite Hv in Hrun, H1. cbn [accepted] in Hrun. rewrite andb_false_r in Hrun.
    exists s1. split; [exact Hrun|].
    split; [unfold created; rewrite Hfresh; lia | exact H1].
  - intros s form nm em pw cf Hf _ <-.
    destruct (signup_blocks s form nm em pw cf Hf)
      as (s1 & Hrun & _ & _ & Hfresh & _ & _ & H2 & _).
    rewrite signup_invalid_email in Hrun by (rewrite Hv; reflexivity).
    rewrite Hv in H2. exists s1. split; [exact Hrun|].
    split; [unfold created; rewrite Hfresh; lia | exact H2].
Qed.

Lemma email_pattern_on_raw_value_witness :
  let s := login_filled " jane@x.com" "secret" in
  exists s', loginSubmit 13 s = (Ok tt, s') /\ created s s' = 0 /\
             shows_error s 15 (js "Please enter a valid email") s'.
Proof.
  intros s.
  apply (proj1 (proj2 (proj2 (email_pattern_on_raw_value (js " jane@x.com")
           ltac:(vm_compute; reflexivity) ltac:(vm_compute; discriminate))))
         s 13 15 18).
  - unfold s, login_ids. page_facts.
  - unfold s, login_ids. page_facts.
  - vm_compute. reflexivity.
Defined.

(** C4, as amended: on a page where the four signup fields are in
    place and are form controls, a signup password shorter than 8 is
    refused, with the length message when it is not blank and with
    "Password is required" when it is blank; and when password and
    confirmation are different non-empty strings the confirmation is
    refused.  Nothing is created in either case. *)
Theorem signup_rejects_short_or_unconfirmed (s : Page) (form nm em pw cf : node) :
  fields_ok s (signup_ids nm em pw cf) ->
  fields_controls s (signup_ids nm em pw cf) ->
  exists s', signupSubmit form s = (Ok tt, s') /\
    (length (val pw s) < 8 ->
       created s s' = 0 /\
       shows_error s pw
         (if blank (val pw s) then js "Password is required"
          else js "Password must be at least 8 characters") s') /\
    (val pw s <> val cf s -> val pw s <> [] -> val cf s <> [] ->
       created s s' = 0 /\
       shows_error s cf
         (if blank (val cf s) then js "Please confirm your password"
          else js "Passwords do not match") s').
Proof.
  intros Hf _.
  destruct (signup_blocks s form nm em pw cf Hf)
    as (s1 & Hrun & _ & _ & Hfresh & _ & _ & _ & H3 & H4).
  assert (Hshort : length (val pw s) < 8 ->
            v_password (val pw s) =
              Some (if blank (val pw s) then js "Password is required"
                    else js "Password must be at least 8 characters")).
  { intros Hlt. unfold v_password, validatePassword. rewrite trim_empty.
    destruct (blank (val pw s)); [reflexivity|].
    apply Nat.leb_gt in Hlt. rewrite Hlt. reflexivity. }
  assert (Hdiff : val pw s <> val cf s ->
            v_confirm (val pw s) (val cf s) =
              Some (if blank (val cf s) then js "Please confirm your password"
                    else js "Passwords do not match")).
  { intros Hne. unfold v_confirm, js_neq. rewrite trim_empty.
    destruct (blank (val cf s)); [reflexivity|].
    rewrite bool_decide_eq_false_2 by exact Hne. reflexivity. }
  destruct (signup_valid (val nm s) (val em s) (val pw s) (val cf s)) eqn:Ev.
  - (* both parts are vacuous on a valid form *)
    rewrite (bind_run _ _ s1 tt _ (showAlert_run _ _ _)) in Hrun.
    rewrite form_reset_run in Hrun.
    eexists. split; [exact Hrun|]. split.
    + intros Hlt. rewrite signup_invalid_password in Ev; [discriminate|].
      rewrite (Hshort Hlt). reflexivity.
    + intros Hne _ _. rewrite signup_invalid_confirm in Ev; [discriminate|].
      rewrite (Hdiff Hne). reflexivity.
  - exists s1. split; [exact Hrun|]. split.
    + intros Hlt. rewrite (Hshort Hlt) in H3.
      split; [unfold created; rewrite Hfresh; lia | exact H3].
    + intros Hne _ _. rewrite (Hdiff Hne) in H4.
      split; [unfold created; rewrite Hfresh; lia | exact H4].
Qed.

Lemma signup_rejects_short_or_unconfirmed_witness :
  let s := signup_filled "Jane" "jane@x.com" "abc" "abd" in
  exists s', signupSubmit 20 s = (Ok tt, s') /\
    created s s' = 0 /\
    shows_error s 28 (js "Password must be at least 8 characters") s' /\
    shows_error s 31 (js "Passwords do not match") s'.
Proof.
  intros s.
  destruct (signup_rejects_short_or_unconfirmed s 20 22 25 28 31)
    as (s' & Hrun & Hshort & Hdiff); [unfold s, signup_ids; page_facts ..|].
  destruct Hshort as [Hc H3]; [vm_compute; lia|].
  destruct Hdiff as [_ H4]; [vm_compute; discriminate ..|].
  exists s'. repeat (split; [assumption|]). exact H4.
Defined.

(** The claim C4 as it is stated fails on a blank password: the
    password [""] is shorter than 8 and is refused with "Password is
    required", which is not the length message. *)
Lemma signup_blank_password_not_length_message :
  let s := signup_filled "Jane" "jane@x.com" "" "" in
  let s' := after (signupSubmit 20) s in
  length (val 28 s) < 8 /\
  error_element s 28 = Some 29 /\
  cls "error" 28 s' = true /\
  txt 29 s' = js "Password is required" /\
  txt 29 s' <> js "Password must be at least 8 characters".
Proof.
  vm_compute. repeat split; [lia | discriminate].
Qed.

(** C9: a valid signup submission shows the success alert and resets
    the controls of the form, and the four fields keep the [success]
    class: they are in the success state, not neutral; whereas a valid
    contact submission leaves its four fields neutral. *)
Theorem signup_keeps_success_after_reset :
  (forall (s : Page) (form nm em pw cf : node),
     fields_ok s (signup_ids nm em pw cf) ->
     signup_valid (val nm s) (val em s) (val pw s) (val cf s) = true ->
     exists s', signupSubmit form s = (Ok tt, s') /\
       alerts s' = [(fresh s, AlertDiv (new_alert "success"
                      (js "Account created successfully!")))] /\
       (forall n, In n (querySelectorAll_in controls (elems s) form) ->
                  val n s' = dflt n s) /\
       Forall (fun n => in_state Success n s' = true /\
                        in_state Error n s' = false /\
                        in_state Neutral n s' = false) [nm; em; pw; cf]) /\
  (forall (s : Page) (form nm em sb ms : node),
     fields_ok s (contact_ids nm em sb ms) ->
     Forall (fun n => is_Some (closest_in form_group (elems s) n))
            (querySelectorAll_in controls (elems s) form) ->
     incl [nm; em; sb; ms] (querySelectorAll_in controls (elems s) form) ->
     contact_valid (val nm s) (val em s) (val sb s) (val ms s) = true ->
     exists s', contactSubmit form s = (Ok tt, s') /\
       Forall (fun n => in_state Neutral n s' = true /\
                        in_state Success n s' = false) [nm; em; sb; ms]).
Proof.
  split.
  { intros s form nm em pw cf Hf Hv.
  destruct (signup_blocks s form nm em pw cf Hf)
    as (s1 & Hrun & [l ->] & Happ & Hfresh & Hval & H1 & H2 & H3 & H4).
  rewrite Hv in Hrun.
  rewrite (bind_run _ _ _ tt _ (showAlert_run _ _ _)) in Hrun.
  rewrite form_reset_run in Hrun.
  rewrite <- signup_valid_accepted in Hv.
  apply andb_prop in Hv as [Hv4 Hv]. apply andb_prop in Hv as [Hv3 Hv].
  apply andb_prop in Hv as [Hv2 Hv]. apply andb_prop in Hv as [Hv1 _].
  destruct (v_required "Name is required" (val nm s)); [discriminate|].
  destruct (v_email (val em s)); [discriminate|].
  destruct (v_password (val pw s)); [discriminate|].
  destruct (v_confirm (val pw s) (val cf s)); [discriminate|].
  set (s2 := alert_shown "success" (js "Account created successfully!") (mark_all l s)) in *.
  set (inputs := querySelectorAll_in controls (elems s2) form) in *.
  eexists. split; [exact Hrun|].
  assert (Hrest : appended (reset_all inputs s2) = appended s2 /\
                  fresh (reset_all inputs s2) = fresh s2 /\
                  timers (reset_all inputs s2) = timers s2 /\
                  platform (reset_all inputs s2) = platform s2).
  { apply (reset_all_stable (fun s' => appended s' = _ /\ fresh s' = _ /\
                                       timers s' = _ /\ platform s' = _));
      [apply stable_rest | auto]. }
  destruct Hrest as (Happ2 & _).
  assert (Hinputs : inputs = querySelectorAll_in controls (elems s) form).
  { unfold inputs, s2. cbn [elems alert_shown].
    apply querySelectorAll_mark_all, shape_pred_controls. }
  split; [|split].
  - unfold alerts at 1. rewrite Happ2. unfold s2.
    rewrite <- Hfresh. apply alerts_alert_shown.
  - intros n Hn. rewrite <- Hinputs in Hn.
    rewrite val_reset_all_in by exact Hn.
    unfold s2. change (dflt n (alert_shown ?t ?m ?x)) with (dflt n x).
    apply dflt_mark_all.
  - assert (Hcls : forall c n, cls c n (reset_all inputs s2) = cls c n (mark_all l s)).
    { intros c n. rewrite cls_reset_all. reflexivity. }
    repeat constructor; cbn [in_state]; rewrite !Hcls;
      match goal with
      | H : field_outcome s ?n None _ |- context [cls _ ?n _] =>
          destruct H as (Hs & He & _); rewrite ?Hs, ?He; reflexivity
      end.
}
  intros s form nm em sb ms Hf Hgroups Hincl Hv.
  destruct (contact_valid_run s form nm em sb ms Hf Hgroups Hv)
    as (s' & Hrun & _ & _ & Hinputs).
  exists s'. split; [exact Hrun|].
  apply Forall_forall. intros n Hn.
  destruct (Hinputs n (Hincl n Hn)) as [_ (He & Hs & _)].
  cbn [in_state]. rewrite He, Hs. auto.
Qed.

Lemma signup_keeps_success_after_reset_witness :
  let s := signup_filled "Jane" "jane@x.com" "Aaaaaaaa1!" "Aaaaaaaa1!" in
  exists s', signupSubmit 20 s = (Ok tt, s') /\
    length (alerts s') = 1 /\
    val 28 s' = [] /\
    Forall (fun n => in_state Success n s' = true /\
                     in_state Error n s' = false /\
                     in_state Neutral n s' = false) [22; 25; 28; 31].
Proof.
  intros s.
  destruct (proj1 signup_keeps_success_after_reset s 20 22 25 28 31)
    as (s' & Hrun & Hal & Hval & Hst);
    [unfold s, signup_ids; page_facts | vm_compute; reflexivity |].
  exists s'. split; [exact Hrun|]. split; [rewrite Hal; reflexivity|].
  split; [|exact Hst].
  rewrite Hval; [vm_compute; reflexivity|].
  vm_compute. intuition idtac.
Defined.

(** ** The strength indicator on the page *)

Section Indicator.

Implicit Types (s : Page) (n k : node).

Lemma strengthClass_not_bar n : strengthClass n <> "password-strength-bar"%string.
Proof.
  unfold strengthClass. destruct (n <=? 1); [discriminate|].
  destruct (n <=? 3); discriminate.
Qed.

Lemma updatePasswordStrength_run s bar cont p :
  getElementById_in "password-strength-bar" (elems s) = Some bar ->
  getElementById_in "password-strength" (elems s) = Some cont ->
  p <> [] ->
  updatePasswordStrength p s =
    (Ok tt, upd bar (el_add (strengthClass (passwordStrength p)))
              (upd bar (set_classList ["password-strength-bar"%string])
                 (upd cont (el_add "show") s))).
Proof.
  intros Hbar Hcont Hp. unfold updatePasswordStrength.
  run_get Hbar. run_get Hcont.
  destruct p as [|c p]; [congruence|]. reflexivity.
Qed.

Lemma classes_bar_updated s bar cont c :
  bar < length (elems s) -> c <> "password-strength-bar"%string ->
  classes bar (upd bar (el_add c)
                 (upd bar (set_classList ["password-strength-bar"%string])
                    (upd cont (el_add "show") s)))
  = ["password-strength-bar"%string; c].
Proof.
  intros Hbar Hc. unfold classes. rewrite !lookup_upd.
  rewrite !(decide_True (P := bar = bar)) by reflexivity.
  apply lookup_lt_is_Some in Hbar as [e ->]. cbn.
  unfold token_add. rewrite bool_decide_eq_false_2; [reflexivity|].
  intros H. apply list_elem_of_singleton in H. contradiction.
Qed.

End Indicator.

(** C3: the strength score is one point for each of: length of at least
    8, a lower-case together with an upper-case letter, a digit, a
    character that is neither; it is at most 4; scores 0 and 1 give the
    class weak, 2 and 3 medium, 4 strong, which is the class the bar
    receives for a non-empty password; among passwords of length at
    least 8 the score does not decrease when character classes are
    added; and "aaaaaaaa" is weak, "Aaaaaaaa1" medium, "Aaaaaaaa1!"
    strong. *)
Theorem password_strength_spec :
  (forall p, passwordStrength p = score_points p /\ passwordStrength p <= 4) /\
  (strengthClass 0 = "strength-weak"%string /\
   strengthClass 1 = "strength-weak"%string /\
   strengthClass 2 = "strength-medium"%string /\
   strengthClass 3 = "strength-medium"%string /\
   strengthClass 4 = "strength-strong"%string) /\
  (forall p q, 8 <= length p -> 8 <= length q -> diversity_le p q ->
               passwordStrength p <= passwordStrength q) /\
  (forall s bar cont p,
     getElementById_in "password-strength-bar" (elems s) = Some bar ->
     getElementById_in "password-strength" (elems s) = Some cont ->
     p <> [] ->
     exists s', updatePasswordStrength p s = (Ok tt, s') /\
       classes bar s' = ["password-strength-bar"%string;
                         strengthClass (passwordStrength p)] /\
       cls "show" cont s' = true) /\
  (strengthClass (passwordStrength (js "aaaaaaaa")) = "strength-weak"%string /\
   strengthClass (passwordStrength (js "Aaaaaaaa1")) = "strength-medium"%string /\
   strengthClass (passwordStrength (js "Aaaaaaaa1!")) = "strength-strong"%string).
Proof.
  split; [|split; [|split; [|split]]].
  - intros p. split; [apply passwordStrength_points | apply passwordStrength_le_4].
  - repeat split.
  - intros p q Hp Hq Hd. rewrite !passwordStrength_points.
    apply score_points_mono; assumption.
  - intros s bar cont p Hbar Hcont Hp.
    rewrite (updatePasswordStrength_run s bar cont p Hbar Hcont Hp).
    eexists. split; [reflexivity|]. split.
    + apply classes_bar_updated; [|apply strengthClass_not_bar].
      eapply getElementById_valid, Hbar.
    + assert (Hne : cont <> bar).
      { eapply getElementById_ne; [exact Hcont | exact Hbar | discriminate]. }
      rewrite !cls_upd_ne by exact Hne. apply cls_upd_add.
      eapply getElementById_valid, Hcont.
  - vm_compute. auto.
Qed.

Lemma password_strength_spec_witness :
  passwordStrength (js "aaaaaaaa") <= passwordStrength (js "Aaaaaaaa1") /\
  exists s', updatePasswordStrength (js "Aaaaaaaa1") sample_page = (Ok tt, s') /\
    classes 34 s' = ["password-strength-bar"; "strength-medium"]%string /\
    cls "show" 33 s' = true.
Proof.
  destruct password_strength_spec as (_ & _ & Hmono & Hbar & _).
  split.
  - apply Hmono; [vm_compute; lia | vm_compute; lia |].
    repeat split; vm_compute; congruence.
  - apply (Hbar sample_page 34 33 (js "Aaaaaaaa1"));
      [vm_compute; reflexivity | vm_compute; reflexivity | discriminate].
Defined.

(** ** Copy to clipboard *)

Section Clipboard.

Implicit Types (s : Page) (text : jsstring).

Lemma fallbackCopy_run text s : fallbackCopy text s = (Ok tt, fallback_done text s).
Proof.
  unfold fallbackCopy, fallback_done, bind, createElement, appendChild, modify,
    try_catch, execCommand_copy, remove_created.
  cbn [platform with_appended with_fresh].
  destruct (exec_copy (platform s)) as [b|]; rewrite showAlert_run; reflexivity.
Qed.

Lemma alerts_without_created id s :
  alerts (without_created id s) = List.filter (fun c => negb (fst c =? id)) (alerts s).
Proof. unfold alerts, without_created. cbn. apply filter_comm. Qed.

(** After [fallbackCopy] the toast is the only alert, and the textarea
    has left the body. *)
Lemma fallback_done_spec text s :
  alerts (fallback_done text s)
    = [(S (fresh s), AlertDiv (new_alert (fst (fallback_toast (exec_copy (platform s))))
                                         (snd (fallback_toast (exec_copy (platform s))))))] /\
  has_textarea (fresh s) (fallback_done text s) = false.
Proof.
  unfold fallback_done. split.
  - rewrite alerts_without_created, alerts_alert_shown. cbn [List.filter fst fresh with_textarea].
    replace (S (fresh s) =? fresh s) with false; [reflexivity|].
    symmetry. apply Nat.eqb_neq. lia.
  - unfold has_textarea, without_created. cbn [appended with_appended].
    destruct (existsb _ _) eqn:E; [|reflexivity].
    apply existsb_exists in E as (c & Hin & Hc).
    apply filter_In in Hin as [_ Hid].
    apply andb_prop in Hc as [Hc _]. rewrite Hc in Hid. discriminate.
Qed.

End Clipboard.

(** C7: for each of the two copy triggers, a click that has a text to
    copy, where the clipboard is usable, starts the asynchronous write
    and leaves a promise; when the write is rejected the rejection is
    handled by running the fallback copy on the same text; no exception
    escapes; if the fallback's copy command throws, the error toast
    (classes [custom-alert alert-error], text "Failed to copy") is the
    alert of the document afterwards, and if it returns, the success
    toast (classes [custom-alert alert-success], text "Copied to
    clipboard!") is. *)
Theorem clipboard_rejection_falls_back (t : CopyTrigger) (s : Page) (text : jsstring) :
  copy_payload t s = Some text -> usable s = true ->
  exists p, copyClick t s = (Ok (Some p), s) /\
    forall s2,
      settle p Rejected s2 = fallbackCopy text s2 /\
      exists s', settle p Rejected s2 = (Ok tt, s') /\
        has_textarea (fresh s2) s' = false /\
        match exec_copy (platform s2) with
        | ExecThrows =>
            alerts s' = [(S (fresh s2),
                          AlertDiv (mkAlert ["custom-alert"; "alert-error"]%string
                            (js "Failed to copy")
                            (Some ("#fee2e2", "#991b1b", "1px solid #ef4444")%string)))]
        | ExecReturns _ =>
            alerts s' = [(S (fresh s2),
                          AlertDiv (mkAlert ["custom-alert"; "alert-success"]%string
                            (js "Copied to clipboard!")
                            (Some ("#dcfce7", "#166534", "1px solid #10b981")%string)))]
        end.
Proof.
  intros Hpay Hus. unfold usable in Hus.
  assert (Hclick : exists p, copyClick t s = (Ok (Some p), s) /\
                             onRejected p = fallbackCopy text).
  { destruct t as [text0|button]; cbn [copyClick copy_payload] in *.
    - injection Hpay as ->. unfold dataCopyClick, bind, clipboard_usable, gets.
      rewrite Hus. eexists. split; reflexivity.
    - unfold keyCopyClick, bind, closest, querySelector, get_textContent, gets.
      destruct (closest_in (sel_class "key-item") (elems s) button) as [keyItem|];
        [|discriminate].
      destruct (querySelector_in (sel_class "key-value") (elems s) keyItem)
        as [keyValue|]; [|discriminate].
      injection Hpay as <-.
      unfold copyToClipboard, bind, clipboard_usable, gets. rewrite Hus.
      eexists. split; reflexivity. }
  destruct Hclick as (p & Hclick & Hrej).
  exists p. split; [exact Hclick|]. intros s2.
  cbn [settle]. rewrite Hrej. split; [reflexivity|].
  rewrite fallbackCopy_run. eexists. split; [reflexivity|].
  destruct (fallback_done_spec text s2) as [Hal Htx].
  split; [exact Htx|].
  destruct (exec_copy (platform s2)); exact Hal.
Qed.

Lemma clipboard_rejection_falls_back_witness :
  (exists p s',
     copyClick (DataCopy (js "sk_live_abc123")) sample_throwing
       = (Ok (Some p), sample_throwing) /\
     settle p Rejected sample_throwing = (Ok tt, s') /\
     alerts s' = [(1, AlertDiv (mkAlert ["custom-alert"; "alert-error"]%string
                         (js "Failed to copy")
                         (Some ("#fee2e2", "#991b1b", "1px solid #ef4444")%string)))]) /\
  (exists p s',
     copyClick (KeyCopy 37) sample_page = (Ok (Some p), sample_page) /\
     settle p Rejected sample_page = (Ok tt, s') /\
     alerts s' = [(1, AlertDiv (mkAlert ["custom-alert"; "alert-success"]%string
                         (js "Copied to clipboard!")
                         (Some ("#dcfce7", "#166534", "1px solid #10b981")%string)))]).
Proof.
  split.
  - destruct (clipboard_rejection_falls_back (DataCopy (js "sk_live_abc123"))
                sample_throwing (js "sk_live_abc123") eq_refl eq_refl)
      as (p & Hclick & H).
    destruct (H sample_throwing) as (_ & s' & Hrun & _ & Hal).
    exists p, s'. split; [exact Hclick|]. split; [exact Hrun | exact Hal].
  - destruct (clipboard_rejection_falls_back (KeyCopy 37) sample_page
                (js "sk_live_abc123") eq_refl eq_refl)
      as (p & Hclick & H).
    destruct (H sample_page) as (_ & s' & Hrun & _ & Hal).
    exists p, s'. split; [exact Hclick|]. split; [exact Hrun | exact Hal].
Defined.

(** ** The examples of the specification, run on the sample document *)

Section Examples.

(** A valid contact submission: one success alert, the four fields
    reset and without validation class, their error messages hidden. *)
Example contact_valid_example :
  let s := contact_filled "Jane" "jane@x.com" "General"
                          "Hello there, this is long enough." in
  let s' := after (contactSubmit 0) s in
  fst (contactSubmit 0 s) = Ok tt /\
  map snd (alerts s') =
    [AlertDiv (new_alert "success"
       (js "Thank you! Your message has been sent successfully."))] /\
  map (fun n => (val n s', classes n s')) [2; 5; 8; 11]
    = [([], []); ([], []); ([], []); ([], [])] /\
  map (fun n => cls "show" n s') [3; 6; 9; 12] = [false; false; false; false].
Proof. vm_compute. auto. Qed.

(** A message of length 9: an error on the message field only, and no
    alert. *)
Example contact_short_message_example :
  let s := contact_filled "Jane" "jane@x.com" "General" "short msg" in
  let s' := after (contactSubmit 0) s in
  alerts s' = [] /\
  map (fun n => classes n s') [2; 5; 8; 11]
    = [["success"]; ["success"]; ["success"]; ["error"]]%string /\
  map (fun n => cls "show" n s') [3; 6; 9; 12] = [false; false; false; true] /\
  txt 12 s' = js "Message must be at least 10 characters".
Proof. vm_compute. auto. Qed.

(** A copy in a secure context whose write is fulfilled: a success
    toast, and the fallback does not run (no textarea was created). *)
Example copy_fulfilled_example :
  match fst (dataCopyClick (js "sk_live_abc123") sample_page) with
  | Ok (Some p) =>
      let s' := after (settle p Fulfilled) sample_page in
      alerts s' = [(0, AlertDiv (new_alert "success" (js "Copied to clipboard!")))] /\
      fresh s' = 1
  | _ => False
  end.
Proof. vm_compute. auto. Qed.

(** An empty password hides the indicator. *)
Example strength_hidden_example :
  cls "show" 33 (after (updatePasswordStrength [])
                   (after (updatePasswordStrength (js "abc")) sample_page)) = false.
Proof. vm_compute. reflexivity. Qed.

End Examples.

(** * Further properties of the script *)

(** ** The mobile menu *)

Section MobileMenu.

Implicit Types (s : Page) (m : Menu) (n k : node).

Lemma keeps_shape_toggle c : dynamic c = true -> keeps_shape (el_toggle c).
Proof.
  intros Hc e. unfold el_toggle.
  destruct (sel_class c e); [apply keeps_shape_remove | apply keeps_shape_add]; exact Hc.
Qed.

Lemma sel_class_toggle c e : sel_class c (el_toggle c e) = negb (sel_class c e).
Proof.
  unfold el_toggle. destruct (sel_class c e) eqn:E.
  - rewrite sel_class_remove, bool_decide_eq_true_2 by reflexivity. reflexivity.
  - rewrite sel_class_add, bool_decide_eq_true_2 by reflexivity. reflexivity.
Qed.

Lemma menu_act_shape m a : forall obs s, shape_stable obs -> obs s -> obs (menu_act m a s).
Proof.
  intros obs s Hst H. destruct a; cbn [menu_act].
  - apply Hst; [apply keeps_shape_text|].
    apply Hst; [apply keeps_shape_toggle; reflexivity | exact H].
  - apply Hst; [apply keeps_shape_text|].
    apply Hst; [apply keeps_shape_remove; reflexivity | exact H].
Qed.

Lemma run_actions_cons m a acts s :
  run_actions m (a :: acts) s = run_actions m acts (menu_act m a s).
Proof. reflexivity. Qed.

Lemma run_actions_shape m acts :
  forall obs s, shape_stable obs -> obs s -> obs (run_actions m acts s).
Proof.
  induction acts as [|a acts IH]; intros obs s Hst H; [exact H|].
  rewrite run_actions_cons. apply IH; [exact Hst|]. apply menu_act_shape; assumption.
Qed.

Lemma run_actions_app m a1 a2 s :
  run_actions m (a1 ++ a2) s = run_actions m a2 (run_actions m a1 s).
Proof. apply fold_left_app. Qed.

Lemma menuButtonClick_run m s : menuButtonClick m s = (Ok tt, menu_act m Toggle s).
Proof. reflexivity. Qed.

Lemma menuLinkClick_run m s : menuLinkClick m s = (Ok tt, menu_act m Close s).
Proof. reflexivity. Qed.

Lemma menu_node_run m k s :
  ((if k =? mobileMenuBtn m then menuButtonClick m else ret tt);;;
   (if existsb (Nat.eqb k) (menuLinks m) then menuLinkClick m else ret tt)) s
  = (Ok tt, run_actions m (node_actions m k) s).
Proof.
  unfold node_actions.
  destruct (k =? mobileMenuBtn m), (existsb (Nat.eqb k) (menuLinks m)); reflexivity.
Qed.

Lemma menu_path_run m path : forall s,
  forEach path (fun k =>
    (if k =? mobileMenuBtn m then menuButtonClick m else ret tt);;;
    (if existsb (Nat.eqb k) (menuLinks m) then menuLinkClick m else ret tt)) s
  = (Ok tt, run_actions m (flat_map (node_actions m) path) s).
Proof.
  induction path as [|k path IH]; intros s; [reflexivity|].
  cbn [forEach flat_map]. rewrite (bind_run _ _ _ _ _ (menu_node_run m k s)).
  rewrite IH, run_actions_app. reflexivity.
Qed.

(** A click runs the listeners on its path, then the document's. *)
Lemma menuClick_run m target s :
  menuClick m target s =
    (Ok tt, run_actions m
              (click_actions m (path_in (elems s) target)
                 (closest_in (sel_tags ["nav"%string]) (elems s) target)) s).
Proof.
  unfold menuClick.
  rewrite (bind_run (gets (fun s0 => path_in (elems s0) target)) _ s _ s eq_refl).
  rewrite (bind_run _ _ _ _ _ (menu_path_run m _ s)).
  unfold click_actions. rewrite run_actions_app.
  set (s1 := run_actions m (flat_map (node_actions m) (path_in (elems s) target)) s).
  assert (Hc : closest_in (sel_tags ["nav"%string]) (elems s1) target
               = closest_in (sel_tags ["nav"%string]) (elems s) target).
  { apply (run_actions_shape m _ (fun s' => closest_in _ (elems s') target = _));
      [apply stable_closest, shape_pred_tags | reflexivity]. }
  unfold menuDocumentClick, bind, closest, gets. rewrite Hc.
  destruct (closest_in _ (elems s) target); reflexivity.
Qed.

Lemma menu_act_in m a s : menu_in m s -> menu_in m (menu_act m a s).
Proof.
  intros H. apply (menu_act_shape m a (fun s' => _ < length (elems s') /\ _ < length (elems s')));
    [|exact H].
  intros k f s' _ H'. rewrite length_upd. exact H'.
Qed.

(** One listener: the open state and the glyph afterwards. *)
Lemma menu_act_open m a s :
  menu_in m s ->
  menu_open m (menu_act m a s) = open_after [a] (menu_open m s) /\
  menu_synced m (menu_act m a s).
Proof.
  intros [Hb Hn]. unfold menu_synced, menu_open. destruct a; cbn [menu_act open_after fold_left].
  - assert (Ho : cls "active" (navLinks m) (upd (navLinks m) (el_toggle "active") s)
                 = negb (cls "active" (navLinks m) s)).
    { unfold cls, matches_at. rewrite lookup_upd, decide_True by reflexivity.
      apply lookup_lt_is_Some in Hn as [e ->]. cbn. apply sel_class_toggle. }
    rewrite cls_upd_text, Ho. split; [reflexivity|].
    apply txt_upd_text. rewrite length_upd. exact Hb.
  - rewrite cls_upd_text, cls_upd_remove. split; [reflexivity|].
    apply txt_upd_text. rewrite length_upd. exact Hb.
Qed.

Lemma run_actions_in m acts : forall s, menu_in m s -> menu_in m (run_actions m acts s).
Proof.
  induction acts as [|a acts IH]; intros s H; [exact H|].
  rewrite run_actions_cons. apply IH, menu_act_in, H.
Qed.

Lemma run_actions_open m acts : forall s,
  menu_in m s ->
  menu_open m (run_actions m acts s) = open_after acts (menu_open m s).
Proof.
  induction acts as [|a acts IH]; intros s H; [reflexivity|].
  rewrite run_actions_cons, IH by (apply menu_act_in, H).
  destruct (menu_act_open m a s H) as [-> _]. reflexivity.
Qed.

Lemma run_actions_synced m acts : forall s,
  menu_in m s -> menu_synced m s -> menu_synced m (run_actions m acts s).
Proof.
  induction acts as [|a acts IH]; intros s H Hs; [exact Hs|].
  rewrite run_actions_cons.
  apply IH; [apply menu_act_in, H | apply (menu_act_open m a s H)].
Qed.

Lemma run_actions_synced_after m acts s :
  menu_in m s -> acts <> [] -> menu_synced m (run_actions m acts s).
Proof.
  intros H Hne. destruct acts as [|a acts]; [congruence|].
  rewrite run_actions_cons.
  apply run_actions_synced; [apply menu_act_in, H | apply (menu_act_open m a s H)].
Qed.

Lemma open_after_close acts b : open_after (acts ++ [Close]) b = false.
Proof. unfold open_after. rewrite fold_left_app. reflexivity. Qed.

(** Only the button's text and the class list of the links container
    change. *)
Lemma menu_act_frame m a s k :
  (k <> navLinks m -> classes k (menu_act m a s) = classes k s) /\
  (k <> mobileMenuBtn m -> txt k (menu_act m a s) = txt k s) /\
  val k (menu_act m a s) = val k s /\
  (forall c, c <> "active"%string -> cls c k (menu_act m a s) = cls c k s).
Proof.
  assert (Hcl : forall n f s', k <> n -> classes k (upd n f s') = classes k s').
  { intros n f s' Hne. unfold classes. rewrite lookup_upd, decide_False by congruence.
    destruct (elems s' !! k); reflexivity. }
  assert (Hct : forall n t s', classes k (upd n (set_textContent t) s') = classes k s').
  { intros n t s'. unfold classes. rewrite lookup_upd.
    destruct (elems s' !! k); [|reflexivity]. destruct (decide (n = k)); reflexivity. }
  assert (Htog : forall c n s', c <> "active"%string ->
            cls c k (upd n (el_toggle "active") s') = cls c k s').
  { intros c n s' Hc. apply cls_upd_keep. intros e. unfold el_toggle.
    destruct (sel_class "active" e);
      [apply sel_class_remove_ne | apply sel_class_add_ne]; exact Hc. }
  destruct a; cbn [menu_act]; repeat split.
  - intros Hk. rewrite Hct. apply Hcl, Hk.
  - intros Hk. rewrite txt_upd_ne by exact Hk. apply txt_upd_keep.
    intros e. unfold el_toggle. destruct (sel_class "active" e); reflexivity.
  - rewrite !val_upd_keep; [reflexivity| |reflexivity].
    intros e. unfold el_toggle. destruct (sel_class "active" e); reflexivity.
  - intros c Hc. rewrite cls_upd_text. apply Htog, Hc.
  - intros Hk. rewrite Hct. apply Hcl, Hk.
  - intros Hk. rewrite txt_upd_ne by exact Hk. apply txt_upd_keep. reflexivity.
  - rewrite !val_upd_keep by reflexivity. reflexivity.
  - intros c Hc. rewrite cls_upd_text. apply cls_upd_remove_ne, Hc.
Qed.

Lemma run_actions_frame m acts k : forall s,
  val k (run_actions m acts s) = val k s /\
  (forall c, c <> "active"%string -> cls c k (run_actions m acts s) = cls c k s) /\
  (k <> navLinks m -> classes k (run_actions m acts s) = classes k s) /\
  (k <> mobileMenuBtn m -> txt k (run_actions m acts s) = txt k s).
Proof.
  induction acts as [|a acts IH]; intros s; [auto|].
  rewrite run_actions_cons.
  destruct (IH (menu_act m a s)) as (Hv & Hc & Hcl & Ht).
  destruct (menu_act_frame m a s k) as (Hcl0 & Ht0 & Hv0 & Hc0).
  split; [congruence|]. split; [|split].
  - intros c Hne. rewrite Hc by exact Hne. apply Hc0, Hne.
  - intros Hk. rewrite Hcl by exact Hk. apply Hcl0, Hk.
  - intros Hk. rewrite Ht by exact Hk. apply Ht0, Hk.
Qed.

Lemma run_actions_rest m acts s :
  appended (run_actions m acts s) = appended s /\ fresh (run_actions m acts s) = fresh s /\
  timers (run_actions m acts s) = timers s /\ platform (run_actions m acts s) = platform s.
Proof.
  apply (run_actions_shape m acts (fun s' => appended s' = _ /\ fresh s' = _ /\
                                             timers s' = _ /\ platform s' = _));
    [apply stable_rest | auto].
Qed.

Lemma open_after_closes acts b :
  acts <> [] -> Forall (fun a => a = Close) acts -> open_after acts b = false.
Proof.
  intros Hne Hall. destruct acts as [|a acts]; [congruence|].
  inversion Hall as [|x l -> Hall']; subst. unfold open_after. cbn.
  clear Hne Hall. induction Hall' as [|a acts -> _ IH]; [reflexivity | exact IH].
Qed.

Lemma node_actions_not_button m k :
  k <> mobileMenuBtn m -> Forall (fun a => a = Close) (node_actions m k).
Proof.
  intros Hk. unfold node_actions. apply Nat.eqb_neq in Hk. rewrite Hk.
  destruct (existsb _ _); repeat constructor.
Qed.

Lemma path_actions_no_button m path :
  ~ In (mobileMenuBtn m) path ->
  Forall (fun a => a = Close) (flat_map (node_actions m) path).
Proof.
  induction path as [|k path IH]; intros Hb; cbn; [constructor|].
  apply Forall_app. split.
  - apply node_actions_not_button. intros ->. apply Hb. left. reflexivity.
  - apply IH. intros H. apply Hb. right. exact H.
Qed.

Lemma path_actions_link m path link :
  In link (menuLinks m) -> In link path -> In Close (flat_map (node_actions m) path).
Proof.
  intros Hl Hp. apply in_flat_map. exists link. split; [exact Hp|].
  unfold node_actions. apply in_or_app. right.
  assert (E : existsb (Nat.eqb link) (menuLinks m) = true).
  { apply existsb_exists. exists link. split; [exact Hl | apply Nat.eqb_refl]. }
  rewrite E. left. reflexivity.
Qed.

(** In document order the path of an element goes down the positions. *)
Lemma path_walk_below l :
  document_order l ->
  forall fuel n k, In k (path_walk fuel l n) -> k <= n.
Proof.
  intros Hord. induction fuel as [|fuel IH]; intros n k; cbn [path_walk]; [intros []|].
  destruct (l !! n) as [e|] eqn:E; [|intros []].
  intros [<-|Hin]; [lia|].
  destruct (parent e) as [p|] eqn:Ep; [|destruct Hin].
  apply IH in Hin. pose proof (Hord n e p E Ep). lia.
Qed.

Lemma path_in_self l n :
  document_order l -> n < length l ->
  exists rest, path_in l n = n :: rest /\ forall k, In k rest -> k < n.
Proof.
  intros Hord Hn. unfold path_in. destruct (length l) as [|fuel] eqn:El; [lia|].
  cbn [path_walk]. rewrite <- El in Hn. apply lookup_lt_is_Some in Hn as [e E].
  rewrite E. eexists. split; [reflexivity|].
  intros k Hin. destruct (parent e) as [p|] eqn:Ep; [|destruct Hin].
  apply (path_walk_below l Hord) in Hin. pose proof (Hord n e p E Ep). lia.
Qed.

Lemma path_walk_upd n f s :
  keeps_shape f ->
  forall fuel k, path_walk fuel (elems (upd n f s)) k = path_walk fuel (elems s) k.
Proof.
  intros Hf. induction fuel as [|fuel IH]; intros k; cbn [path_walk]; [reflexivity|].
  rewrite lookup_upd. destruct (elems s !! k) as [e|]; cbn [fmap option_fmap option_map];
    [|reflexivity].
  assert (Hs : el_sim e ((if decide (n = k) then f else id) e)).
  { destruct (decide (n = k)); [apply Hf | apply el_sim_refl]. }
  destruct Hs as (_ & _ & <- & _). destruct (parent e); [rewrite IH|]; reflexivity.
Qed.

Lemma stable_path n r : shape_stable (fun s => path_in (elems s) n = r).
Proof.
  intros k f s Hf H. unfold path_in. rewrite length_upd, path_walk_upd by exact Hf.
  exact H.
Qed.

Lemma stable_document_order : shape_stable (fun s => document_order (elems s)).
Proof.
  intros k f s Hf H n e p Hn Hp. rewrite lookup_upd in Hn.
  destruct (elems s !! n) as [e0|] eqn:E; [|discriminate].
  cbn in Hn. injection Hn as <-.
  assert (Hs : el_sim e0 ((if decide (k = n) then f else id) e0)).
  { destruct (decide (k = n)); [apply Hf | apply el_sim_refl]. }
  destruct Hs as (_ & _ & Hpar & _). rewrite <- Hpar in Hp. exact (H n e0 p E Hp).
Qed.

Lemma path_actions_nil m path :
  (forall k, In k path -> k <> mobileMenuBtn m /\ ~ In k (menuLinks m)) ->
  flat_map (node_actions m) path = [].
Proof.
  induction path as [|k path IH]; intros H; [reflexivity|]. cbn [flat_map].
  destruct (H k (or_introl eq_refl)) as [Hb Hl].
  assert (Hk : node_actions m k = []).
  { unfold node_actions. apply Nat.eqb_neq in Hb. rewrite Hb.
    destruct (existsb _ _) eqn:E; [|reflexivity].
    apply existsb_exists in E as (x & Hx & Ex). apply Nat.eqb_eq in Ex. subst x.
    contradiction. }
  rewrite Hk. apply IH. intros k' Hk'. apply H. right. exact Hk'.
Qed.

(** The button is clicked, inside a [nav], with no menu link around it:
    its listener alone runs. *)
Lemma button_click_actions m s :
  menu_in m s -> document_order (elems s) ->
  is_Some (closest_in (sel_tags ["nav"%string]) (elems s) (mobileMenuBtn m)) ->
  (forall k, In k (path_in (elems s) (mobileMenuBtn m)) -> ~ In k (menuLinks m)) ->
  click_actions m (path_in (elems s) (mobileMenuBtn m))
    (closest_in (sel_tags ["nav"%string]) (elems s) (mobileMenuBtn m)) = [Toggle].
Proof.
  intros [Hb _] Hord [nv Hnav] Hlinks. unfold click_actions. rewrite Hnav.
  rewrite app_nil_r.
  destruct (path_in_self _ _ Hord Hb) as (rest & Hpath & Hrest).
  rewrite Hpath in Hlinks |- *. cbn [flat_map].
  assert (Hself : node_actions m (mobileMenuBtn m) = [Toggle]).
  { unfold node_actions. rewrite Nat.eqb_refl.
    destruct (existsb _ _) eqn:E; [|reflexivity].
    apply existsb_exists in E as (x & Hx & Ex). apply Nat.eqb_eq in Ex. subst x.
    exfalso. apply (Hlinks (mobileMenuBtn m)); [left; reflexivity | exact Hx]. }
  rewrite Hself.
  assert (Hnil : flat_map (node_actions m) rest = []).
  { apply path_actions_nil. intros k Hk. split.
    - specialize (Hrest k Hk). lia.
    - apply Hlinks. right. exact Hk. }
  rewrite Hnil. reflexivity.
Qed.

End MobileMenu.

(** X1: on a page whose menu button holds text only (it has no element
    children, so that no click lands inside the button and setting its
    text removes nothing), every click on the page returns, and over
    every sequence of clicks the menu keeps the glyph of its button in
    step with its open state; the clicks change nothing but the
    [active] class of the links container and the text of the button. *)
Theorem menu_glyph_in_step (m : Menu) (s : Page) (targets : list node) :
  menu_in m s -> childless (mobileMenuBtn m) s -> menu_synced m s ->
  (forall target, menuClick m target s = (Ok tt, after (menuClick m target) s)) /\
  menu_synced m (menu_run m targets s) /\
  appended (menu_run m targets s) = appended s /\
  forall k,
    val k (menu_run m targets s) = val k s /\
    (forall c, c <> "active"%string -> cls c k (menu_run m targets s) = cls c k s) /\
    (k <> mobileMenuBtn m -> txt k (menu_run m targets s) = txt k s).
Proof.
  intros Hin _ Hs. split.
  { intros target. unfold after. rewrite menuClick_run. reflexivity. }
  revert s Hin Hs. induction targets as [|t targets IH]; intros s Hin Hs.
  { cbn. auto. }
  cbn [menu_run]. unfold after. rewrite menuClick_run. cbn [snd].
  set (acts := click_actions m _ _).
  destruct (IH (run_actions m acts s) (run_actions_in m acts s Hin)
               (run_actions_synced m acts s Hin Hs)) as (Hsy & Happ & Hfr).
  split; [exact Hsy|]. split.
  { rewrite Happ. apply run_actions_rest. }
  intros k. destruct (Hfr k) as (Hv & Hc & Ht).
  destruct (run_actions_frame m acts k s) as (Hv0 & Hc0 & _ & Ht0).
  split; [congruence|]. split.
  - intros c Hne. rewrite Hc by exact Hne. apply Hc0, Hne.
  - intros Hk. rewrite Ht by exact Hk. apply Ht0, Hk.
Qed.

Lemma menu_glyph_in_step_witness :
  menu_synced nav_menu (menu_run nav_menu [1; 3; 4; 1; 7] nav_page).
Proof.
  destruct (menu_glyph_in_step nav_menu nav_page [1; 3; 4; 1; 7]) as (_ & H & _).
  - split; cbn; lia.
  - repeat constructor; discriminate.
  - reflexivity.
  - exact H.
Defined.

(** X2: a click outside of every [nav] element closes the menu, also a
    click on the menu button when the button is not inside a [nav]; and
    a click on or inside a link of the menu closes it, when the button
    is not on the click's path.  The button then shows the menu glyph. *)
Theorem menu_click_closes (m : Menu) (s : Page) (target : node) :
  menu_in m s ->
  (closest_in (sel_tags ["nav"%string]) (elems s) target = None \/
   ((exists link, In link (menuLinks m) /\ In link (path_in (elems s) target)) /\
    ~ In (mobileMenuBtn m) (path_in (elems s) target))) ->
  menu_open m (after (menuClick m target) s) = false /\
  txt (mobileMenuBtn m) (after (menuClick m target) s) = glyph_menu.
Proof.
  intros Hin Hcase. unfold after. rewrite menuClick_run. cbn [snd].
  set (acts := click_actions m _ _).
  assert (Hopen : open_after acts (menu_open m s) = false).
  { destruct Hcase as [Hout | [(link & Hl & Hp) Hb]]; unfold acts, click_actions.
    - rewrite Hout. apply open_after_close.
    - apply open_after_closes.
      + pose proof (path_actions_link m _ link Hl Hp) as Hc.
        intros E. apply app_eq_nil in E as [E _]. rewrite E in Hc. destruct Hc.
      + apply Forall_app. split; [apply path_actions_no_button, Hb|].
        destruct (closest_in _ _ target); repeat constructor. }
  assert (Hne : acts <> []).
  { intros E. destruct Hcase as [Hout | [(link & Hl & Hp) Hb]]; unfold acts, click_actions in E.
    - rewrite Hout in E. apply app_eq_nil in E as [_ E]. discriminate.
    - apply app_eq_nil in E as [E _].
      pose proof (path_actions_link m _ link Hl Hp) as Hc. rewrite E in Hc. destruct Hc. }
  pose proof (run_actions_open m acts s Hin) as Ho. rewrite Hopen in Ho.
  split; [exact Ho|].
  pose proof (run_actions_synced_after m acts s Hin Hne) as Hsy.
  unfold menu_synced in Hsy. rewrite Ho in Hsy. exact Hsy.
Qed.

Lemma menu_click_closes_witness :
  let opened := after (menuClick nav_menu 1) nav_page in
  menu_open nav_menu opened = true /\
  menu_open nav_menu (after (menuClick nav_menu 4) opened) = false /\
  txt 1 (after (menuClick nav_menu 7) opened) = glyph_menu.
Proof.
  intros opened. split; [reflexivity|]. split.
  - apply (menu_click_closes nav_menu opened 4); [split; vm_compute; lia|].
    right. split; [exists 4; split; [left; reflexivity | left; reflexivity]|].
    vm_compute. intuition discriminate.
  - apply (menu_click_closes nav_menu opened 7); [split; vm_compute; lia|].
    left. reflexivity.
Defined.

(** X3: a click on the menu button, when the button sits inside a [nav]
    and no menu link is the button or around it, flips the menu: it
    opens a closed menu and closes an open one, so two clicks bring the
    open state back. *)
Theorem menu_button_flips (m : Menu) (s : Page) :
  menu_in m s -> document_order (elems s) ->
  is_Some (closest_in (sel_tags ["nav"%string]) (elems s) (mobileMenuBtn m)) ->
  (forall k, In k (path_in (elems s) (mobileMenuBtn m)) -> ~ In k (menuLinks m)) ->
  let s1 := after (menuClick m (mobileMenuBtn m)) s in
  let s2 := after (menuClick m (mobileMenuBtn m)) s1 in
  menu_open m s1 = negb (menu_open m s) /\
  txt (mobileMenuBtn m) s1 = (if menu_open m s then glyph_menu else glyph_close) /\
  menu_open m s2 = menu_open m s /\
  txt (mobileMenuBtn m) s2 = (if menu_open m s then glyph_close else glyph_menu).
Proof.
  intros Hin Hord Hnav Hlinks s1 s2.
  assert (Hs1 : s1 = run_actions m [Toggle] s).
  { unfold s1, after. rewrite menuClick_run. cbn [snd].
    rewrite button_click_actions by assumption. reflexivity. }
  assert (Hin1 : menu_in m s1) by (rewrite Hs1; apply run_actions_in, Hin).
  assert (Hs2 : s2 = run_actions m [Toggle] s1).
  { unfold s2, after. rewrite menuClick_run. cbn [snd].
    rewrite button_click_actions; [reflexivity | exact Hin1 | | |].
    - rewrite Hs1. apply (run_actions_shape m _ (fun s' => document_order (elems s')));
        [apply stable_document_order | exact Hord].
    - rewrite Hs1.
      rewrite (run_actions_shape m _ (fun s' => closest_in _ (elems s') _ = _) s
                 (stable_closest _ _ _ (shape_pred_tags _)) eq_refl).
      exact Hnav.
    - rewrite Hs1.
      rewrite (run_actions_shape m _ (fun s' => path_in (elems s') _ = _) s
                 (stable_path _ _) eq_refl).
      exact Hlinks. }
  assert (Ho1 : menu_open m s1 = negb (menu_open m s)).
  { rewrite Hs1. apply (run_actions_open m [Toggle] s Hin). }
  assert (Ho2 : menu_open m s2 = menu_open m s).
  { rewrite Hs2, (run_actions_open m [Toggle] s1 Hin1), Ho1. cbn. apply negb_involutive. }
  assert (Hy1 : menu_synced m s1).
  { rewrite Hs1. apply run_actions_synced_after; [exact Hin | discriminate]. }
  assert (Hy2 : menu_synced m s2).
  { rewrite Hs2. apply run_actions_synced_after; [exact Hin1 | discriminate]. }
  unfold menu_synced in Hy1, Hy2. rewrite Ho1 in Hy1. rewrite Ho2 in Hy2.
  repeat split; try assumption.
  rewrite Hy1. destruct (menu_open m s); reflexivity.
Qed.

Lemma menu_button_flips_witness :
  menu_open nav_menu (after (menuClick nav_menu 1) nav_page) = true /\
  menu_open nav_menu
    (after (menuClick nav_menu 1) (after (menuClick nav_menu 1) nav_page)) = false.
Proof.
  destruct (menu_button_flips nav_menu nav_page) as (H1 & _ & H2 & _).
  - split; cbn; lia.
  - intros n e p Hn Hp.
    do 8 (destruct n as [|n];
          [cbn in Hn; injection Hn as <-; cbn in Hp;
           first [discriminate | injection Hp as <-; lia]|]).
    discriminate.
  - eexists. reflexivity.
  - vm_compute. intros k Hp Hl. lia.
  - split; [exact H1 | exact H2].
Defined.

(** ** Validation primitives: composition and the focus listener *)

Section MoreValidation.

Implicit Types (s : Page) (n k e : node).

Lemma run_call_cases c s :
  (run_call c s = (Throw TypeError, s) /\
   closest_in form_group (elems s) (call_input c) = None) \/
  (run_call c s
     = (Ok tt, mark (call_input c) (error_element s (call_input c)) (call_mark c) s) /\
   is_Some (closest_in form_group (elems s) (call_input c))).
Proof.
  destruct c as [n m|n|n]; cbn [run_call call_input call_mark];
    destruct (closest_in form_group (elems s) n) as [g|] eqn:E.
  - right. rewrite (showError_run _ _ _ _ E), (error_element_closest _ _ _ E). eauto.
  - left. rewrite (showError_throws _ _ _ E). auto.
  - right. rewrite (showSuccess_run _ _ _ E), (error_element_closest _ _ _ E). eauto.
  - left. rewrite (showSuccess_throws _ _ E). auto.
  - right. rewrite (clearValidation_run _ _ _ E), (error_element_closest _ _ _ E). eauto.
  - left. rewrite (clearValidation_throws _ _ E). auto.
Qed.

Lemma run_call_stable obs c s :
  shape_stable obs -> obs s -> obs (after (run_call c) s).
Proof.
  intros Hst H. unfold after.
  destruct (run_call_cases c s) as [[-> _]|[-> _]]; cbn [snd];
    [exact H | apply mark_stable; assumption].
Qed.

Lemma run_calls_stable obs cs :
  shape_stable obs -> forall s, obs s -> obs (run_calls cs s).
Proof.
  intros Hst. induction cs as [|c cs IH]; intros s H; cbn; [exact H|].
  apply IH, run_call_stable; assumption.
Qed.

Lemma run_calls_app cs1 cs2 : forall s,
  run_calls (cs1 ++ cs2) s = run_calls cs2 (run_calls cs1 s).
Proof.
  induction cs1 as [|c cs1 IH]; intros s; cbn; [reflexivity | apply IH].
Qed.

Lemma val_run_calls k cs : forall s, val k (run_calls cs s) = val k s.
Proof.
  induction cs as [|c cs IH]; intros s; cbn; [reflexivity|].
  rewrite IH. unfold after.
  destruct (run_call_cases c s) as [[-> _]|[-> _]]; cbn [snd];
    [reflexivity | apply val_mark].
Qed.

(** The state of a field after a mark on it. *)
Lemma mark_states_of n ee v s :
  n < length (elems s) -> states_of n (mark n ee v s) = [mark_state v].
Proof.
  intros Hn. unfold states_of. cbn [List.filter in_state].
  rewrite mark_error_same, mark_success_same by exact Hn.
  destruct v; reflexivity.
Qed.

Lemma existsb_filter_seq (p : nat -> bool) len k :
  (p k = true -> k < len) ->
  existsb (Nat.eqb k) (List.filter p (seq 0 len)) = p k.
Proof.
  intros Hlt. apply eq_true_iff_eq. rewrite existsb_exists. split.
  - intros (x & Hx & E). apply Nat.eqb_eq in E. subst x.
    apply filter_In in Hx. tauto.
  - intros Hp. exists k. split; [|apply Nat.eqb_refl].
    apply filter_In. split; [|exact Hp]. apply in_seq. specialize (Hlt Hp). lia.
Qed.

Lemma matches_at_valid P l k : matches_at P l k = true -> k < length l.
Proof.
  unfold matches_at. destruct (l !! k) eqn:E; [|discriminate].
  intros _. eapply lookup_lt_Some, E.
Qed.

End MoreValidation.

(** X4: on a field that sits in a form group, the last call of
    [showError], [showSuccess] or [clearValidation] decides: whatever
    calls ran before, on this or on other fields, the field ends in the
    state of its last call alone, its error element is displayed only
    after [showError], then with that call's message, and no value
    changed. *)
Theorem last_call_decides (s : Page) (cs : list ValidationCall) (c : ValidationCall) :
  is_Some (closest_in form_group (elems s) (call_input c)) ->
  let n := call_input c in
  let s' := run_calls (cs ++ [c]) s in
  states_of n s' = [mark_state (call_mark c)] /\
  (forall e, error_element s n = Some e ->
     cls "show" e s' = is_MError (call_mark c) /\
     (forall m, call_mark c = MError m -> txt e s' = m)) /\
  (forall k, val k s' = val k s).
Proof.
  intros [g Hg] n s'. unfold s'. rewrite run_calls_app. cbn [run_calls].
  set (s1 := run_calls cs s).
  assert (Hg1 : closest_in form_group (elems s1) n = Some g).
  { apply (run_calls_stable (fun x => closest_in form_group (elems x) n = Some g));
      [apply stable_closest, shape_pred_form_group | exact Hg]. }
  assert (Hee : error_element s1 n = error_element s n).
  { apply (run_calls_stable (fun x => error_element x n = _));
      [apply stable_error_element | reflexivity]. }
  unfold after. destruct (run_call_cases c s1) as [[_ Hnone]|[-> _]].
  { fold n in Hnone. congruence. }
  cbn [snd]. fold n. rewrite Hee.
  pose proof (closest_valid _ _ _ _ Hg1) as Hn.
  split; [apply mark_states_of, Hn|]. split.
  - intros e He. rewrite He.
    assert (Hv : e < length (elems s1)).
    { rewrite <- Hee in He. eapply error_element_valid, He. }
    split; [apply mark_show_same, Hv|].
    intros m ->. apply mark_txt_same, Hv.
  - intros k. rewrite val_mark. apply val_run_calls.
Qed.

Lemma last_call_decides_witness :
  let s' := run_calls [CallShowError 2 (js "Name is required"); CallShowSuccess 5;
                       CallShowSuccess 2; CallShowError 2 (js "Name is required")]
                      sample_page in
  states_of 2 s' = [Error] /\ txt 3 s' = js "Name is required".
Proof.
  intros s'.
  destruct (last_call_decides sample_page
              [CallShowError 2 (js "Name is required"); CallShowSuccess 5;
               CallShowSuccess 2]
              (CallShowError 2 (js "Name is required")))
    as (Hst & Hee & _); [eexists; reflexivity|].
  split; [exact Hst|].
  destruct (Hee 3 eq_refl) as [_ Ht]. apply Ht. reflexivity.
Defined.

(** X5: the focus listener is put on [input] and [textarea] elements
    only.  Focus on another element (a [select], say) changes nothing;
    focus on an input or textarea in a form group makes the field
    neutral and hides its error element, whatever state it was in, and
    leaves every value and every other element's classes; focus on an
    input or textarea outside of any form group throws. *)
Theorem focus_clears_inputs_only (s : Page) (target : node) :
  let listeners := document_querySelectorAll_in focusable (elems s) in
  (matches_at focusable (elems s) target = false ->
     focusEvent listeners target s = (Ok tt, s)) /\
  (matches_at focusable (elems s) target = true ->
     is_Some (closest_in form_group (elems s) target) ->
     exists s', focusEvent listeners target s = (Ok tt, s') /\
       shows_neutral s target s' /\
       (forall k, val k s' = val k s) /\
       (forall k c, k <> target -> c <> "show"%string -> cls c k s' = cls c k s)) /\
  (matches_at focusable (elems s) target = true ->
     closest_in form_group (elems s) target = None ->
     focusEvent listeners target s = (Throw TypeError, s)).
Proof.
  intros listeners.
  assert (Hl : existsb (Nat.eqb target) listeners = matches_at focusable (elems s) target).
  { apply existsb_filter_seq, matches_at_valid. }
  unfold focusEvent. rewrite Hl. split; [|split].
  - intros ->. reflexivity.
  - intros -> [g Hg]. rewrite (clearValidation_run _ _ _ Hg).
    rewrite (error_element_closest _ _ _ Hg).
    pose proof (closest_valid _ _ _ _ Hg) as Hn.
    eexists. split; [reflexivity|]. split; [|split].
    + split; [apply mark_error_same, Hn|]. split; [apply mark_success_same, Hn|].
      intros e ->. apply mark_show_hidden. reflexivity.
    + intros k. apply val_mark.
    + intros k c Hk Hc. apply mark_cls_other; assumption.
  - intros -> Hnone. apply clearValidation_throws, Hnone.
Qed.

Lemma focus_clears_inputs_only_witness :
  let s := after (contactSubmit 0) (contact_filled "" "" "" "") in
  let listeners := document_querySelectorAll_in focusable (elems s) in
  cls "error" 8 s = true /\
  focusEvent listeners 8 s = (Ok tt, s) /\
  exists s', focusEvent listeners 2 s = (Ok tt, s') /\ shows_neutral s 2 s'.
Proof.
  intros s listeners. split; [reflexivity|].
  destruct (focus_clears_inputs_only s 8) as (Hsel & _).
  destruct (focus_clears_inputs_only s 2) as (_ & Hin & _).
  split; [apply Hsel; reflexivity|].
  destruct Hin as (s' & Hrun & Hn & _); [reflexivity | eexists; reflexivity |].
  exists s'. split; [exact Hrun | exact Hn].
Defined.

(** ** Alerts: dismissal *)

Section Dismissal.

Implicit Types (s : Page).

Lemma remove_created_run id s : remove_created id s = (Ok tt, without_created id s).
Proof. reflexivity. Qed.

Lemma fire_run k s :
  fire k s =
    match timers s !! k with
    | Some a => run_timer a (with_timers (delete k (timers s)) s)
    | None => (Ok tt, s)
    end.
Proof.
  unfold fire, bind, gets, modify. destruct (timers s !! k); reflexivity.
Qed.

Lemma in_remove_all_sub ids app x : In x (remove_all ids app) -> In x app.
Proof. intros H. apply in_remove_all in H. tauto. Qed.

Lemma ids_below_alert_shown type message s :
  ids_below s -> ids_below (alert_shown type message s).
Proof.
  intros [Ha Ht]. split; cbn [appended timers fresh alert_shown].
  - apply Forall_app. split.
    + apply Forall_forall. intros x Hx. apply in_remove_all_sub in Hx.
      rewrite Forall_forall in Ha. specialize (Ha x Hx). lia.
    + repeat constructor.
  - apply Forall_app. split.
    + eapply Forall_impl; [|exact Ht]. intros [id|b t]; cbn; [lia | auto].
    + repeat constructor.
Qed.

Lemma ids_below_without id s : ids_below s -> ids_below (without_created id s).
Proof.
  intros [Ha Ht]. split; [|exact Ht]. cbn [appended without_created with_appended fresh].
  apply Forall_forall. intros x Hx. apply filter_In in Hx as [Hx _].
  rewrite Forall_forall in Ha. exact (Ha x Hx).
Qed.

Lemma Forall_delete {A} (P : A -> Prop) k (l : list A) :
  Forall P l -> Forall P (delete k l).
Proof.
  intros H. revert k. induction H as [|x l Hx Hl IH]; intros k; [constructor|].
  destruct k as [|k]; cbn; [assumption|]. constructor; [exact Hx | apply IH].
Qed.

Lemma ids_below_fire k s : ids_below s -> ids_below (after (fire k) s).
Proof.
  intros [Ha Ht]. unfold after. rewrite fire_run.
  destruct (timers s !! k) as [[id|b t]|]; cbn [snd run_timer]; [| |split; assumption].
  - rewrite remove_created_run. cbn [snd]. apply ids_below_without.
    split; [exact Ha|]. apply Forall_delete, Ht.
  - split; [exact Ha|]. apply Forall_delete, Ht.
Qed.

Lemma ids_below_alert_run evs : forall s, ids_below s -> ids_below (alert_run evs s).
Proof.
  induction evs as [|ev evs IH]; intros s H; cbn [alert_run]; [exact H|].
  apply IH. destruct ev as [type message|id|k]; cbn [alert_step].
  - unfold after. rewrite showAlert_run. apply ids_below_alert_shown, H.
  - apply ids_below_without, H.
  - apply ids_below_fire, H.
Qed.

Lemma alerts_with_timers t s : alerts (with_timers t s) = alerts s.
Proof. reflexivity. Qed.

End Dismissal.

(** X6: the alert that [showAlert] displays leaves the document when
    its close button is clicked and when its own timer runs; a timer
    left by an earlier alert removes nothing of it, and a timer that
    does not exist does nothing.  (Identities of created nodes are
    never reused: this is kept by every alert event.) *)
Theorem alert_dismissal (s : Page) (type : string) (message : jsstring) :
  let s1 := after (showAlert type message) s in
  alerts (after (closeClick (fresh s)) s1) = [] /\
  alerts (after (fire (length (timers s))) s1) = [] /\
  (ids_below s -> forall k, k < length (timers s) ->
     alerts (after (fire k) s1) = alerts s1) /\
  (forall k, length (timers s) < k -> after (fire k) s1 = s1) /\
  (ids_below s -> forall evs, ids_below (alert_run evs s1)).
Proof.
  intros s1. assert (Hs1 : s1 = alert_shown type message s).
  { unfold s1, after. rewrite showAlert_run. reflexivity. }
  assert (Hfilter : forall id, id <> fresh s ->
            List.filter (fun c : nat * Created => negb (fst c =? id)) (alerts s1) = alerts s1).
  { intros id Hid. rewrite Hs1, alerts_alert_shown. cbn.
    replace (fresh s =? id) with false; [reflexivity|].
    symmetry. apply Nat.eqb_neq. congruence. }
  split; [|split; [|split; [|split]]].
  - unfold after, closeClick. rewrite remove_created_run. cbn [snd].
    rewrite alerts_without_created, Hs1, alerts_alert_shown. cbn.
    rewrite Nat.eqb_refl. reflexivity.
  - unfold after. rewrite fire_run.
    assert (Ht : timers s1 !! length (timers s) = Some (RemoveCreated (fresh s))).
    { rewrite Hs1. cbn [timers alert_shown]. rewrite lookup_app_r by lia.
      rewrite Nat.sub_diag. reflexivity. }
    rewrite Ht. cbn [run_timer]. rewrite remove_created_run. cbn [snd].
    rewrite alerts_without_created, alerts_with_timers, Hs1, alerts_alert_shown. cbn.
    rewrite Nat.eqb_refl. reflexivity.
  - intros [_ Hbelow] k Hk. unfold after. rewrite fire_run.
    assert (Ht : timers s1 !! k = timers s !! k).
    { rewrite Hs1. cbn [timers alert_shown]. apply lookup_app_l, Hk. }
    rewrite Ht. destruct (timers s !! k) as [[id|b t]|] eqn:E; cbn [run_timer snd];
      [| reflexivity | reflexivity].
    rewrite remove_created_run. cbn [snd].
    rewrite alerts_without_created, alerts_with_timers. apply Hfilter.
    rewrite Forall_forall in Hbelow.
    assert (Hin : In (RemoveCreated id) (timers s)).
    { apply list_elem_of_In. eapply list_elem_of_lookup_2, E. }
    specialize (Hbelow _ Hin). cbn in Hbelow. lia.
  - intros k Hk. unfold after. rewrite fire_run.
    assert (Ht : timers s1 !! k = None).
    { apply lookup_ge_None. rewrite Hs1. cbn [timers alert_shown].
      rewrite length_app. cbn. lia. }
    rewrite Ht. reflexivity.
  - intros Hb evs. apply ids_below_alert_run. rewrite Hs1.
    apply ids_below_alert_shown, Hb.
Qed.

Lemma alert_dismissal_witness :
  let s := after (showAlert "info" (js "first")) sample_page in
  let s1 := after (showAlert "success" (js "second")) s in
  alerts (after (fire 0) s1) = alerts s1 /\ alerts (after (fire 1) s1) = [].
Proof.
  intros s s1.
  destruct (alert_dismissal s "success" (js "second")) as (_ & Hown & Hstale & _).
  split; [|exact Hown].
  apply Hstale; [|cbn; lia].
  split; vm_compute; repeat constructor.
Defined.

(** ** Copy to clipboard: the other paths *)

Section CopyPaths.

Implicit Types (s : Page) (text : jsstring).

(** A click with a payload, where the clipboard is usable, starts the
    write and registers both callbacks. *)
Lemma copyClick_usable t s text :
  copy_payload t s = Some text -> usable s = true ->
  copyClick t s =
    (Ok (Some (mkPromise
       match t with
       | DataCopy _ => showAlert "success" (js "Copied to clipboard!")
       | KeyCopy button => label_swap button
       end
       (fallbackCopy text))), s).
Proof.
  unfold usable. intros Hp Hu. destruct t as [text0|button];
    cbn [copyClick copy_payload] in *.
  - injection Hp as ->. unfold dataCopyClick, bind, clipboard_usable, gets.
    rewrite Hu. reflexivity.
  - unfold keyCopyClick, bind, closest, querySelector, get_textContent, gets.
    destruct (closest_in (sel_class "key-item") (elems s) button) as [keyItem|];
      [|discriminate].
    destruct (querySelector_in (sel_class "key-value") (elems s) keyItem) as [keyValue|];
      [|discriminate].
    injection Hp as <-.
    unfold copyToClipboard, bind, clipboard_usable, gets. rewrite Hu. reflexivity.
Qed.

Lemma copyClick_unusable t s text :
  copy_payload t s = Some text -> usable s = false ->
  copyClick t s = (Ok None, fallback_done text s).
Proof.
  unfold usable. intros Hp Hu. destruct t as [text0|button];
    cbn [copyClick copy_payload] in *.
  - injection Hp as ->. unfold dataCopyClick, bind, clipboard_usable, gets.
    rewrite Hu, fallbackCopy_run. reflexivity.
  - unfold keyCopyClick, bind, closest, querySelector, get_textContent, gets.
    destruct (closest_in (sel_class "key-item") (elems s) button) as [keyItem|];
      [|discriminate].
    destruct (querySelector_in (sel_class "key-value") (elems s) keyItem) as [keyValue|];
      [|discriminate].
    injection Hp as <-.
    unfold copyToClipboard, bind, clipboard_usable, gets.
    rewrite Hu, fallbackCopy_run. reflexivity.
Qed.

Lemma copyClick_nothing t s : copy_payload t s = None -> copyClick t s = (Ok None, s).
Proof.
  destruct t as [text0|button]; cbn [copyClick copy_payload]; [discriminate|].
  unfold keyCopyClick, bind, closest, querySelector, get_textContent, gets.
  destruct (closest_in (sel_class "key-item") (elems s) button) as [keyItem|];
    [|reflexivity].
  destruct (querySelector_in (sel_class "key-value") (elems s) keyItem) as [keyValue|];
    [discriminate | reflexivity].
Qed.

(** The promise a click registered. *)
Lemma copyClick_callbacks t s p s1 :
  copyClick t s = (Ok (Some p), s1) ->
  onFulfilled p = match t with
                  | DataCopy _ => showAlert "success" (js "Copied to clipboard!")
                  | KeyCopy button => label_swap button
                  end.
Proof.
  intros H. destruct (copy_payload t s) as [text|] eqn:Ep.
  - destruct (usable s) eqn:Eu.
    + rewrite (copyClick_usable t s text Ep Eu) in H. injection H as <- _. reflexivity.
    + rewrite (copyClick_unusable t s text Ep Eu) in H. discriminate.
  - rewrite (copyClick_nothing t s Ep) in H. discriminate.
Qed.

Lemma label_swap_run button s :
  label_swap button s =
    (Ok tt, with_timers (timers s ++ [RestoreText button (txt button s)])
              (upd button (set_textContent (js "Copied!")) s)).
Proof. reflexivity. Qed.

Lemma settle_label_swap p button s :
  onFulfilled p = label_swap button ->
  settle p Fulfilled s =
    (Ok tt, with_timers (timers s ++ [RestoreText button (txt button s)])
              (upd button (set_textContent (js "Copied!")) s)).
Proof. intros H. cbn [settle]. unfold try_catch. rewrite H, label_swap_run. reflexivity. Qed.

Lemma txt_with_timers k t s : txt k (with_timers t s) = txt k s.
Proof. reflexivity. Qed.

End CopyPaths.

(** X7: what a copy click does.  A key item's button that finds no key
    item or no key value does nothing at all.  Otherwise, where the
    clipboard API is missing or the context is not secure, the fallback
    runs within the click: no promise is left, the textarea is gone,
    the tree is untouched and the toast is the only alert: the success
    toast (classes [custom-alert alert-success], text "Copied to
    clipboard!") whatever the copy command returns, the error toast
    (classes [custom-alert alert-error], text "Failed to copy") when it
    throws.  Where the clipboard API is usable, the click changes
    nothing and leaves a promise whose rejection runs the fallback on
    the same text. *)
Theorem copy_click_paths (t : CopyTrigger) (s : Page) :
  (copy_payload t s = None -> copyClick t s = (Ok None, s)) /\
  (forall text, copy_payload t s = Some text -> usable s = false ->
     copyClick t s = (Ok None, fallback_done text s) /\
     has_textarea (fresh s) (fallback_done text s) = false /\
     elems (fallback_done text s) = elems s /\
     match exec_copy (platform s) with
     | ExecReturns _ =>
         alerts (fallback_done text s)
           = [(S (fresh s),
               AlertDiv (mkAlert ["custom-alert"; "alert-success"]%string
                 (js "Copied to clipboard!")
                 (Some ("#dcfce7", "#166534", "1px solid #10b981")%string)))]
     | ExecThrows =>
         alerts (fallback_done text s)
           = [(S (fresh s),
               AlertDiv (mkAlert ["custom-alert"; "alert-error"]%string
                 (js "Failed to copy")
                 (Some ("#fee2e2", "#991b1b", "1px solid #ef4444")%string)))]
     end) /\
  (forall text, copy_payload t s = Some text -> usable s = true ->
     exists p, copyClick t s = (Ok (Some p), s) /\ onRejected p = fallbackCopy text).
Proof.
  split; [apply copyClick_nothing|]. split.
  - intros text Hp Hu. split; [apply copyClick_unusable; assumption|].
    destruct (fallback_done_spec text s) as [Hal Htx].
    split; [exact Htx|]. split; [reflexivity|].
    destruct (exec_copy (platform s)); exact Hal.
  - intros text Hp Hu. rewrite (copyClick_usable t s text Hp Hu).
    eexists. split; reflexivity.
Qed.

Lemma copy_click_paths_witness :
  copyClick (KeyCopy 2) sample_page = (Ok None, sample_page) /\
  copyClick (KeyCopy 37) sample_insecure
    = (Ok None, fallback_done (js "sk_live_abc123") sample_insecure) /\
  alerts (fallback_done (js "sk_live_abc123") sample_insecure)
    = [(1, AlertDiv (mkAlert ["custom-alert"; "alert-success"]%string
              (js "Copied to clipboard!")
              (Some ("#dcfce7", "#166534", "1px solid #10b981")%string)))].
Proof.
  destruct (copy_click_paths (KeyCopy 2) sample_page) as (Hnone & _).
  destruct (copy_click_paths (KeyCopy 37) sample_insecure) as (_ & Hfall & _).
  split; [apply Hnone; reflexivity|].
  destruct (Hfall (js "sk_live_abc123")) as (Hrun & _ & _ & Hal); [reflexivity ..|].
  split; [exact Hrun | exact Hal].
Defined.

(** X8: when the write of a [data-copy] click is fulfilled, the success
    toast (classes [custom-alert alert-success], text "Copied to
    clipboard!") is shown and the fallback does not run: one node is
    created, the toast, which is then the only alert, no textarea
    enters the body and the tree of the page is untouched. *)
Theorem data_copy_fulfilled (text : jsstring) (s s1 : Page) (p : Promise) :
  copyClick (DataCopy text) s = (Ok (Some p), s1) ->
  forall s2, exists s',
    settle p Fulfilled s2 = (Ok tt, s') /\
    alerts s' = [(fresh s2, AlertDiv (mkAlert ["custom-alert"; "alert-success"]%string
          (js "Copied to clipboard!")
          (Some ("#dcfce7", "#166534", "1px solid #10b981")%string)))] /\
    fresh s' = S (fresh s2) /\
    elems s' = elems s2 /\
    (forall id, has_textarea id s' = true -> has_textarea id s2 = true).
Proof.
  intros Hclick s2. pose proof (copyClick_callbacks _ _ _ _ Hclick) as Hful.
  cbn [settle]. unfold try_catch. rewrite Hful, showAlert_run.
  eexists. split; [reflexivity|]. split; [apply alerts_alert_shown|].
  split; [reflexivity|]. split; [reflexivity|].
  intros id. unfold has_textarea. cbn [appended alert_shown].
  rewrite existsb_app. cbn [existsb snd]. rewrite andb_false_r, !orb_false_r.
  rewrite !existsb_exists. intros (c & Hin & Hc).
  exists c. split; [eapply in_remove_all_sub, Hin | exact Hc].
Qed.

Lemma data_copy_fulfilled_witness :
  let p := mkPromise (showAlert "success" (js "Copied to clipboard!"))
                     (fallbackCopy (js "sk_live_abc123")) in
  exists s', settle p Fulfilled sample_page = (Ok tt, s') /\
    alerts s' = [(0, AlertDiv (mkAlert ["custom-alert"; "alert-success"]%string
          (js "Copied to clipboard!")
          (Some ("#dcfce7", "#166534", "1px solid #10b981")%string)))] /\
    fresh s' = 1.
Proof.
  intros p.
  destruct (data_copy_fulfilled (js "sk_live_abc123") sample_page sample_page p eq_refl
              sample_page) as (s' & Hrun & Hal & Hfr & _).
  exists s'. auto.
Defined.

(** X9: when the write of a key item's copy is fulfilled, the button
    reads "Copied!", no toast is shown, and the timer the callback
    leaves puts the button's former text back. *)
Theorem key_copy_label_round_trip (button : node) (s s1 : Page) (p : Promise) :
  copyClick (KeyCopy button) s = (Ok (Some p), s1) ->
  forall s2, button < length (elems s2) ->
    let s3 := after (settle p Fulfilled) s2 in
    settle p Fulfilled s2 = (Ok tt, s3) /\
    txt button s3 = js "Copied!" /\
    appended s3 = appended s2 /\
    timers s3 = timers s2 ++ [RestoreText button (txt button s2)] /\
    txt button (after (fire (length (timers s2))) s3) = txt button s2.
Proof.
  intros Hclick s2 Hb s3. pose proof (copyClick_callbacks _ _ _ _ Hclick) as Hful.
  cbn beta iota in Hful.
  assert (Hs3 : settle p Fulfilled s2 =
                (Ok tt, with_timers (timers s2 ++ [RestoreText button (txt button s2)])
                          (upd button (set_textContent (js "Copied!")) s2)))
    by (apply settle_label_swap, Hful).
  unfold s3, after. rewrite Hs3. cbn [snd].
  split; [reflexivity|]. split; [|split; [reflexivity|split; [reflexivity|]]].
  - rewrite txt_with_timers. apply txt_upd_text, Hb.
  - rewrite fire_run. cbn [timers with_timers].
    rewrite lookup_app_r by lia. rewrite Nat.sub_diag. cbn [lookup list_lookup run_timer].
    unfold put_textContent, modify. cbn [snd].
    apply txt_upd_text. cbn [elems with_timers]. rewrite length_upd. exact Hb.
Qed.

Lemma key_copy_label_round_trip_witness :
  let p := mkPromise (label_swap 37) (fallbackCopy (js "sk_live_abc123")) in
  let s3 := after (settle p Fulfilled) sample_page in
  txt 37 s3 = js "Copied!" /\ txt 37 (after (fire 0) s3) = js "Copy".
Proof.
  intros p s3.
  destruct (key_copy_label_round_trip 37 sample_page sample_page p eq_refl sample_page)
    as (_ & Ht & _ & _ & Hback); [cbn; lia|].
  split; [exact Ht | exact Hback].
Defined.

(** X10: two copies of a key item whose writes are both fulfilled before
    the first timer runs leave the button reading "Copied!" for good:
    the second callback saves "Copied!" as the text to put back, so
    after both timers ran the button still reads "Copied!". *)
Theorem key_copy_twice_sticks (button : node) (s s' sa sb : Page) (p1 p2 : Promise) :
  copyClick (KeyCopy button) s = (Ok (Some p1), sa) ->
  copyClick (KeyCopy button) s' = (Ok (Some p2), sb) ->
  forall s2, button < length (elems s2) ->
    let s3 := after (settle p1 Fulfilled) s2 in
    let s4 := after (settle p2 Fulfilled) s3 in
    let s5 := after (fire (length (timers s2))) s4 in
    let s6 := after (fire (length (timers s2))) s5 in
    txt button s5 = txt button s2 /\
    txt button s6 = js "Copied!" /\
    timers s6 = timers s2.
Proof.
  intros H1 H2 s2 Hb s3 s4 s5 s6.
  pose proof (copyClick_callbacks _ _ _ _ H1) as F1.
  pose proof (copyClick_callbacks _ _ _ _ H2) as F2. cbn beta iota in F1, F2.
  assert (E3 : s3 = with_timers (timers s2 ++ [RestoreText button (txt button s2)])
                      (upd button (set_textContent (js "Copied!")) s2)).
  { unfold s3, after. rewrite (settle_label_swap p1 button s2 F1). reflexivity. }
  assert (T3 : txt button s3 = js "Copied!").
  { rewrite E3, txt_with_timers. apply txt_upd_text, Hb. }
  assert (L3 : length (elems s3) = length (elems s2)).
  { rewrite E3. cbn [elems with_timers]. apply length_upd. }
  assert (E4 : s4 = with_timers (timers s3 ++ [RestoreText button (js "Copied!")])
                      (upd button (set_textContent (js "Copied!")) s3)).
  { unfold s4, after. rewrite (settle_label_swap p2 button s3 F2), T3. reflexivity. }
  assert (M4 : timers s4 = timers s2 ++ [RestoreText button (txt button s2);
                                         RestoreText button (js "Copied!")]).
  { rewrite E4. cbn [timers with_timers]. rewrite E3. cbn [timers with_timers].
    rewrite <- app_assoc. reflexivity. }
  assert (L4 : length (elems s4) = length (elems s2)).
  { rewrite E4. cbn [elems with_timers]. rewrite length_upd. exact L3. }
  assert (E5 : s5 = upd button (set_textContent (txt button s2))
                      (with_timers (timers s2 ++ [RestoreText button (js "Copied!")]) s4)).
  { unfold s5, after. rewrite fire_run, M4.
    rewrite lookup_app_r by lia. rewrite Nat.sub_diag. cbn [lookup list_lookup run_timer].
    unfold put_textContent, modify. cbn [snd]. f_equal. f_equal.
    clear. induction (timers s2) as [|a l IH]; [reflexivity|].
    cbn. f_equal. exact IH. }
  assert (T5 : txt button s5 = txt button s2).
  { rewrite E5. apply txt_upd_text. cbn [elems with_timers]. rewrite L4. exact Hb. }
  split; [exact T5|].
  assert (E6 : s6 = upd button (set_textContent (js "Copied!"))
                      (with_timers (timers s2) s5)).
  { unfold s6, after. rewrite fire_run.
    assert (M5 : timers s5 = timers s2 ++ [RestoreText button (js "Copied!")])
      by (rewrite E5; reflexivity).
    rewrite M5. rewrite lookup_app_r by lia. rewrite Nat.sub_diag.
    cbn [lookup list_lookup run_timer].
    unfold put_textContent, modify. cbn [snd]. f_equal. f_equal.
    clear. induction (timers s2) as [|a l IH]; [reflexivity|].
    cbn. f_equal. exact IH. }
  split.
  - rewrite E6. apply txt_upd_text. cbn [elems with_timers].
    rewrite E5, length_upd. cbn [elems with_timers]. rewrite L4. exact Hb.
  - rewrite E6. reflexivity.
Qed.

Lemma key_copy_twice_sticks_witness :
  let p := mkPromise (label_swap 37) (fallbackCopy (js "sk_live_abc123")) in
  let s4 := after (settle p Fulfilled) (after (settle p Fulfilled) sample_page) in
  txt 37 (after (fire 0) (after (fire 0) s4)) = js "Copied!".
Proof.
  intros p s4.
  destruct (key_copy_twice_sticks 37 sample_page sample_page sample_page sample_page
              p p eq_refl eq_refl sample_page) as (_ & H & _); [cbn; lia|].
  exact H.
Defined.

(** ** The login form *)

Section Login.

Implicit Types (s : Page) (n k e : node).

Lemma login_valid_accepted em pw :
  accepted (v_required "Password is required" pw) && (accepted (v_email em) && true)
  = login_valid em pw.
Proof.
  unfold login_valid. rewrite accepted_required, accepted_email.
  destruct (blank em), (validateEmail em), (blank pw); reflexivity.
Qed.

Lemma field_outcome_elems s0 n v s s' :
  elems s' = elems s -> field_outcome s0 n v s -> field_outcome s0 n v s'.
Proof.
  intros E. destruct v as [m|];
    unfold field_outcome, shows_error, shows_success, cls, txt; rewrite E; auto.
Qed.

End Login.

(** X11: a submission of the login form, on a page where its two
    fields are in place and are form controls, shows the info alert
    (classes [custom-alert alert-info]) exactly when the email is
    not blank and matches the pattern and the password is not blank
    (its length is not looked at).  Each field is marked by its own
    check; no value is ever changed, valid or not; an invalid
    submission creates nothing. *)
Theorem login_submit_spec (s : Page) (form em pw : node) :
  fields_ok s (login_ids em pw) ->
  fields_controls s (login_ids em pw) ->
  let valid := login_valid (val em s) (val pw s) in
  exists s', loginSubmit form s = (Ok tt, s') /\
    created s s' = (if valid then 1 else 0) /\
    (forall k, val k s' = val k s) /\
    field_outcome s em (v_email (val em s)) s' /\
    field_outcome s pw (v_required "Password is required" (val pw s)) s' /\
    (valid = true ->
       alerts s' = [(fresh s, AlertDiv (mkAlert ["custom-alert"; "alert-info"]%string
          (js "Login functionality would be handled by your backend.")
          (Some ("#eff6ff", "#1e40af", "1px solid #3b82f6")%string)))] /\
       shows_success s em s' /\ shows_success s pw s') /\
    (valid = false -> appended s' = appended s).
Proof.
  intros Hok _ valid.
  destruct (login_blocks s form em pw Hok)
    as (s1 & Hrun & _ & Happ1 & Hfresh1 & Hval1 & H1 & H2).
  rewrite login_valid_accepted in Hrun. fold valid in Hrun.
  assert (Hacc : valid = true ->
            v_email (val em s) = None /\
            v_required "Password is required" (val pw s) = None).
  { unfold valid. rewrite <- login_valid_accepted. intros Hv.
    apply andb_true_iff in Hv as [Hp He]. apply andb_true_iff in He as [He _].
    destruct (v_email (val em s)); [discriminate|].
    destruct (v_required "Password is required" (val pw s)); [discriminate|]. auto. }
  destruct valid eqn:Ev.
  - rewrite showAlert_run in Hrun. eexists. split; [exact Hrun|].
    split; [unfold created; cbn [fresh alert_shown]; rewrite Hfresh1; lia|].
    split; [exact Hval1|].
    split; [eapply field_outcome_elems; [|exact H1]; reflexivity|].
    split; [eapply field_outcome_elems; [|exact H2]; reflexivity|].
    split; [|discriminate]. intros _.
    split; [rewrite alerts_alert_shown, Hfresh1; reflexivity|].
    destruct (Hacc eq_refl) as [E1 E2]. rewrite E1 in H1. rewrite E2 in H2.
    split; [eapply (field_outcome_elems s _ None); [|exact H1]; reflexivity|].
    eapply (field_outcome_elems s _ None); [|exact H2]; reflexivity.
  - exists s1. split; [exact Hrun|].
    split; [unfold created; rewrite Hfresh1; lia|].
    split; [exact Hval1|]. split; [exact H1|]. split; [exact H2|].
    split; [discriminate|]. intros _. exact Happ1.
Qed.

Lemma login_submit_spec_witness :
  let s := login_filled "jane@x.com" "pw" in
  exists s', loginSubmit 13 s = (Ok tt, s') /\
    created s s' = 1 /\ val 18 s' = js "pw" /\
    shows_success s 15 s' /\ shows_success s 18 s'.
Proof.
  intros s.
  destruct (login_submit_spec s 13 15 18) as (s' & Hrun & Hc & Hval & _ & _ & Hv & _);
    [page_facts ..|].
  destruct (Hv eq_refl) as (_ & H1 & H2).
  exists s'. split; [exact Hrun|]. split; [exact Hc|].
  split; [rewrite Hval; reflexivity|]. split; assumption.
Defined.

(** ** Missing fields *)

Section MissingFields.

Implicit Types (s : Page) (n k e : node).

Lemma mark_all_app l1 l2 s : mark_all (l1 ++ l2) s = mark_all l2 (mark_all l1 s).
Proof.
  revert s. induction l1 as [|[[n ee] v] l1 IH]; intros s; cbn; [reflexivity|].
  apply IH.
Qed.

Lemma quiet_ret {A} (a : A) : quiet (ret a).
Proof. intros l s. exists (Ok a), l. split; [reflexivity | discriminate]. Qed.

Lemma quiet_get_value n : quiet (get_value n).
Proof. intros l s. eexists _, l. split; [reflexivity | discriminate]. Qed.

Lemma quiet_deref o : quiet (deref o).
Proof.
  intros l s. destruct o as [n|].
  - exists (Ok n), l. split; [reflexivity | discriminate].
  - exists (Throw TypeError), l. split; [reflexivity | discriminate].
Qed.

Lemma fails_deref : fails (deref None).
Proof. intros l s. exists l. reflexivity. Qed.

Lemma quiet_showError n m : quiet (showError n m).
Proof.
  intros l s. destruct (closest_in form_group (elems (mark_all l s)) n) as [g|] eqn:E.
  - rewrite (showError_run _ _ _ _ E). eexists (Ok tt), (l ++ [(n, _, MError m)]).
    split; [|discriminate]. rewrite mark_all_snoc. reflexivity.
  - rewrite (showError_throws _ _ _ E). exists (Throw TypeError), l.
    split; [reflexivity | discriminate].
Qed.

Lemma quiet_showSuccess n : quiet (showSuccess n).
Proof.
  intros l s. destruct (closest_in form_group (elems (mark_all l s)) n) as [g|] eqn:E.
  - rewrite (showSuccess_run _ _ _ E). eexists (Ok tt), (l ++ [(n, _, MSuccess)]).
    split; [|discriminate]. rewrite mark_all_snoc. reflexivity.
  - rewrite (showSuccess_throws _ _ E). exists (Throw TypeError), l.
    split; [reflexivity | discriminate].
Qed.

Lemma quiet_bind {A B} (c : M A) (k : A -> M B) :
  quiet c -> (forall a, quiet (k a)) -> quiet (bind c k).
Proof.
  intros Hc Hk l s. destruct (Hc l s) as (r & l' & E & Hr). unfold bind. rewrite E.
  destruct r as [a|e].
  - apply Hk.
  - exists (Throw e), l'. split; [reflexivity|]. intros H. apply Hr. congruence.
Qed.

Lemma fails_bind {A B} (c : M A) (k : A -> M B) : fails c -> fails (bind c k).
Proof. intros Hc l s. destruct (Hc l s) as (l' & E). unfold bind. rewrite E. eauto. Qed.

Lemma fails_after {A B} (c : M A) (k : A -> M B) :
  quiet c -> (forall a, fails (k a)) -> fails (bind c k).
Proof.
  intros Hc Hk l s. destruct (Hc l s) as (r & l' & E & Hr). unfold bind. rewrite E.
  destruct r as [a|e]; [apply Hk|].
  destruct e; [|contradiction Hr; reflexivity]. eauto.
Qed.

Lemma fails_at {A} (c : M A) s :
  fails c ->
  exists s', c s = (Throw TypeError, s') /\
    appended s' = appended s /\ fresh s' = fresh s /\ timers s' = timers s /\
    forall k, val k s' = val k s.
Proof.
  intros H. destruct (H [] s) as (l & E). cbn [mark_all] in E.
  exists (mark_all l s). split; [exact E|].
  destruct (rest_mark_all l s) as (Ha & Hf & Ht & _).
  repeat (split; [assumption|]). intros k. apply val_mark_all.
Qed.

End MissingFields.

Ltac quiet_tac :=
  repeat first
    [ apply quiet_ret | apply quiet_get_value | apply quiet_deref
    | apply quiet_showError | apply quiet_showSuccess
    | apply quiet_bind; [|intros ?]
    | match goal with |- quiet (if ?c then _ else _) => destruct c end ].

Ltac fails_tac :=
  repeat first
    [ solve [apply fails_bind; apply fails_bind; apply fails_deref]
    | apply fails_after; [solve [quiet_tac] | intros ?] ].

(** X12: the listeners of the signup and login forms look their fields
    up without a guard.  When the document lacks one of them the
    submission ends in a [TypeError]: no alert is shown, the form is
    not reset and no value changes (the fields checked before the
    missing one keep their marks). *)
Theorem submit_without_field_throws (s : Page) (form : node) :
  (In None (signup_lookups s) ->
   exists s', signupSubmit form s = (Throw TypeError, s') /\
     appended s' = appended s /\ fresh s' = fresh s /\ timers s' = timers s /\
     forall k, val k s' = val k s) /\
  (In None (login_lookups s) ->
   exists s', loginSubmit form s = (Throw TypeError, s') /\
     appended s' = appended s /\ fresh s' = fresh s /\ timers s' = timers s /\
     forall k, val k s' = val k s).
Proof.
  split.
  - unfold signup_lookups, signupSubmit. intros H.
    destruct (getElementById_in "signup-name" (elems s)) as [nm|] eqn:E1;
    destruct (getElementById_in "signup-email" (elems s)) as [em|] eqn:E2;
    destruct (getElementById_in "signup-password" (elems s)) as [pw|] eqn:E3;
    destruct (getElementById_in "signup-confirm" (elems s)) as [cf|] eqn:E4;
    try (exfalso; cbn in H; intuition discriminate);
    run_get E1; run_get E2; run_get E3; run_get E4;
    apply fails_at; fails_tac.
  - unfold login_lookups, loginSubmit. intros H.
    destruct (getElementById_in "login-email" (elems s)) as [em|] eqn:E1;
    destruct (getElementById_in "login-password" (elems s)) as [pw|] eqn:E2;
    try (exfalso; cbn in H; intuition discriminate);
    run_get E1; run_get E2;
    apply fails_at; fails_tac.
Qed.

Lemma submit_without_field_throws_witness :
  (exists s', signupSubmit 0 bare_page = (Throw TypeError, s') /\
              appended s' = appended bare_page) /\
  (exists s', loginSubmit 0 bare_page = (Throw TypeError, s') /\
              appended s' = appended bare_page).
Proof.
  destruct (submit_without_field_throws bare_page 0) as [Hs Hl].
  split.
  - destruct Hs as (s' & Hrun & Ha & _); [left; reflexivity|]. eauto.
  - destruct Hl as (s' & Hrun & Ha & _); [left; reflexivity|]. eauto.
Defined.

(** ** The guards of the contact form *)

(** One block of the contact listener: skipped when the field is
    missing, run when it is there. *)
Ltac opt_block s v :=
  cbn [app];
  match goal with
  | |- bind (ret ?b) _ ?st = _ =>
      rewrite (bind_run (ret b) _ st b st eq_refl); cbv beta
  | |- bind (bind (get_value ?n) _) _ ?st = _ =>
      match goal with
      | H : closest_in form_group (elems s) n = Some ?g
        |- context [bind (showSuccess n) (fun _ => ret ?b)] =>
          let l := match st with
                   | mark_all ?l _ => l
                   | _ => constr:(@nil (node * option node * Mark))
                   end in
          erewrite bind_run
            by (eapply (block_run s l n g _ (v (val n s)) b H); block_is_judge);
          cbv beta
      end
  end.

Section ContactGuards.

Implicit Types (s : Page) (n k e : node).

Lemma contactSubmit_run_present s form :
  Forall (fun x => is_Some (closest_in form_group (elems s) (fst x))) (contact_checked s) ->
  contactSubmit form s =
    (if forallb (fun x => accepted (snd x)) (contact_checked s) then
       showAlert "success"
         (js "Thank you! Your message has been sent successfully.");;;
       form_reset form;;;
       inputs <- querySelectorAll form controls;;
       forEach inputs clearValidation
     else ret tt)
    (mark_all (form_marks s (contact_checked s)) s).
Proof.
  unfold contact_checked, checked, contactSubmit. intros Hall.
  destruct (getElementById_in "name" (elems s)) as [nm|] eqn:E1;
  destruct (getElementById_in "email" (elems s)) as [em|] eqn:E2;
  destruct (getElementById_in "subject" (elems s)) as [sb|] eqn:E3;
  destruct (getElementById_in "message" (elems s)) as [ms|] eqn:E4;
  cbn [app fst snd] in Hall;
  repeat match goal with
         | H : Forall _ (_ :: _) |- _ =>
             let g := fresh "g" in let Hg := fresh "Hg" in let Hr := fresh "Hr" in
             apply Forall_cons_iff in H as [[g Hg] Hr]; cbn [fst] in Hg
         end;
  run_get E1; run_get E2; run_get E3; run_get E4;
  opt_block s (v_required "Name is required");
  opt_block s v_email;
  opt_block s v_subject;
  opt_block s v_message;
  cbn [app form_marks map forallb fst snd];
  repeat match goal with
         | |- context [accepted ?v] =>
             let b := fresh "b" in generalize (accepted v); intros b; destruct b
         end;
  reflexivity.
Qed.

End ContactGuards.

(** X13: the contact form guards each field lookup.  On a page where
    each of the four fields that is present is a form control inside a
    form group, and every control of the form sits in a form group, a
    field that the document lacks is skipped: it takes no part in the
    decision and the submission returns.  It is accepted exactly when
    every field that is present passes its check (so with no field at
    all it is accepted); then the success alert (classes [custom-alert
    alert-success]) is shown, the controls of the form are reset and
    left neutral; otherwise nothing is created and no value changes. *)
Theorem contact_skips_missing_fields (s : Page) (form : node) :
  Forall (fun x => matches_at controls (elems s) (fst x) = true) (contact_checked s) ->
  Forall (fun x => is_Some (closest_in form_group (elems s) (fst x))) (contact_checked s) ->
  Forall (fun n => is_Some (closest_in form_group (elems s) n))
         (querySelectorAll_in controls (elems s) form) ->
  let valid := forallb (fun x => accepted (snd x)) (contact_checked s) in
  exists s', contactSubmit form s = (Ok tt, s') /\
    created s s' = (if valid then 1 else 0) /\
    (valid = true ->
       alerts s' = [(fresh s, AlertDiv (mkAlert ["custom-alert"; "alert-success"]%string
          (js "Thank you! Your message has been sent successfully.")
          (Some ("#dcfce7", "#166534", "1px solid #10b981")%string)))] /\
       forall n, In n (querySelectorAll_in controls (elems s) form) ->
         val n s' = dflt n s /\ shows_neutral s n s') /\
    (valid = false -> appended s' = appended s /\ forall k, val k s' = val k s).
Proof.
  intros _ Hfields Hgroups valid.
  pose proof (contactSubmit_run_present s form Hfields) as Hrun. fold valid in Hrun.
  set (l := form_marks s (contact_checked s)) in Hrun.
  destruct (rest_mark_all l s) as (Happ1 & Hfresh1 & _ & _).
  destruct valid eqn:Ev.
  - assert (Hgroups1 : Forall (fun n => is_Some (closest_in form_group
                                           (elems (mark_all l s)) n))
                              (querySelectorAll_in controls (elems (mark_all l s)) form)).
    { rewrite querySelectorAll_mark_all by apply shape_pred_controls.
      eapply Forall_impl; [|exact Hgroups]. cbv beta. intros n Hn.
      rewrite closest_mark_all by apply shape_pred_form_group. exact Hn. }
    rewrite (contact_finish_run _ form _ _ Hgroups1) in Hrun.
    destruct (contact_done_spec (mark_all l s) form "success"
                (js "Thank you! Your message has been sent successfully."))
      as (Hal & Hfr & Hin).
    eexists. split; [exact Hrun|].
    split; [unfold created; rewrite Hfr, Hfresh1; lia|].
    split; [|discriminate]. intros _.
    split; [rewrite Hal, Hfresh1; reflexivity|].
    intros n Hn. destruct (Hin n) as [Hval (Hne & Hns & Hsh)].
    { rewrite querySelectorAll_mark_all by apply shape_pred_controls. exact Hn. }
    split.
    + rewrite Hval. apply dflt_mark_all.
    + split; [exact Hne | split; [exact Hns|]]. intros e He. apply Hsh.
      rewrite error_element_mark_all. exact He.
  - exists (mark_all l s). split; [exact Hrun|].
    split; [unfold created; rewrite Hfresh1; lia|].
    split; [discriminate|]. intros _.
    split; [exact Happ1|]. intros k. apply val_mark_all.
Qed.

Lemma contact_skips_missing_fields_witness :
  exists s', contactSubmit 0 bare_page = (Ok tt, s') /\
    created bare_page s' = 1 /\
    alerts s' = [(0, AlertDiv (mkAlert ["custom-alert"; "alert-success"]%string
          (js "Thank you! Your message has been sent successfully.")
          (Some ("#dcfce7", "#166534", "1px solid #10b981")%string)))].
Proof.
  destruct (contact_skips_missing_fields bare_page 0) as (s' & Hrun & Hc & Hv & _).
  - vm_compute. constructor.
  - vm_compute. constructor.
  - let l := eval vm_compute in (querySelectorAll_in controls (elems bare_page) 0) in
    change (querySelectorAll_in controls (elems bare_page) 0) with l.
    repeat constructor. eexists. vm_compute. reflexivity.
  - destruct (Hv eq_refl) as [Hal _]. exists s'. auto.
Defined.

(** ** What a submission leaves alone *)

Section Frame.

Implicit Types (s : Page) (n k e : node).

Lemma mark_cls_foreign c k n ee v s :
  c <> "error"%string -> c <> "success"%string -> c <> "show"%string ->
  cls c k (mark n ee v s) = cls c k s.
Proof.
  intros He Hs Hw. destruct v, ee as [e|]; cbn;
    repeat first
      [ rewrite cls_upd_text
      | rewrite (cls_upd_add_ne c "show") by exact Hw
      | rewrite (cls_upd_remove_ne c "show") by exact Hw
      | rewrite (cls_upd_add_ne c "error") by exact He
      | rewrite (cls_upd_remove_ne c "error") by exact He
      | rewrite (cls_upd_add_ne c "success") by exact Hs
      | rewrite (cls_upd_remove_ne c "success") by exact Hs ]; reflexivity.
Qed.

Lemma mark_all_cls_foreign c k l :
  c <> "error"%string -> c <> "success"%string -> c <> "show"%string ->
  forall s, cls c k (mark_all l s) = cls c k s.
Proof.
  intros He Hs Hw. induction l as [|[[n ee] v] l IH]; intros s; cbn; [reflexivity|].
  rewrite IH. apply mark_cls_foreign; assumption.
Qed.





End Frame.



(** ** The strength indicator follows the password field *)

Section Indicator.

Implicit Types (s : Page) (n k : node) (v p q : jsstring).

Lemma matches_at_upd_keep (P : Element -> bool) k n f s :
  (forall e, P (f e) = P e) ->
  matches_at P (elems (upd n f s)) k = matches_at P (elems s) k.
Proof.
  intros H. unfold matches_at. rewrite lookup_upd.
  destruct (elems s !! k); cbn; [|reflexivity].
  destruct (decide (n = k)); [apply H | reflexivity].
Qed.

Lemma getElementById_upd_keep id n f s :
  (forall e, elemId (f e) = elemId e) ->
  getElementById_in id (elems (upd n f s)) = getElementById_in id (elems s).
Proof.
  intros H. unfold getElementById_in. rewrite length_upd. f_equal.
  apply List.filter_ext. intros k. apply matches_at_upd_keep.
  intros e. rewrite H. reflexivity.
Qed.

Lemma passwordInputListener_run pw s :
  passwordInputListener pw s = updatePasswordStrength (val pw s) s.
Proof. reflexivity. Qed.

Lemma updatePasswordStrength_missing p s :
  getElementById_in "password-strength-bar" (elems s) = None \/
  getElementById_in "password-strength" (elems s) = None ->
  updatePasswordStrength p s = (Ok tt, s).
Proof.
  intros H. unfold updatePasswordStrength, bind, getElementById, gets.
  destruct (getElementById_in "password-strength-bar" (elems s)) as [bar|];
    destruct (getElementById_in "password-strength" (elems s)) as [cont|];
    try reflexivity.
  destruct H; discriminate.
Qed.

Lemma updatePasswordStrength_empty s bar cont :
  getElementById_in "password-strength-bar" (elems s) = Some bar ->
  getElementById_in "password-strength" (elems s) = Some cont ->
  updatePasswordStrength [] s = (Ok tt, upd cont (el_remove "show") s).
Proof.
  intros Hbar Hcont. unfold updatePasswordStrength.
  run_get Hbar. run_get Hcont. reflexivity.
Qed.

Lemma classes_upd_ne k n f s : k <> n -> classes k (upd n f s) = classes k s.
Proof.
  intros H. unfold classes. rewrite lookup_upd, decide_False by congruence.
  destruct (elems s !! k); reflexivity.
Qed.

Lemma val_type_in pw v s : pw < length (elems s) -> val pw (type_in pw v s) = v.
Proof.
  intros H. unfold type_in, val. rewrite lookup_upd, decide_True by reflexivity.
  apply lookup_lt_is_Some in H as [e ->]. reflexivity.
Qed.

Lemma indicator_upd pw bar cont n f s :
  (forall e, elemId (f e) = elemId e) ->
  indicator_at pw bar cont s -> indicator_at pw bar cont (upd n f s).
Proof.
  intros Hf (Hbar & Hcont & Hpw). unfold indicator_at.
  rewrite !getElementById_upd_keep by exact Hf. rewrite length_upd. auto.
Qed.

Lemma typed_nonempty pw bar cont v s :
  indicator_at pw bar cont s -> v <> [] ->
  indicator_at pw bar cont (typed pw v s) /\
  classes bar (typed pw v s)
    = ["password-strength-bar"%string; strengthClass (passwordStrength v)] /\
  cls "show" cont (typed pw v s) = true.
Proof.
  intros Hs Hv.
  assert (Ht : indicator_at pw bar cont (type_in pw v s))
    by (apply indicator_upd; [reflexivity | exact Hs]).
  pose proof Hs as (_ & _ & Hpw). pose proof Ht as (Hbar & Hcont & Hpw').
  unfold typed, after. rewrite passwordInputListener_run, (val_type_in _ _ _ Hpw).
  rewrite (updatePasswordStrength_run _ bar cont v Hbar Hcont Hv). cbn [snd].
  split; [|split].
  - do 3 (apply indicator_upd; [reflexivity|]). exact Ht.
  - apply classes_bar_updated; [|apply strengthClass_not_bar].
    eapply getElementById_valid, Hbar.
  - assert (Hne : cont <> bar).
    { eapply getElementById_ne; [exact Hcont | exact Hbar | discriminate]. }
    rewrite !cls_upd_ne by exact Hne. apply cls_upd_add.
    eapply getElementById_valid, Hcont.
Qed.

Lemma typed_empty pw bar cont s :
  indicator_at pw bar cont s ->
  cls "show" cont (typed pw [] s) = false /\
  classes bar (typed pw [] s) = classes bar s.
Proof.
  intros Hs.
  assert (Ht : indicator_at pw bar cont (type_in pw [] s))
    by (apply indicator_upd; [reflexivity | exact Hs]).
  pose proof Hs as (_ & _ & Hpw). pose proof Ht as (Hbar & Hcont & Hpw').
  unfold typed, after. rewrite passwordInputListener_run, (val_type_in _ _ _ Hpw).
  rewrite (updatePasswordStrength_empty _ bar cont Hbar Hcont). cbn [snd].
  split; [apply cls_upd_remove|].
  assert (Hne : bar <> cont).
  { eapply getElementById_ne; [exact Hbar | exact Hcont | discriminate]. }
  rewrite classes_upd_ne by exact Hne.
  unfold classes, type_in. rewrite lookup_upd.
  destruct (elems s !! bar); cbn; [|reflexivity].
  destruct (decide (pw = bar)); reflexivity.
Qed.

End Indicator.

(** X15: the strength indicator follows what is typed in the password
    field.  After the user typed a password and then another, the bar
    carries its base class and the class of the last password only
    (classes of earlier passwords do not pile up) and the indicator is
    displayed; after the field is emptied the indicator is hidden while
    the bar keeps the class of the password before; and on a page
    without the bar or without the indicator the listener does nothing. *)
Theorem indicator_follows_input (pw bar cont : node) (s : Page) :
  indicator_at pw bar cont s ->
  (forall p q, p <> [] -> q <> [] ->
     classes bar (typed pw q (typed pw p s))
       = ["password-strength-bar"%string; strengthClass (passwordStrength q)] /\
     cls "show" cont (typed pw q (typed pw p s)) = true) /\
  (forall p, p <> [] ->
     cls "show" cont (typed pw [] (typed pw p s)) = false /\
     classes bar (typed pw [] (typed pw p s))
       = ["password-strength-bar"%string; strengthClass (passwordStrength p)]) /\
  (forall s0 v,
     getElementById_in "password-strength-bar" (elems s0) = None \/
     getElementById_in "password-strength" (elems s0) = None ->
     typed pw v s0 = type_in pw v s0).
Proof.
  intros Hs. split; [|split].
  - intros p q Hp Hq.
    destruct (typed_nonempty pw bar cont p s Hs Hp) as (Hs1 & _ & _).
    destruct (typed_nonempty pw bar cont q _ Hs1 Hq) as (_ & Hc & Hw). auto.
  - intros p Hp.
    destruct (typed_nonempty pw bar cont p s Hs Hp) as (Hs1 & Hc & _).
    destruct (typed_empty pw bar cont _ Hs1) as (Hw & Hc'). rewrite Hc'. auto.
  - intros s0 v H. unfold typed, after. rewrite passwordInputListener_run.
    rewrite updatePasswordStrength_missing; [reflexivity|].
    unfold type_in. rewrite !getElementById_upd_keep by reflexivity. exact H.
Qed.

Lemma indicator_follows_input_witness :
  classes 34 (typed 28 (js "abc") (typed 28 (js "Passw0rd!") sample_page))
    = ["password-strength-bar"; "strength-weak"]%string /\
  cls "show" 33 (typed 28 [] (typed 28 (js "Passw0rd!") sample_page)) = false /\
  classes 34 (typed 28 [] (typed 28 (js "Passw0rd!") sample_page))
    = ["password-strength-bar"; "strength-strong"]%string.
Proof.
  destruct (indicator_follows_input 28 34 33 sample_page) as (Htwo & Hempty & _).
  - repeat split; vm_compute; lia.
  - destruct (Htwo (js "Passw0rd!") (js "abc")) as [Hc _]; [discriminate ..|].
    destruct (Hempty (js "Passw0rd!")) as [Hw Hc']; [discriminate|].
    split; [exact Hc|]. split; [exact Hw | exact Hc'].
Defined.

(** ** The strength classes, by criteria *)

(** X16: the bar is strong exactly when the password has all of: at
    least 8 characters, a lower-case letter, an upper-case letter, a
    digit and a character that is none of these; it is weak exactly
    when at most one of the four points is earned.  Lower-case and
    upper-case letters earn their point only together. *)
Theorem strength_class_criteria (p : jsstring) :
  (strengthClass (passwordStrength p) = "strength-strong"%string <->
     8 <= length p /\ has_lower p = true /\ has_upper p = true /\
     has_digit p = true /\ has_other p = true) /\
  (strengthClass (passwordStrength p) = "strength-weak"%string <->
     b2n (8 <=? length p) + b2n (has_lower p && has_upper p)
       + b2n (has_digit p) + b2n (has_other p) <= 1) /\
  (has_lower p = false \/ has_upper p = false ->
     strengthClass (passwordStrength p) <> "strength-strong"%string /\
     passwordStrength p
       = b2n (8 <=? length p) + b2n (has_digit p) + b2n (has_other p)).
Proof.
  rewrite passwordStrength_points. unfold score_points, strengthClass.
  assert (E : (8 <=? length p) = true <-> 8 <= length p) by apply Nat.leb_le.
  destruct (8 <=? length p), (has_lower p), (has_upper p), (has_digit p),
    (has_other p); cbn;
    (split; [|split];
     [ split;
       [ intros H; first [discriminate | repeat split; try reflexivity;
                          apply E; reflexivity]
       | intros (H1 & H2 & H3 & H4 & H5);
         first [reflexivity | discriminate | apply E in H1; discriminate] ]
     | split; intros H; first [reflexivity | discriminate | lia]
     | intros [H|H]; first [discriminate | split; [discriminate | reflexivity]] ]).
Qed.

Lemma strength_class_criteria_witness :
  strengthClass (passwordStrength (js "PASSWORD123!")) <> "strength-strong"%string /\
  passwordStrength (js "PASSWORD123!") = 3.
Proof.
  destruct (strength_class_criteria (js "PASSWORD123!")) as (_ & _ & H).
  apply H. left. reflexivity.
Defined.

(** ** The addresses [validateEmail] accepts *)

Section Accepted.

Lemma not_space_at_iff c : not_space_at c = true <-> is_space c = false /\ c <> AT.
Proof.
  unfold not_space_at. rewrite negb_true_iff, orb_false_iff, N.eqb_neq. tauto.
Qed.

Lemma email_part_iff a :
  email_part a <-> a <> [] /\ forall c, In c a -> is_space c = false /\ c <> AT.
Proof.
  unfold email_part. rewrite Forall_forall. split; intros [Hne H]; (split; [exact Hne|]);
    intros c Hc; apply not_space_at_iff, H, Hc.
Qed.

End Accepted.

(** X17: [validateEmail] accepts exactly the strings [local@domain]
    where the local part is not empty, neither part holds white space
    or a further [@], and the domain has a dot that is neither its
    first nor its last character.  Nothing else is looked at. *)
Theorem validateEmail_accepts_exactly (email : jsstring) :
  validateEmail email = true <->
  exists loc domain : jsstring,
    email = loc ++ AT :: domain /\ loc <> [] /\
    (forall c, In c (loc ++ domain) -> is_space c = false /\ c <> AT) /\
    exists i, domain !! i = Some DOT /\ 0 < i /\ S i < length domain.
Proof.
  rewrite validateEmail_true. split.
  - intros (a & b & c & -> & Ha & Hb & Hc).
    apply email_part_iff in Ha as [Hane Ha], Hb as [Hbne Hb], Hc as [Hcne Hc].
    exists a, (b ++ DOT :: c). split; [reflexivity|]. split; [exact Hane|]. split.
    + intros x Hx. apply in_app_or in Hx as [Hx|Hx]; [apply Ha, Hx|].
      apply in_app_or in Hx as [Hx|[<-|Hx]];
        [apply Hb, Hx | split; [reflexivity | discriminate] | apply Hc, Hx].
    + exists (length b). split; [|split].
      * rewrite lookup_app_r by lia. rewrite Nat.sub_diag. reflexivity.
      * destruct b; [congruence | cbn; lia].
      * rewrite length_app. destruct c; [congruence | cbn; lia].
  - intros (loc & domain & -> & Hne & Hall & i & Hi & H0 & Hlast).
    exists loc, (take i domain), (drop (S i) domain).
    split; [rewrite (take_drop_middle domain i DOT Hi); reflexivity|].
    split; [|split]; apply email_part_iff.
    + split; [exact Hne|]. intros c Hc. apply Hall, in_or_app. left. exact Hc.
    + split.
      * intros E. apply (f_equal length) in E. rewrite length_take in E. cbn in E. lia.
      * intros c Hc. apply Hall, in_or_app. right.
        rewrite <- (take_drop_middle domain i DOT Hi). apply in_or_app. left. exact Hc.
    + split.
      * intros E. apply (f_equal length) in E. rewrite length_drop in E. cbn in E. lia.
      * intros c Hc. apply Hall, in_or_app. right.
        rewrite <- (take_drop_middle domain i DOT Hi). apply in_or_app. right. right.
        exact Hc.
Qed.

Lemma validateEmail_accepts_exactly_witness :
  validateEmail (js "a@.b.c") = true /\ validateEmail (js "a@b@c.d") = false.
Proof.
  split.
  - apply validateEmail_accepts_exactly.
    exists (js "a"), (js ".b.c"). split; [reflexivity|]. split; [discriminate|].
    split.
    + intros c Hc. cbn in Hc.
      repeat (destruct Hc as [<-|Hc]; [split; [reflexivity | discriminate]|]).
      destruct Hc.
    + exists 2. repeat split; cbn; lia.
  - destruct (validateEmail (js "a@b@c.d")) eqn:E; [|reflexivity]. exfalso.
    apply validateEmail_accepts_exactly in E
      as (loc & domain & Heq & _ & Hall & _).
    destruct loc as [|x loc]; [discriminate|].
    injection Heq as <- Heq.
    destruct loc as [|y loc].
    + injection Heq as <-.
      destruct (Hall AT) as [_ Hne]; [|congruence]. cbn. tauto.
    + injection Heq as <- Heq.
      destruct (Hall AT) as [_ Hne]; [|congruence]. cbn. tauto.
Defined.

(** ** Submitting again *)

Section Resubmit.

Implicit Types (s : Page) (n k e : node).

Lemma getElementById_mark_all id l s :
  getElementById_in id (elems (mark_all l s)) = getElementById_in id (elems s).
Proof.
  apply (mark_all_stable (fun s' => getElementById_in id (elems s') = _));
    [|reflexivity].
  intros k f s0 Hf H. rewrite getElementById_upd by exact Hf. exact H.
Qed.

Lemma form_marks_mark_all l s F : form_marks (mark_all l s) F = form_marks s F.
Proof.
  unfold form_marks. apply map_ext. intros x.
  rewrite error_element_mark_all. reflexivity.
Qed.

Lemma fields_ok_mark_all l s ids : fields_ok s ids -> fields_ok (mark_all l s) ids.
Proof.
  intros [Hall Hee]. split.
  - eapply Forall_impl; [|exact Hall]. cbv beta. intros x [Hid He].
    rewrite getElementById_mark_all, error_element_mark_all. auto.
  - erewrite map_ext; [exact Hee|]. intros x. apply error_element_mark_all.
Qed.

Lemma mark_txt_keep k n ee v s : is_MError v = false -> txt k (mark n ee v s) = txt k s.
Proof.
  intros Hv. destruct v, ee as [e|]; try discriminate; cbn;
    repeat rewrite txt_upd_keep by reflexivity; reflexivity.
Qed.

Lemma mark_all_txt_keep l : forall s n e v,
  List.NoDup (map mark_ee l) -> In (n, Some e, v) l -> is_MError v = false ->
  txt e (mark_all l s) = txt e s.
Proof.
  induction l as [|[[n0 ee0] v0] l IH]; intros s n e v Hnd Hin Hv; [destruct Hin|].
  cbn in Hnd. apply NoDup_cons_iff in Hnd as [Hfresh Hnd]. cbn.
  destruct Hin as [[= -> -> ->]|Hin].
  - destruct (mark_all_show_other e l Hfresh (mark n (Some e) v s)) as [_ ->].
    apply mark_txt_keep, Hv.
  - rewrite (IH _ n e v Hnd Hin Hv). apply mark_txt_other. intros ->.
    apply Hfresh. apply in_map_iff. exists (n, Some e, v). split; [reflexivity | exact Hin].
Qed.

(** Marking the same fields the same way once more changes nothing that
    can be read off the page. *)
Lemma mark_all_again l s :
  List.NoDup (map mark_node l) -> List.NoDup (map mark_ee l) ->
  Forall (fun x => mark_node x < length (elems s) /\
                   forall e, mark_ee x = Some e -> e < length (elems s)) l ->
  forall k,
    (forall c, cls c k (mark_all l (mark_all l s)) = cls c k (mark_all l s)) /\
    txt k (mark_all l (mark_all l s)) = txt k (mark_all l s).
Proof.
  intros Hnd Hee Hall k. rewrite Forall_forall in Hall.
  assert (Hlen : length (elems (mark_all l s)) = length (elems s)).
  { apply (mark_all_stable (fun s' => length (elems s') = _));
      [apply stable_length | reflexivity]. }
  destruct (in_dec (fun a b : option node => decide (a = b)) (Some k) (map mark_ee l))
    as [Hin|Hout].
  - apply in_map_iff in Hin as ([[n ee] v] & E & Hin). cbn in E. subst ee.
    destruct (Hall _ Hin) as [Hn Hk]. cbn in Hn, Hk. specialize (Hk k eq_refl).
    assert (Hk' : k < length (elems (mark_all l s))) by (rewrite Hlen; exact Hk).
    destruct (mark_all_show_same l s n k v Hee Hin Hk) as [Hs1 Ht1].
    destruct (mark_all_show_same l _ n k v Hee Hin Hk') as [Hs2 Ht2].
    split.
    + intros c. destruct (decide (c = "show"%string)) as [->|Hc]; [congruence|].
      destruct (in_dec Nat.eq_dec k (map mark_node l)) as [Hin'|Hout'];
        [|rewrite mark_all_cls_other by assumption; reflexivity].
      apply in_map_iff in Hin' as ([[n' ee'] v'] & E & Hin'). cbn in E. subst n'.
      destruct (mark_all_cls_same l s k ee' v' Hnd Hin' Hk) as [He1 Hu1].
      destruct (mark_all_cls_same l _ k ee' v' Hnd Hin' Hk') as [He2 Hu2].
      destruct (decide (c = "error"%string)) as [->|Hc1]; [congruence|].
      destruct (decide (c = "success"%string)) as [->|Hc2]; [congruence|].
      apply mark_all_cls_foreign; assumption.
    + destruct (is_MError v) eqn:Ev.
      * destruct v as [m| |]; try discriminate.
        rewrite (Ht1 m eq_refl), (Ht2 m eq_refl). reflexivity.
      * apply (mark_all_txt_keep l _ n k v Hee Hin Ev).
  - destruct (mark_all_show_other k l Hout (mark_all l s)) as [Hs Ht].
    split; [|exact Ht].
    intros c. destruct (decide (c = "show"%string)) as [->|Hc]; [exact Hs|].
    destruct (in_dec Nat.eq_dec k (map mark_node l)) as [Hin'|Hout'];
      [|rewrite mark_all_cls_other by assumption; reflexivity].
    apply in_map_iff in Hin' as ([[n' ee'] v'] & E & Hin'). cbn in E. subst n'.
    destruct (Hall _ Hin') as [Hk _]. cbn in Hk.
    assert (Hk' : k < length (elems (mark_all l s))) by (rewrite Hlen; exact Hk).
    destruct (mark_all_cls_same l s k ee' v' Hnd Hin' Hk) as [He1 Hu1].
    destruct (mark_all_cls_same l _ k ee' v' Hnd Hin' Hk') as [He2 Hu2].
    destruct (decide (c = "error"%string)) as [->|Hc1]; [congruence|].
    destruct (decide (c = "success"%string)) as [->|Hc2]; [congruence|].
    apply mark_all_cls_foreign; assumption.
Qed.

Lemma form_marks_again s (ids : list (string * node))
    (F : list (node * option jsstring)) :
  map snd ids = map fst F -> List.NoDup (map fst ids) -> fields_ok s ids ->
  forall k,
    (forall c, cls c k (mark_all (form_marks s F) (mark_all (form_marks s F) s))
               = cls c k (mark_all (form_marks s F) s)) /\
    txt k (mark_all (form_marks s F) (mark_all (form_marks s F) s))
      = txt k (mark_all (form_marks s F) s).
Proof.
  intros Hmap Hids Hok. pose proof Hok as [Hall Hee].
  apply mark_all_again.
  - unfold form_marks. rewrite map_map. cbn.
    change (List.NoDup (map fst F)). rewrite <- Hmap.
    eapply fields_nodes_NoDup; eassumption.
  - unfold form_marks. rewrite map_map. cbn.
    change (List.NoDup (map (fun x => error_element s (fst x)) F)).
    rewrite <- (map_map fst (error_element s)), <- Hmap, map_map. exact Hee.
  - apply Forall_forall. intros x Hx. unfold form_marks in Hx.
    apply in_map_iff in Hx as ([n v] & <- & Hin). cbn.
    assert (Hn : In n (map snd ids)).
    { rewrite Hmap. apply (in_map fst F (n, v)), Hin. }
    apply in_map_iff in Hn as ([id n'] & E & Hin'). cbn in E. subst n'.
    rewrite Forall_forall in Hall. destruct (Hall _ Hin') as [_ [e He]]. cbn in He.
    split; [eapply error_element_field_valid, He|].
    intros e' E. rewrite He in E. injection E as <-. eapply error_element_valid, He.
Qed.

(** A rejected submission stops after its validation blocks. *)
Lemma contact_rejected s form nm em sb ms :
  fields_ok s (contact_ids nm em sb ms) ->
  contact_valid (val nm s) (val em s) (val sb s) (val ms s) = false ->
  after (contactSubmit form) s =
    mark_all (form_marks s [(nm, v_required "Name is required" (val nm s));
                            (em, v_email (val em s));
                            (sb, v_subject (val sb s));
                            (ms, v_message (val ms s))]) s.
Proof.
  intros [Hall _] Hv. unfold contact_ids in Hall.
  apply Forall_cons_iff in Hall as [[Hid1 Hee1] Hall].
  apply Forall_cons_iff in Hall as [[Hid2 Hee2] Hall].
  apply Forall_cons_iff in Hall as [[Hid3 Hee3] Hall].
  apply Forall_cons_iff in Hall as [[Hid4 Hee4] _].
  cbn [fst snd] in Hid1, Hid2, Hid3, Hid4, Hee1, Hee2, Hee3, Hee4.
  destruct (field_has_group _ _ Hee1) as [g1 Hg1].
  destruct (field_has_group _ _ Hee2) as [g2 Hg2].
  destruct (field_has_group _ _ Hee3) as [g3 Hg3].
  destruct (field_has_group _ _ Hee4) as [g4 Hg4].
  unfold after.
  rewrite (contactSubmit_run s form nm em sb ms g1 g2 g3 g4) by assumption.
  rewrite contact_valid_accepted, Hv. reflexivity.
Qed.

Lemma signup_rejected s form nm em pw cf :
  fields_ok s (signup_ids nm em pw cf) ->
  signup_valid (val nm s) (val em s) (val pw s) (val cf s) = false ->
  after (signupSubmit form) s =
    mark_all (form_marks s [(nm, v_required "Name is required" (val nm s));
                            (em, v_email (val em s));
                            (pw, v_password (val pw s));
                            (cf, v_confirm (val pw s) (val cf s))]) s.
Proof.
  intros [Hall _] Hv. unfold signup_ids in Hall.
  apply Forall_cons_iff in Hall as [[Hid1 Hee1] Hall].
  apply Forall_cons_iff in Hall as [[Hid2 Hee2] Hall].
  apply Forall_cons_iff in Hall as [[Hid3 Hee3] Hall].
  apply Forall_cons_iff in Hall as [[Hid4 Hee4] _].
  cbn [fst snd] in Hid1, Hid2, Hid3, Hid4, Hee1, Hee2, Hee3, Hee4.
  destruct (field_has_group _ _ Hee1) as [g1 Hg1].
  destruct (field_has_group _ _ Hee2) as [g2 Hg2].
  destruct (field_has_group _ _ Hee3) as [g3 Hg3].
  destruct (field_has_group _ _ Hee4) as [g4 Hg4].
  unfold after.
  rewrite (signupSubmit_run s form nm em pw cf g1 g2 g3 g4) by assumption.
  rewrite signup_valid_accepted, Hv. reflexivity.
Qed.

Lemma login_rejected s form em pw :
  fields_ok s (login_ids em pw) ->
  login_valid (val em s) (val pw s) = false ->
  after (loginSubmit form) s =
    mark_all (form_marks s [(em, v_email (val em s));
                            (pw, v_required "Password is required" (val pw s))]) s.
Proof.
  intros [Hall _] Hv. unfold login_ids in Hall.
  apply Forall_cons_iff in Hall as [[Hid1 Hee1] Hall].
  apply Forall_cons_iff in Hall as [[Hid2 Hee2] _].
  cbn [fst snd] in Hid1, Hid2, Hee1, Hee2.
  destruct (field_has_group _ _ Hee1) as [g1 Hg1].
  destruct (field_has_group _ _ Hee2) as [g2 Hg2].
  unfold after.
  rewrite (loginSubmit_run s form em pw g1 g2) by assumption.
  rewrite login_valid_accepted, Hv. reflexivity.
Qed.

End Resubmit.

(** X18: a rejected submission, made again without touching the
    values, changes nothing that can be read off the page.  For each of
    the three forms: after a submission that was rejected, a second
    submission leaves every class, every text and every value as the
    first one left them, and creates nothing. *)
Theorem rejected_resubmission_changes_nothing (s : Page) (form : node) :
  (forall nm em sb ms,
     fields_ok s (contact_ids nm em sb ms) ->
     contact_valid (val nm s) (val em s) (val sb s) (val ms s) = false ->
     let s1 := after (contactSubmit form) s in
     let s2 := after (contactSubmit form) s1 in
     appended s2 = appended s /\ fresh s2 = fresh s /\
     forall k, (forall c, cls c k s2 = cls c k s1) /\
               txt k s2 = txt k s1 /\ val k s2 = val k s1) /\
  (forall em pw,
     fields_ok s (login_ids em pw) ->
     login_valid (val em s) (val pw s) = false ->
     let s1 := after (loginSubmit form) s in
     let s2 := after (loginSubmit form) s1 in
     appended s2 = appended s /\ fresh s2 = fresh s /\
     forall k, (forall c, cls c k s2 = cls c k s1) /\
               txt k s2 = txt k s1 /\ val k s2 = val k s1) /\
  (forall nm em pw cf,
     fields_ok s (signup_ids nm em pw cf) ->
     signup_valid (val nm s) (val em s) (val pw s) (val cf s) = false ->
     let s1 := after (signupSubmit form) s in
     let s2 := after (signupSubmit form) s1 in
     appended s2 = appended s /\ fresh s2 = fresh s /\
     forall k, (forall c, cls c k s2 = cls c k s1) /\
               txt k s2 = txt k s1 /\ val k s2 = val k s1).
Proof.
  split; [|split].
  - intros nm em sb ms Hok Hv s1 s2.
    pose proof (contact_rejected s form nm em sb ms Hok Hv) as E1. fold s1 in E1.
    assert (Hval1 : forall k, val k s1 = val k s)
      by (intros k; rewrite E1; apply val_mark_all).
    assert (Hfm1 : forall F, form_marks s1 F = form_marks s F)
      by (intros F; rewrite E1; apply form_marks_mark_all).
    assert (Hok1 : fields_ok s1 (contact_ids nm em sb ms))
      by (rewrite E1; apply fields_ok_mark_all, Hok).
    assert (Hv1 : contact_valid (val nm s1) (val em s1) (val sb s1) (val ms s1) = false)
      by (rewrite !Hval1; exact Hv).
    pose proof (contact_rejected s1 form nm em sb ms Hok1 Hv1) as E2. fold s2 in E2.
    rewrite Hfm1, !Hval1 in E2.
    match type of E1 with
    | _ = mark_all (form_marks s ?F0) s => set (F := F0) in *
    end.
    destruct (rest_mark_all (form_marks s F) s) as (Ha1 & Hf1 & _ & _).
    destruct (rest_mark_all (form_marks s F) s1) as (Ha2 & Hf2 & _ & _).
    rewrite E2. split; [rewrite Ha2, E1; exact Ha1|].
    split; [rewrite Hf2, E1; exact Hf1|].
    intros k. rewrite E1.
    destruct (form_marks_again s (contact_ids nm em sb ms) F eq_refl
                ltac:(repeat constructor; cbn; intuition discriminate) Hok k)
      as [Hc Ht].
    split; [exact Hc|]. split; [exact Ht|]. rewrite !val_mark_all. reflexivity.
  - intros em pw Hok Hv s1 s2.
    pose proof (login_rejected s form em pw Hok Hv) as E1. fold s1 in E1.
    assert (Hval1 : forall k, val k s1 = val k s)
      by (intros k; rewrite E1; apply val_mark_all).
    assert (Hfm1 : forall F, form_marks s1 F = form_marks s F)
      by (intros F; rewrite E1; apply form_marks_mark_all).
    assert (Hok1 : fields_ok s1 (login_ids em pw))
      by (rewrite E1; apply fields_ok_mark_all, Hok).
    assert (Hv1 : login_valid (val em s1) (val pw s1) = false)
      by (rewrite !Hval1; exact Hv).
    pose proof (login_rejected s1 form em pw Hok1 Hv1) as E2. fold s2 in E2.
    rewrite Hfm1, !Hval1 in E2.
    match type of E1 with
    | _ = mark_all (form_marks s ?F0) s => set (F := F0) in *
    end.
    destruct (rest_mark_all (form_marks s F) s) as (Ha1 & Hf1 & _ & _).
    destruct (rest_mark_all (form_marks s F) s1) as (Ha2 & Hf2 & _ & _).
    rewrite E2. split; [rewrite Ha2, E1; exact Ha1|].
    split; [rewrite Hf2, E1; exact Hf1|].
    intros k. rewrite E1.
    destruct (form_marks_again s (login_ids em pw) F eq_refl
                ltac:(repeat constructor; cbn; intuition discriminate) Hok k)
      as [Hc Ht].
    split; [exact Hc|]. split; [exact Ht|]. rewrite !val_mark_all. reflexivity.
  - intros nm em pw cf Hok Hv s1 s2.
    pose proof (signup_rejected s form nm em pw cf Hok Hv) as E1. fold s1 in E1.
    assert (Hval1 : forall k, val k s1 = val k s)
      by (intros k; rewrite E1; apply val_mark_all).
    assert (Hfm1 : forall F, form_marks s1 F = form_marks s F)
      by (intros F; rewrite E1; apply form_marks_mark_all).
    assert (Hok1 : fields_ok s1 (signup_ids nm em pw cf))
      by (rewrite E1; apply fields_ok_mark_all, Hok).
    assert (Hv1 : signup_valid (val nm s1) (val em s1) (val pw s1) (val cf s1) = false)
      by (rewrite !Hval1; exact Hv).
    pose proof (signup_rejected s1 form nm em pw cf Hok1 Hv1) as E2. fold s2 in E2.
    rewrite Hfm1, !Hval1 in E2.
    match type of E1 with
    | _ = mark_all (form_marks s ?F0) s => set (F := F0) in *
    end.
    destruct (rest_mark_all (form_marks s F) s) as (Ha1 & Hf1 & _ & _).
    destruct (rest_mark_all (form_marks s F) s1) as (Ha2 & Hf2 & _ & _).
    rewrite E2. split; [rewrite Ha2, E1; exact Ha1|].
    split; [rewrite Hf2, E1; exact Hf1|].
    intros k. rewrite E1.
    destruct (form_marks_again s (signup_ids nm em pw cf) F eq_refl
                ltac:(repeat constructor; cbn; intuition discriminate) Hok k)
      as [Hc Ht].
    split; [exact Hc|]. split; [exact Ht|]. rewrite !val_mark_all. reflexivity.
Qed.

Lemma rejected_resubmission_changes_nothing_witness :
  let s := signup_filled "Jane" "jane@x.com" "short" "other" in
  let s1 := after (signupSubmit 20) s in
  let s2 := after (signupSubmit 20) s1 in
  appended s2 = [] /\ cls "error" 28 s2 = cls "error" 28 s1 /\ txt 29 s2 = txt 29 s1.
Proof.
  intros s s1 s2.
  destruct (rejected_resubmission_changes_nothing s 20) as (_ & _ & H).
  destruct (H 22 25 28 31) as (Ha & _ & Hobs); [page_facts | reflexivity |].
  split; [exact Ha|].
  split; [apply (Hobs 28) | apply (Hobs 29)].
Defined.

(** ** Submitting again after an accepted submission *)

Section Again.

Implicit Types (s : Page) (n k e : node).

Lemma getElementById_reset_all id l s :
  getElementById_in id (elems (reset_all l s)) = getElementById_in id (elems s).
Proof.
  apply (reset_all_stable (fun s' => getElementById_in id (elems s') = _));
    [|reflexivity].
  intros k f s0 Hf H. rewrite getElementById_upd by exact Hf. exact H.
Qed.

Lemma error_element_reset_all l s n :
  error_element (reset_all l s) n = error_element s n.
Proof.
  apply (reset_all_stable (fun s' => error_element s' n = _));
    [apply stable_error_element | reflexivity].
Qed.

(** The page an accepted contact submission leaves has the tree of the
    page before. *)
Lemma contact_done_tree form type message s1 :
  (forall id, getElementById_in id (elems (contact_done form type message s1))
              = getElementById_in id (elems s1)) /\
  (forall n, error_element (contact_done form type message s1) n = error_element s1 n).
Proof.
  unfold contact_done. split.
  - intros id. rewrite getElementById_mark_all, getElementById_reset_all. reflexivity.
  - intros n. rewrite error_element_mark_all, error_element_reset_all. reflexivity.
Qed.

End Again.

(** X19: the contact form submitted twice.  After an accepted
    submission the controls are back at their default values; where the
    default of the name field is blank, an immediate second submission
    is rejected: the name field shows "Name is required", nothing is
    created, and the success alert of the first submission (classes
    [custom-alert alert-success], text "Thank you! Your message has
    been sent successfully.") is still the alert of the document. *)
Theorem contact_accepted_then_resubmitted (s : Page) (form nm em sb ms : node) :
  fields_ok s (contact_ids nm em sb ms) ->
  Forall (fun n => is_Some (closest_in form_group (elems s) n))
         (querySelectorAll_in controls (elems s) form) ->
  In nm (querySelectorAll_in controls (elems s) form) ->
  contact_valid (val nm s) (val em s) (val sb s) (val ms s) = true ->
  blank (dflt nm s) = true ->
  let s1 := after (contactSubmit form) s in
  exists s2, contactSubmit form s1 = (Ok tt, s2) /\
    created s1 s2 = 0 /\
    alerts s2 = [(fresh s, AlertDiv (mkAlert ["custom-alert"; "alert-success"]%string
          (js "Thank you! Your message has been sent successfully.")
          (Some ("#dcfce7", "#166534", "1px solid #10b981")%string)))] /\
    shows_error s nm (js "Name is required") s2 /\
    (forall k, val k s2 = val k s1).
Proof.
  intros Hok Hgroups Hnm Hv Hblank s1.
  destruct (contact_blocks s form nm em sb ms Hok)
    as (s0 & Hrun & [l ->] & Happ0 & Hfresh0 & _).
  rewrite Hv in Hrun.
  assert (Hgroups0 : Forall (fun n => is_Some (closest_in form_group
                                         (elems (mark_all l s)) n))
                            (querySelectorAll_in controls (elems (mark_all l s)) form)).
  { rewrite querySelectorAll_mark_all by apply shape_pred_controls.
    eapply Forall_impl; [|exact Hgroups]. cbv beta. intros n Hn.
    rewrite closest_mark_all by apply shape_pred_form_group. exact Hn. }
  rewrite (contact_finish_run _ form _ _ Hgroups0) in Hrun.
  assert (E1 : s1 = contact_done form "success"
                      (js "Thank you! Your message has been sent successfully.")
                      (mark_all l s)).
  { unfold s1, after. rewrite Hrun. reflexivity. }
  destruct (contact_done_tree form "success"
              (js "Thank you! Your message has been sent successfully.") (mark_all l s))
    as [Hids Hees].
  rewrite <- E1 in Hids, Hees.
  destruct (contact_done_spec (mark_all l s) form "success"
              (js "Thank you! Your message has been sent successfully."))
    as (Hal & Hfr & Hin).
  rewrite <- E1 in Hal, Hfr, Hin.
  assert (Hee1 : forall n, error_element s1 n = error_element s n).
  { intros n. rewrite Hees. apply error_element_mark_all. }
  assert (Hok1 : fields_ok s1 (contact_ids nm em sb ms)).
  { destruct Hok as [Hall Hnd]. split.
    - eapply Forall_impl; [|exact Hall]. cbv beta. intros x [Hid He].
      rewrite Hids, getElementById_mark_all, Hee1. auto.
    - erewrite map_ext; [exact Hnd|]. intros x. apply Hee1. }
  assert (Hval1 : val nm s1 = dflt nm s).
  { destruct (Hin nm) as [Hval _].
    - rewrite querySelectorAll_mark_all by apply shape_pred_controls. exact Hnm.
    - rewrite Hval. apply dflt_mark_all. }
  destruct (contact_blocks s1 form nm em sb ms Hok1)
    as (s2 & Hrun2 & _ & Happ2 & Hfresh2 & Hval2 & Hname & _).
  assert (Hv1 : contact_valid (val nm s1) (val em s1) (val sb s1) (val ms s1) = false).
  { unfold contact_valid. rewrite Hval1, Hblank. reflexivity. }
  rewrite Hv1 in Hrun2.
  exists s2. split; [exact Hrun2|].
  split; [unfold created; rewrite Hfresh2; lia|].
  split; [unfold alerts; rewrite Happ2; fold (alerts s1); rewrite Hal, Hfresh0;
          reflexivity|].
  split; [|exact Hval2].
  unfold v_required in Hname. rewrite trim_empty, Hval1, Hblank in Hname.
  cbn in Hname. destruct Hname as (H1 & H2 & e & He & Ht & Hs).
  split; [exact H1|]. split; [exact H2|].
  exists e. rewrite <- Hee1. auto.
Qed.

Lemma contact_accepted_then_resubmitted_witness :
  let s := contact_filled "Jane" "jane@x.com" "General" "Hello there, this is long enough." in
  let s1 := after (contactSubmit 0) s in
  exists s2, contactSubmit 0 s1 = (Ok tt, s2) /\
    created s1 s2 = 0 /\
    alerts s2 = [(0, AlertDiv (mkAlert ["custom-alert"; "alert-success"]%string
          (js "Thank you! Your message has been sent successfully.")
          (Some ("#dcfce7", "#166534", "1px solid #10b981")%string)))] /\
    shows_error s 2 (js "Name is required") s2.
Proof.
  intros s s1.
  destruct (contact_accepted_then_resubmitted s 0 2 5 8 11)
    as (s2 & Hrun & Hc & Hal & Herr & _);
    [page_facts | page_facts | vm_compute; tauto | reflexivity | reflexivity |].
  exists s2. auto.
Defined.
